(** * Receipt text extraction and category suggestion

    A shallow embedding of the pure parts of [src/lib/parse.ts],
    [src/lib/ocr.ts] and [src/pages/ExpensePage.tsx], together with the
    engine-selection logic of [runReceiptOcr].

    Conventions of the embedding.

    - A string is a list of 8-bit code units read as ISO-8859-1, so that
      every character of the model is the Unicode code point of the same
      number (U+0000..U+00FF).  The character tables ([\s], [\d], [\p{L}],
      [toLowerCase], case-insensitive matching) are the ECMAScript ones
      restricted to that range.  Characters above U+00FF (the en dash of
      [TRAILING_PRICE_PATTERN], U+2019 in [parseDecimalInput]) lie outside
      the alphabet and are dropped from the character classes that list
      them.
    - A JavaScript number is a binary64 value.  A finite one is stored as
      the integer [k] with value [k * 2^-1074]: every finite binary64 is
      such a multiple, comparison is comparison of the integers, and
      arithmetic rounds the exact result to the nearest representable
      multiple, ties to even.  The two zeros are not distinguished.
    - Regular expressions are abstract syntax trees run by a backtracking
      matcher with the priorities of ECMAScript (leftmost start, greedy
      quantifiers, alternatives left to right). *)

From Stdlib Require Import Ascii String.
From Stdlib Require Import List ZArith Lia Bool Arith.
From Stdlib Require Import DecimalString.
Import ListNotations.

Set Implicit Arguments.

(** ** Characters and strings *)

Definition str := list ascii.

Definition lit (s : string) : str := list_ascii_of_string s.

Definition code (a : ascii) : N := N_of_ascii a.

Definition chr (n : N) : ascii := ascii_of_N n.

Definition inRange (lo hi : N) (a : ascii) : bool :=
  (lo <=? code a)%N && (code a <=? hi)%N.

Definition isChar (c : ascii) (a : ascii) : bool := Ascii.eqb a c.

Definition oneOf (cs : string) (a : ascii) : bool :=
  existsb (Ascii.eqb a) (lit cs).

(** [\d] *)
Definition isDigit (a : ascii) : bool := inRange 48 57 a.

(** [\s], and the characters removed by [String.prototype.trim]:
    TAB, LF, VT, FF, CR, SPACE and NO-BREAK SPACE. *)
Definition isSpace (a : ascii) : bool :=
  inRange 9 13 a || (code a =? 32)%N || (code a =? 160)%N.

(** [\p{L}] below U+0100: A-Z, a-z, U+00AA, U+00B5, U+00BA, U+00C0-U+00D6,
    U+00D8-U+00F6, U+00F8-U+00FF. *)
Definition isLetter (a : ascii) : bool :=
  inRange 65 90 a || inRange 97 122 a
  || (code a =? 170)%N || (code a =? 181)%N || (code a =? 186)%N
  || inRange 192 214 a || inRange 216 246 a || inRange 248 255 a.

(** [String.prototype.toLowerCase] on one character. *)
Definition lowerChar (a : ascii) : ascii :=
  if inRange 65 90 a then chr (code a + 32)
  else if (inRange 192 214 a || inRange 216 222 a) then chr (code a + 32)
  else a.

(** Canonicalize of a case-insensitive, non-unicode regular expression:
    the upper-case form when it is a single character of the alphabet. *)
Definition canonChar (a : ascii) : ascii :=
  if inRange 97 122 a then chr (code a - 32)
  else if (inRange 224 246 a || inRange 248 254 a) then chr (code a - 32)
  else a.

Definition toLowerCase (s : str) : str := map lowerChar s.

Definition isEmpty (s : str) : bool :=
  match s with [] => true | _ => false end.

Fixpoint dropWhile (p : ascii -> bool) (s : str) : str :=
  match s with
  | a :: s' => if p a then dropWhile p s' else s
  | [] => []
  end.

Definition trim (s : str) : str :=
  rev (dropWhile isSpace (rev (dropWhile isSpace s))).

Fixpoint isPrefix (p s : str) : bool :=
  match p, s with
  | [], _ => true
  | a :: p', b :: s' => Ascii.eqb b a && isPrefix p' s'
  | _ :: _, [] => false
  end.

(** [s.includes(sub)] *)
Fixpoint includes (s sub : str) : bool :=
  isPrefix sub s ||
  match s with
  | _ :: s' => includes s' sub
  | [] => false
  end.

(** [s.replace(pat, rep)] with a string pattern: the first occurrence. *)
Fixpoint replaceStr (pat rep s : str) : str :=
  if isPrefix pat s then rep ++ skipn (length pat) s
  else match s with
       | a :: s' => a :: replaceStr pat rep s'
       | [] => []
       end.

Fixpoint span (p : ascii -> bool) (s : str) : str * str :=
  match s with
  | a :: s' =>
      if p a then let (x, y) := span p s' in (a :: x, y) else ([], s)
  | [] => ([], [])
  end.

(** [items.join(sep)] *)
Fixpoint join (sep : str) (l : list str) : str :=
  match l with
  | [] => []
  | [x] => x
  | x :: l' => x ++ sep ++ join sep l'
  end.

(** [String(n)] for a non-negative integer. *)
Definition decimal (n : N) : str :=
  lit (NilZero.string_of_uint (N.to_uint n)).

(** [s.padStart(2, "0")] *)
Definition padStart2 (s : str) : str :=
  match s with
  | [] => lit "00"
  | [a] => [chr 48; a]
  | _ => s
  end.

(** ** Numbers *)

Inductive number :=
| NaN
| PInf
| NInf
| Fin (k : Z).

Definition unit_exp : Z := 1074.

Definition prec : Z := 53.

(** Largest finite value, [(2^53 - 1) * 2^971], in units of [2^-1074]. *)
Definition maxFin : Z := (2 ^ prec - 1) * 2 ^ (971 + unit_exp).

(** Nearest integer to [a / d], ties to even ([0 <= a], [0 < d]). *)
Definition rne (a d : Z) : Z :=
  let q := (a / d)%Z in
  match (2 * (a mod d) ?= d)%Z with
  | Lt => q
  | Gt => (q + 1)%Z
  | Eq => if Z.even q then q else (q + 1)%Z
  end.

(** Nearest multiple of the local spacing to [a / d]: the spacing is one
    unit below [2^53] units and [2^sh] where the quotient has [53 + sh]
    bits. *)
Definition roundRatio (a d : Z) : Z :=
  let sh := (Z.log2 (a / d) + 1 - prec)%Z in
  if (sh <=? 0)%Z then rne a d else (rne a (d * 2 ^ sh) * 2 ^ sh)%Z.

(** The binary64 nearest to [(-1)^neg * a / d] units. *)
Definition ofRatio (neg : bool) (a d : Z) : number :=
  let k := roundRatio a d in
  if (k <=? maxFin)%Z then Fin (if neg then - k else k)%Z
  else if neg then NInf else PInf.

Definition ofUnits (z : Z) : number := ofRatio (z <? 0)%Z (Z.abs z) 1.

(** An integer literal or an integer-valued quantity such as a length. *)
Definition ofZ (z : Z) : number := ofUnits (z * 2 ^ unit_exp).

Definition isFinite (x : number) : bool :=
  match x with Fin _ => true | _ => false end.

(** ToBoolean of a number. *)
Definition truthy (x : number) : bool :=
  match x with
  | NaN => false
  | Fin k => negb (k =? 0)%Z
  | _ => true
  end.

Definition fneg (x : number) : number :=
  match x with
  | NaN => NaN
  | PInf => NInf
  | NInf => PInf
  | Fin k => Fin (- k)
  end.

Definition fadd (x y : number) : number :=
  match x, y with
  | NaN, _ | _, NaN => NaN
  | PInf, NInf | NInf, PInf => NaN
  | PInf, _ | _, PInf => PInf
  | NInf, _ | _, NInf => NInf
  | Fin a, Fin b => ofUnits (a + b)
  end.

Definition fsub (x y : number) : number := fadd x (fneg y).

Definition fdiv (x y : number) : number :=
  match x, y with
  | NaN, _ | _, NaN => NaN
  | Fin a, Fin b =>
      if (b =? 0)%Z then
        if (a =? 0)%Z then NaN
        else if (0 <? a)%Z then PInf else NInf
      else ofRatio (negb (Bool.eqb (a <? 0)%Z (b <? 0)%Z))
                   (Z.abs a * 2 ^ unit_exp) (Z.abs b)
  | Fin _, _ => Fin 0
  | PInf, Fin b => if (b <? 0)%Z then NInf else PInf
  | NInf, Fin b => if (b <? 0)%Z then PInf else NInf
  | _, _ => NaN
  end.

(** [x < y] *)
Definition ltb (x y : number) : bool :=
  match x, y with
  | NaN, _ | _, NaN => false
  | _, NInf => false
  | NInf, _ => true
  | PInf, _ => false
  | Fin _, PInf => true
  | Fin a, Fin b => (a <? b)%Z
  end.

(** [x <= y] *)
Definition leb (x y : number) : bool :=
  match x, y with
  | NaN, _ | _, NaN => false
  | NInf, _ => true
  | _, NInf => false
  | _, PInf => true
  | PInf, _ => false
  | Fin a, Fin b => (a <=? b)%Z
  end.

(** [Math.min(x, y)] *)
Definition fmin (x y : number) : number :=
  match x, y with
  | NaN, _ | _, NaN => NaN
  | _, _ => if ltb y x then y else x
  end.

(** ** String to number: [Number(s)] *)

Definition digitVal (a : ascii) : Z := (Z.of_N (code a) - 48)%Z.

Definition isHexDigit (a : ascii) : bool :=
  isDigit a || inRange 65 70 a || inRange 97 102 a.

Definition hexVal (a : ascii) : Z :=
  if isDigit a then digitVal a
  else if inRange 65 70 a then (Z.of_N (code a) - 55)%Z
  else (Z.of_N (code a) - 87)%Z.

Definition isOctDigit (a : ascii) : bool := inRange 48 55 a.

Definition isBinDigit (a : ascii) : bool := inRange 48 49 a.

(** Value of a digit string in the given base. *)
Definition digitsZ (base : Z) (val : ascii -> Z) (ds : str) : Z :=
  fold_left (fun acc a => (acc * base + val a)%Z) ds 0%Z.

(** The binary64 nearest to [n * 10^e]. *)
Definition ofDecimal (n e : Z) : number :=
  if (0 <=? e)%Z then ofUnits (n * 10 ^ e * 2 ^ unit_exp)
  else ofRatio false (n * 2 ^ unit_exp) (10 ^ (- e)).

(** A numeric literal as the grammar of StringNumericLiteral reads it,
    before its mathematical value is rounded: an infinity, a decimal
    literal [(-1)^neg * mant * 10^exp10], or a non-decimal integer. *)
Inductive literal :=
| LitInfinity (neg : bool)
| LitDecimal (neg : bool) (mant exp10 : Z)
| LitInteger (z : Z).

(** ExponentPart after its [e]: an optionally signed, non-empty digit
    string that ends the literal. *)
Definition exponentPart (s : str) : option Z :=
  let '(neg, ds) :=
    match s with
    | a :: t =>
        if isChar "+" a then (false, t)
        else if isChar "-" a then (true, t)
        else (false, s)
    | [] => (false, s)
    end in
  let (ed, rest) := span isDigit ds in
  if isEmpty ed || negb (isEmpty rest) then None
  else Some (if neg then (- digitsZ 10 digitVal ed)%Z
             else digitsZ 10 digitVal ed).

(** StrUnsignedDecimalLiteral *)
Definition strUnsignedDecimal (neg : bool) (s : str) : option literal :=
  if isPrefix (lit "Infinity") s && (length s =? 8) then Some (LitInfinity neg)
  else
    let (ip, r1) := span isDigit s in
    let (fp, r2) :=
      match r1 with
      | a :: r => if isChar "." a then span isDigit r else ([], r1)
      | [] => ([], r1)
      end in
    if isEmpty ip && isEmpty fp then None
    else
      let mant := digitsZ 10 digitVal (ip ++ fp) in
      let frac := Z.of_nat (length fp) in
      match r2 with
      | [] => Some (LitDecimal neg mant (- frac))
      | a :: r =>
          if oneOf "eE" a then
            match exponentPart r with
            | Some e => Some (LitDecimal neg mant (e - frac))
            | None => None
            end
          else None
      end.

(** StrDecimalLiteral *)
Definition strDecimal (s : str) : option literal :=
  match s with
  | a :: t =>
      if isChar "+" a then strUnsignedDecimal false t
      else if isChar "-" a then strUnsignedDecimal true t
      else strUnsignedDecimal false s
  | [] => strUnsignedDecimal false s
  end.

(** NonDecimalIntegerLiteral after its two-character prefix. *)
Definition nonDecimal (base : Z) (ok : ascii -> bool) (val : ascii -> Z)
  (ds : str) : option literal :=
  if isEmpty ds || negb (forallb ok ds) then None
  else Some (LitInteger (digitsZ base val ds)).

(** StringNumericLiteral without the white space around it; the empty
    literal stands for zero. *)
Definition numericLiteral (t : str) : option literal :=
  match t with
  | [] => Some (LitInteger 0)
  | z :: x :: ds =>
      if isChar "0" z && oneOf "xX" x then nonDecimal 16 isHexDigit hexVal ds
      else if isChar "0" z && oneOf "oO" x then
        nonDecimal 8 isOctDigit digitVal ds
      else if isChar "0" z && oneOf "bB" x then
        nonDecimal 2 isBinDigit digitVal ds
      else strDecimal t
  | _ => strDecimal t
  end.

(** The number a literal denotes: its mathematical value rounded to the
    nearest binary64. *)
Definition literalValue (l : literal) : number :=
  match l with
  | LitInfinity neg => if neg then NInf else PInf
  | LitDecimal neg mant exp10 =>
      if neg then fneg (ofDecimal mant exp10) else ofDecimal mant exp10
  | LitInteger z => ofZ z
  end.

(** StringToNumber: white space around the literal is ignored, and
    anything outside the grammar is NaN. *)
Definition toNumber (s : str) : number :=
  match numericLiteral (trim s) with
  | Some l => literalValue l
  | None => NaN
  end.

(** ** Regular expressions *)

Inductive regex :=
| Eps
| Cls (p : ascii -> bool)                     (* one character of a class *)
| Cat (r1 r2 : regex)                         (* r1 r2 *)
| Alt (r1 r2 : regex)                         (* r1|r2 *)
| Rep (lo : nat) (hi : option nat) (r : regex) (* greedy r{lo,hi} *)
| Grp (n : nat) (r : regex)                   (* capturing group number n *)
| Bol                                         (* ^ *)
| Eol.                                        (* $ *)

Declare Scope regex_scope.
Delimit Scope regex_scope with re.
Bind Scope regex_scope with regex.
Infix ";;" := Cat (at level 61, right associativity) : regex_scope.
Infix "<|>" := Alt (at level 62, right associativity) : regex_scope.

Definition Star (r : regex) : regex := Rep 0 None r.
Definition Plus (r : regex) : regex := Rep 1 None r.
Definition Opt (r : regex) : regex := Rep 0 (Some 1) r.
Definition Times (n : nat) (r : regex) : regex := Rep n (Some n) r.
Definition Between (lo hi : nat) (r : regex) : regex := Rep lo (Some hi) r.

(** A literal character, and one matched under the [i] flag. *)
Definition Chr (c : ascii) : regex := Cls (isChar c).
Definition ChrI (c : ascii) : regex :=
  Cls (fun a => Ascii.eqb (canonChar a) (canonChar c)).

Definition catAll (l : list regex) : regex := fold_right Cat Eps l.

(** A literal word, and one matched under the [i] flag. *)
Definition Word (w : string) : regex := catAll (map Chr (lit w)).
Definition WordI (w : string) : regex := catAll (map ChrI (lit w)).

(** [w1|w2|...] *)
Fixpoint anyOf (l : list regex) : regex :=
  match l with
  | [] => Cls (fun _ => false)
  | [r] => r
  | r :: l' => Alt r (anyOf l')
  end.

(** Captured substrings, most recent first. *)
Definition caps := list (nat * str).

Fixpoint group (n : nat) (c : caps) : option str :=
  match c with
  | [] => None
  | (m, s) :: c' => if m =? n then Some s else group n c'
  end.

Section Matcher.

(** Length of the whole subject, against which [^] is decided. *)
Variable total : nat.

Definition cont := str -> caps -> option (caps * str).

(** The optional iterations of a greedy quantifier, at most [n] of them:
    one more iteration is tried first, what follows the quantifier
    second.  An iteration that consumes nothing is rejected, as in
    ECMAScript. *)
Fixpoint optionalLoop (body : str -> caps -> cont -> option (caps * str))
  (k : cont) (n : nat) (s : str) (c : caps) {struct n}
  : option (caps * str) :=
  match n with
  | 0 => k s c
  | S n' =>
      match
        body s c
          (fun s' c' =>
             if length s' <? length s then optionalLoop body k n' s' c'
             else None)
      with
      | Some x => Some x
      | None => k s c
      end
  end.

(** The [m] mandatory iterations of a quantifier, then [after]. *)
Fixpoint mandatoryLoop (body : str -> caps -> cont -> option (caps * str))
  (after : cont) (m : nat) (s : str) (c : caps) {struct m}
  : option (caps * str) :=
  match m with
  | 0 => after s c
  | S m' => body s c (fun s' c' => mandatoryLoop body after m' s' c')
  end.

(** The backtracking matcher in continuation-passing style: [run r s c k]
    matches [r] at the front of [s] and hands what is left to [k]; when
    [k] fails the next alternative of [r] is tried.  A quantifier runs
    its [lo] mandatory iterations, then its optional ones: [hi - lo] of
    them at most, and where there is no upper bound as many as there are
    characters left, since each consumes at least one. *)
Fixpoint run (r : regex) (s : str) (c : caps) (k : cont) {struct r}
  : option (caps * str) :=
  match r with
  | Eps => k s c
  | Cls p =>
      match s with
      | a :: s' => if p a then k s' c else None
      | [] => None
      end
  | Cat r1 r2 => run r1 s c (fun s' c' => run r2 s' c' k)
  | Alt r1 r2 =>
      match run r1 s c k with
      | Some x => Some x
      | None => run r2 s c k
      end
  | Grp n r' =>
      run r' s c
        (fun s' c' => k s' ((n, firstn (length s - length s') s) :: c'))
  | Bol => if length s =? total then k s c else None
  | Eol => if isEmpty s then k s c else None
  | Rep lo hi r' =>
      mandatoryLoop (run r')
        (fun s' c' =>
           optionalLoop (run r') k
             (match hi with Some h => h - lo | None => length s' end) s' c')
        lo s c
  end.

(** A match that starts exactly at the front of [s]. *)
Definition matchAt (r : regex) (s : str) : option (caps * str) :=
  run r s [] (fun s' c' => Some (c', s')).

(** The leftmost match at or after the front of [s]:
    text before, matched text, captures, text after. *)
Fixpoint searchFrom (r : regex) (before : str) (s : str)
  : option (str * str * caps * str) :=
  match matchAt r s with
  | Some (c, rest) =>
      Some (rev before, firstn (length s - length rest) s, c, rest)
  | None =>
      match s with
      | a :: s' => searchFrom r (a :: before) s'
      | [] => None
      end
  end.

(** All matches of a global expression, each search resuming where the
    previous match ended (one character further after an empty match).
    [skip] counts the characters of the current match still to pass. *)
Fixpoint scanAll (r : regex) (skip : nat) (s : str) : list str :=
  match skip with
  | S n =>
      match s with
      | _ :: s' => scanAll r n s'
      | [] => []
      end
  | 0 =>
      match matchAt r s with
      | Some (_, rest) =>
          let m := firstn (length s - length rest) s in
          m :: match s with
               | _ :: s' => scanAll r (pred (length m)) s'
               | [] => []
               end
      | None =>
          match s with
          | _ :: s' => scanAll r 0 s'
          | [] => []
          end
      end
  end.

Fixpoint replaceGo (r : regex) (rep : str) (skip : nat) (s : str) : str :=
  match skip with
  | S n =>
      match s with
      | _ :: s' => replaceGo r rep n s'
      | [] => []
      end
  | 0 =>
      match matchAt r s with
      | Some (_, rest) =>
          rep ++
          match length s - length rest, s with
          | 0, a :: s' => a :: replaceGo r rep 0 s'
          | n, _ :: s' => replaceGo r rep (pred n) s'
          | _, [] => []
          end
      | None =>
          match s with
          | a :: s' => a :: replaceGo r rep 0 s'
          | [] => []
          end
      end
  end.

(** The loop of [RegExp.prototype[Symbol.split]]; [cur] is the pending
    piece, reversed. *)
Fixpoint splitGo (r : regex) (skip : nat) (cur : str) (s : str)
  : list str :=
  match s with
  | [] => [rev cur]
  | a :: s' =>
      match skip with
      | S n => splitGo r n cur s'
      | 0 =>
          match matchAt r s with
          | Some (_, rest) =>
              match length s - length rest with
              | 0 =>
                  if isEmpty cur then splitGo r 0 [a] s'
                  else rev cur :: splitGo r 0 [a] s'
              | S n => rev cur :: splitGo r n [] s'
              end
          | None => splitGo r 0 (a :: cur) s'
          end
      end
  end.

End Matcher.

(** [re.exec(s)] / [s.match(re)] for an expression without the [g] flag. *)
Definition search (r : regex) (s : str) : option (str * str * caps * str) :=
  searchFrom (length s) r [] s.

(** [re.test(s)] *)
Definition test (r : regex) (s : str) : bool :=
  match search r s with Some _ => true | None => false end.

(** [s.match(re)] for a global expression; [[]] stands for [null]. *)
Definition matchAll (r : regex) (s : str) : list str :=
  scanAll (length s) r 0 s.

(** [s.replace(re, rep)] without the [g] flag: the leftmost match. *)
Definition replaceFirst (r : regex) (rep : str) (s : str) : str :=
  match search r s with
  | Some (before, _, _, after) => before ++ rep ++ after
  | None => s
  end.

(** [s.replace(re, rep)] with the [g] flag. *)
Definition replaceAll (r : regex) (rep : str) (s : str) : str :=
  replaceGo (length s) r rep 0 s.

(** [s.split(re)] *)
Definition split (r : regex) (s : str) : list str :=
  match s with
  | [] => match matchAt 0 r [] with Some _ => [] | None => [[]] end
  | _ => splitGo (length s) r 0 [] s
  end.

(** ** [src/lib/parse.ts] *)

(** The values [parseDecimalInput] distinguishes in its [unknown]
    argument; [VOther] stands for booleans, objects and the rest. *)
Inductive jsval :=
| VUndefined
| VNull
| VNumber (n : number)
| VString (s : str)
| VOther.

(** [/[\s'\u2019]/g]; U+2019 lies outside the alphabet. *)
Definition SEPARATORS : regex := Cls (fun a => isSpace a || isChar "'" a).

(** [/\./g] *)
Definition DOT : regex := Chr ".".

(** The string branch of [parseDecimalInput] up to the call of [Number]:
    the text handed to it, or nothing where the function has returned
    [undefined] before. *)
Definition normalizeDecimal (s : str) : option str :=
  let normalized := trim s in
  if isEmpty normalized then None
  else
    let normalized := replaceAll SEPARATORS [] normalized in
    let normalized :=
      if includes normalized (lit ",") && includes normalized (lit ".")
      then replaceStr (lit ",") (lit ".") (replaceAll DOT [] normalized)
      else replaceStr (lit ",") (lit ".") normalized in
    if isEmpty normalized then None else Some normalized.

(** [Number.isFinite(x) ? x : undefined] *)
Definition finiteOrNone (x : number) : option number :=
  if isFinite x then Some x else None.

Definition parseDecimalInput (value : jsval) : option number :=
  match value with
  | VNull | VUndefined => None
  | VNumber n => finiteOrNone n
  | VString s =>
      match normalizeDecimal s with
      | Some normalized => finiteOrNone (toNumber normalized)
      | None => None
      end
  | VOther => None
  end.

(** ** [src/lib/ocr.ts]: line classification *)

Local Open Scope regex_scope.

Definition digit : regex := Cls isDigit.

(** [(\d{1,3}(?:[\s'.]\d{3})*(?:[.,]\d{2})|\d+[.,]\d{2})] without its
    group. *)
Definition amountToken : regex :=
  (Between 1 3 digit ;;
   Star (Cls (fun a => isSpace a || oneOf "'." a) ;; Times 3 digit) ;;
   (Cls (oneOf ".,") ;; Times 2 digit))
  <|> (Plus digit ;; Cls (oneOf ".,") ;; Times 2 digit).

Definition AMOUNT_PATTERN : regex := Grp 1 amountToken.

(** [(?:chf|fr|eur)?] under the [i] flag *)
Definition currencyOpt : regex :=
  Opt (anyOf [WordI "chf"; WordI "fr"; WordI "eur"]).

(** [\s*(?:chf|fr|eur)?\s*[a-z]?\s*[.,;:]?\s*$] under the [i] flag: what
    may follow the amount in both price patterns. *)
Definition priceTail : regex :=
  Star (Cls isSpace) ;; currencyOpt ;; Star (Cls isSpace) ;;
  Opt (Cls (fun a => inRange 65 90 (canonChar a))) ;; Star (Cls isSpace) ;;
  Opt (Cls (oneOf ".,;:")) ;; Star (Cls isSpace) ;; Eol.

Definition PRICE_ONLY_PATTERN : regex :=
  Bol ;; Star (Cls isSpace) ;; currencyOpt ;; Star (Cls isSpace) ;;
  Grp 1 amountToken ;; priceTail.

Definition TRAILING_PRICE_PATTERN : regex :=
  Opt (Chr "-") ;; Star (Cls isSpace) ;; currencyOpt ;; Star (Cls isSpace) ;;
  Grp 1 amountToken ;; priceTail.

Definition isTextLine (line : str) : bool :=
  test (Cls isLetter) line && (3 <? length line).

Definition normalizeOcrLine (line : str) : str :=
  trim
    (replaceFirst (Plus (Cls (oneOf ".,;:")) ;; Eol) []
       (replaceAll (Plus (Cls isSpace)) (lit " ")
          (replaceAll (Plus (Chr "|")) (lit " ") line))).

Definition noiseKeywords : list str :=
  map lit ["total"; "summe"; "gesamt"; "betrag"; "zu zahlen"; "da pagare";
           "importo"; "mwst"; "ust"; "vat"; "iva"]%string.

Definition isNoiseLine (line : str) : bool :=
  let lower := toLowerCase line in
  existsb (fun keyword => includes lower keyword) noiseKeywords.

Definition isPriceOnlyLine (line : str) : bool :=
  test PRICE_ONLY_PATTERN line.

Definition stripTrailingPrice (line : str) : str :=
  trim (replaceFirst TRAILING_PRICE_PATTERN [] line).

(** [/(tel|fax|www|http|@)/i] *)
Definition CONTACT_PATTERN : regex :=
  Grp 1 (anyOf [WordI "tel"; WordI "fax"; WordI "www"; WordI "http";
                WordI "@"]).

Definition looksLikeItemLine (line : str) : bool :=
  if negb (isTextLine line) || isNoiseLine line then false
  else
    let letters := matchAll (Cls isLetter) line in
    if length letters <? 2 then false
    else
      let digits := matchAll digit line in
      if 2 * length letters <? length digits then false
      else if test CONTACT_PATTERN line then false
      else true.

(** The item-candidate class in the words of the specification: at least
    two letters, not noise, not price-only, not digit-dominated, and no
    contact pattern. *)
Definition itemCandidateSpec (line : str) : bool :=
  (2 <=? length (matchAll (Cls isLetter) line))
  && negb (isNoiseLine line)
  && negb (isPriceOnlyLine line)
  && negb (2 * length (matchAll (Cls isLetter) line)
           <? length (matchAll digit line))
  && negb (test CONTACT_PATTERN line).

(** ** [src/lib/ocr.ts]: items *)

(** The first loop of [extractItems], from the line at the front of
    [lines] on, with the items pushed so far.  Consuming the following
    price-only line ([index += 1]) continues two lines further. *)
Fixpoint primaryItems (lines : list str) (items : list str) {struct lines}
  : list str :=
  match lines with
  | [] => items
  | raw :: rest =>
      let line := normalizeOcrLine raw in
      if isNoiseLine line || isPriceOnlyLine line then primaryItems rest items
      else if test AMOUNT_PATTERN line then
        let cleaned := stripTrailingPrice line in
        if (3 <=? length cleaned) && looksLikeItemLine cleaned then
          let items' := items ++ [cleaned] in
          if 6 <=? length items' then items' else primaryItems rest items'
        else primaryItems rest items
      else if negb (looksLikeItemLine line) then primaryItems rest items
      else
        match rest with
        | [] => items
        | following :: rest' =>
            let next :=
              if isEmpty following then [] else normalizeOcrLine following in
            if negb (isEmpty next) && isPriceOnlyLine next then
              let items' := items ++ [line] in
              if 6 <=? length items' then items' else primaryItems rest' items'
            else primaryItems rest items
        end
  end.

(** The second loop of [extractItems]. *)
Fixpoint fallbackItems (lines : list str) (items : list str) : list str :=
  match lines with
  | [] => items
  | line :: rest =>
      if isPriceOnlyLine line || negb (looksLikeItemLine line)
      then fallbackItems rest items
      else
        let items' := items ++ [line] in
        if 4 <=? length items' then items' else fallbackItems rest items'
  end.

Definition extractItems (lines : list str) : list str :=
  let items := primaryItems lines [] in
  if length items =? 0 then fallbackItems lines items else items.

(** ** [src/lib/ocr.ts]: date *)

(** [[.\-/]] *)
Definition dateSep : regex := Cls (oneOf ".-/").

(** [/(\d{1,2})[.\-/](\d{1,2})[.\-/](\d{2,4})/] *)
Definition DATE_DMY : regex :=
  Grp 1 (Between 1 2 digit) ;; dateSep ;;
  Grp 2 (Between 1 2 digit) ;; dateSep ;;
  Grp 3 (Between 2 4 digit).

(** [/(\d{4})[.\-/](\d{1,2})[.\-/](\d{1,2})/] *)
Definition DATE_YMD : regex :=
  Grp 1 (Times 4 digit) ;; dateSep ;;
  Grp 2 (Between 1 2 digit) ;; dateSep ;;
  Grp 3 (Between 1 2 digit).

(** [Number(match[i])] for a group of decimal digits; the groups of the
    date patterns hold at most four, so the number is the exact integer
    and the arithmetic on it below is exact. *)
Definition numberOfDigits (ds : str) : N :=
  Z.to_N (digitsZ 10 digitVal ds).

Definition groupNumber (n : nat) (c : caps) : N :=
  match group n c with
  | Some ds => numberOfDigits ds
  | None => 0
  end.

(** The template literal of [toIsoDate]. *)
Definition isoDate (year month day : N) : str :=
  let safeMonth := padStart2 (decimal month) in
  let safeDay := padStart2 (decimal day) in
  decimal year ++ lit "-" ++ safeMonth ++ lit "-" ++ safeDay.

Definition toIsoDate (year month day : N) : option str :=
  if (year =? 0)%N || (month =? 0)%N || (day =? 0)%N then None
  else Some (isoDate year month day).

(** Year, month and day read off the first pattern that matches the line:
    the body of the inner loop of [findDate] up to its call of
    [toIsoDate]. *)
Definition lineDate (line : str) : option (N * N * N) :=
  match search DATE_DMY line with
  | Some (_, _, c, _) =>
      let day := groupNumber 1 c in
      let month := groupNumber 2 c in
      let year := groupNumber 3 c in
      let year :=
        if (year <? 100)%N
        then (year + (if (70 <=? year)%N then 1900 else 2000))%N
        else year in
      Some (year, month, day)
  | None =>
      match search DATE_YMD line with
      | Some (_, _, c, _) =>
          let year := groupNumber 1 c in
          let month := groupNumber 2 c in
          let day := groupNumber 3 c in
          Some (year, month, day)
      | None => None
      end
  end.

(** Both branches of the loop body end in [return toIsoDate(...)]: the
    first line with a match decides the result. *)
Fixpoint findDate (lines : list str) : option str :=
  match lines with
  | [] => None
  | line :: rest =>
      match lineDate line with
      | Some (year, month, day) => toIsoDate year month day
      | None => findDate rest
      end
  end.

(** ** [src/lib/ocr.ts]: amount *)

Record candidate := { value : number; score : number }.

Definition amountKeywords : list str :=
  map lit ["total"; "summe"; "gesamt"; "betrag"; "totale"; "importo";
           "da pagare"; "zu zahlen"]%string.

Definition hasKeyword (line : str) : bool :=
  existsb (fun keyword => includes (toLowerCase line) keyword) amountKeywords.

Definition hasChf (line : str) : bool :=
  includes (toLowerCase line) (lit "chf")
  || includes (toLowerCase line) (lit "fr").

(** The score of an amount found on a line. *)
Definition lineScore (line : str) (parsed : number) : number :=
  let score := parsed in
  let score := if hasKeyword line then fadd score (ofZ 1000) else score in
  let score := if hasChf line then fadd score (ofZ 500) else score in
  score.

(** The candidates one raw token contributes: the body of the inner loop
    of [findAmount]. *)
Definition tokenCandidates (line raw : str) : list candidate :=
  match parseDecimalInput (VString raw) with
  | None => []
  | Some parsed =>
      if negb (truthy parsed) || leb parsed (ofZ 0) then []
      else [{| value := parsed; score := lineScore line parsed |}]
  end.

Definition lineCandidates (line : str) : list candidate :=
  flat_map (tokenCandidates line) (matchAll amountToken line).

(** [(a, b) => b.score - a.score] *)
Definition byScoreDesc (a b : candidate) : number :=
  fsub (score b) (score a).

(** [Array.prototype.sort] is stable, and for a comparator that orders
    its arguments consistently the result is the one stable arrangement,
    computed here by insertion: an element moves behind a later one only
    when the comparator is positive on the pair.  A comparator result of
    NaN counts as zero. *)
Fixpoint insertBy (A : Type) (cmp : A -> A -> number) (x : A) (l : list A)
  : list A :=
  match l with
  | [] => [x]
  | y :: l' => if ltb (ofZ 0) (cmp x y) then y :: insertBy cmp x l' else x :: l
  end.

Definition sortBy (A : Type) (cmp : A -> A -> number) (l : list A) : list A :=
  fold_right (insertBy cmp) [] l.

Definition findAmount (lines : list str) : option number :=
  let candidates := flat_map lineCandidates lines in
  match sortBy byScoreDesc candidates with
  | [] => None
  | best :: _ => Some (value best)
  end.

(** ** [src/lib/ocr.ts]: tax rate *)

(** [/(mwst|ust|vat|iva)/i] *)
Definition TAX_KEYWORD_PATTERN : regex :=
  Grp 1 (anyOf [WordI "mwst"; WordI "ust"; WordI "vat"; WordI "iva"]).

(** [(\d{1,2}(?:[.,]\d)?)] *)
Definition rateToken : regex :=
  Between 1 2 digit ;; Opt (Cls (oneOf ".,") ;; digit).

(** [/(\d{1,2}(?:[.,]\d)?)\s*%/] *)
Definition PERCENT_PATTERN : regex :=
  Grp 1 rateToken ;; Star (Cls isSpace) ;; Chr "%".

(** [line.match(percentPattern)[1]], when there is a match. *)
Definition percentToken (line : str) : option str :=
  match search PERCENT_PATTERN line with
  | Some (_, _, c, _) => group 1 c
  | None => None
  end.

(** The rate a single line yields: the body of the loop of
    [findMwstRate]. *)
Definition lineRate (line : str) : option number :=
  if negb (test TAX_KEYWORD_PATTERN line) then None
  else
    match percentToken line with
    | None => None
    | Some raw => parseDecimalInput (VString raw)
    end.

Fixpoint findMwstRate (lines : list str) : option number :=
  match lines with
  | [] => None
  | line :: rest =>
      match lineRate line with
      | Some parsed => Some parsed
      | None => findMwstRate rest
      end
  end.

(** ** [src/lib/ocr.ts]: [parseReceiptText] *)

(** The predicate of [lines.find(...)]: a text line that is not noise. *)
Definition describes (line : str) : bool :=
  isTextLine line && negb (isNoiseLine line).


Record OcrSuggestion := {
  date : option str;
  amount : option number;
  mwstRate : option number;
  description : option str;
  note : option str
}.

(** [/\r?\n/] *)
Definition LINE_BREAK : regex := Opt (Chr (chr 13)) ;; Chr (chr 10).

Definition receiptLines (text : str) : list str :=
  filter (fun line => 0 <? length line)
    (map normalizeOcrLine (split LINE_BREAK text)).

Definition suggestionOfLines (lines : list str) : OcrSuggestion :=
  let description := find describes lines in
  let items := extractItems lines in
  let note :=
    if 0 <? length items then Some (join (lit ", ") items) else None in
  let date := findDate lines in
  let amount := findAmount lines in
  let mwstRate := findMwstRate lines in
  {| date := date;
     amount := amount;
     mwstRate := mwstRate;
     description :=
       match description with
       | Some d => Some d
       | None => hd_error items
       end;
     note := note |}.

Definition parseReceiptText (text : str) : OcrSuggestion :=
  suggestionOfLines (receiptLines text).

(** ** [src/lib/ocr.ts]: engine selection *)

Inductive OcrMode := ModeAuto | ModeOffline | ModeOnline.

Inductive OcrMethod := MethodOffline | MethodOnline.

Inductive Language := LangDe | LangIt.

Record OcrSource := { dataBase64 : str; contentType : str }.

Record OcrRunOptions := {
  mode : OcrMode;
  apiKey : option str;
  uiLanguage : option Language
}.

Record OcrResult := { text : str; method : OcrMethod }.

(** What the recognition service answers to one request. *)
Inductive Response :=
| Unreachable (reason : str)            (* [fetch] rejects *)
| Status (ok : bool) (isErrored : bool) (errorMessage : str)
         (parsedText : option str).

(** The collaborators of the dispatcher: the host's connectivity flag, the
    recognition service, and the local engine with its rasterizer. *)
Record World := {
  onLine : bool;
  service : str -> str -> OcrSource -> Response;
  engine : OcrSource -> str + str
}.

Inductive Event :=
| RemotePath                 (* [runOnlineOcr] entered *)
| RemoteRequest              (* the request is sent *)
| LocalPath.                 (* [runOfflineOcr] entered *)

(** A computation that logs events and either throws a message or
    returns. *)
Definition Task (A : Type) : Type := list Event -> (str + A) * list Event.

Definition ret {A : Type} (a : A) : Task A := fun log => (inr a, log).

Definition throw {A : Type} (e : str) : Task A := fun log => (inl e, log).

Definition emit (ev : Event) : Task unit := fun log => (inr tt, log ++ [ev]).

Definition bind {A B : Type} (m : Task A) (f : A -> Task B) : Task B :=
  fun log =>
    match m log with
    | (inl e, log') => (inl e, log')
    | (inr a, log') => f a log'
    end.

Definition tryCatch {A : Type} (m : Task A) (handler : str -> Task A)
  : Task A :=
  fun log =>
    match m log with
    | (inl e, log') => handler e log'
    | (inr a, log') => (inr a, log')
    end.

Declare Scope task_scope.
Delimit Scope task_scope with task.
Notation "'let*' x ':=' m 'in' k" := (bind m (fun x => k))
  (at level 10, x name, m at level 100, k at level 200) : task_scope.
Notation "m >> k" := (bind m (fun _ => k))
  (at level 100, right associativity) : task_scope.

Local Open Scope task_scope.

Definition runOfflineOcr (w : World) (source : OcrSource)
  (options : OcrRunOptions) : Task str :=
  emit LocalPath >>
  match engine w source with
  | inl e => throw e
  | inr recognized => ret recognized
  end.

Definition runOnlineOcr (w : World) (source : OcrSource)
  (options : OcrRunOptions) : Task str :=
  emit RemotePath >>
  let key := match apiKey options with Some k => trim k | None => [] end in
  if isEmpty key then throw (lit "Kein API-Schluessel fuer Online-OCR")
  else
    let language :=
      match uiLanguage options with
      | Some LangIt => lit "ita"
      | _ => lit "ger"
      end in
    emit RemoteRequest >>
    match service w key language source with
    | Unreachable reason => throw reason
    | Status ok isErrored errorMessage parsedText =>
        if negb ok then throw (lit "Online-OCR fehlgeschlagen")
        else if isErrored then
          throw (if isEmpty errorMessage then lit "Online-OCR Fehler"
                 else errorMessage)
        else ret (match parsedText with Some t => t | None => [] end)
    end.

(** [!!options.apiKey] *)
Definition hasApiKey (options : OcrRunOptions) : bool :=
  match apiKey options with
  | Some k => negb (isEmpty k)
  | None => false
  end.

Definition wantsOnline (w : World) (options : OcrRunOptions) : bool :=
  match mode options with
  | ModeOnline => true
  | ModeAuto => hasApiKey options && onLine w
  | ModeOffline => false
  end.

Definition offlineResult (w : World) (source : OcrSource)
  (options : OcrRunOptions) : Task OcrResult :=
  let* recognized := runOfflineOcr w source options in
  ret {| text := recognized; method := MethodOffline |}.

Definition runReceiptOcr (w : World) (source : OcrSource)
  (options : OcrRunOptions) : Task OcrResult :=
  if wantsOnline w options then
    tryCatch
      (let* recognized := runOnlineOcr w source options in
       ret {| text := recognized; method := MethodOnline |})
      (fun error =>
         match mode options with
         | ModeOnline => throw error
         | _ => offlineResult w source options
         end)
  else offlineResult w source options.

Local Close Scope task_scope.

(** ** [src/pages/ExpensePage.tsx]: category suggestion *)

Module ExpensePage.

Record Category := {
  id : Z;
  name : str;
  description : option str;
  default_mwst_rate : number;
  is_active : bool
}.

Definition normalizeText (value : str) : str :=
  replaceAll (Chr (chr 223)) (lit "ss")
    (replaceAll (Chr (chr 252)) (lit "ue")
       (replaceAll (Chr (chr 246)) (lit "oe")
          (replaceAll (Chr (chr 228)) (lit "ae") (toLowerCase value)))).

(** [/[^a-z0-9]+/] *)
Definition NON_WORD : regex :=
  Plus (Cls (fun a => negb (inRange 97 122 a || isDigit a))).

Definition tokenise (value : str) : list str :=
  filter (fun word => 2 <? length word) (split NON_WORD (normalizeText value)).

Record Hint := { matchTerms : list str; keywordTerms : list str }.

Definition hint (m k : list string) : Hint :=
  {| matchTerms := map lit m; keywordTerms := map lit k |}.

Definition categoryHints : list Hint :=
  [ hint ["lebensmittel"; "zutaten"; "einkauf"; "food"; "aliment"]
         ["migros"; "coop"; "lidl"; "aldi"; "market"; "cash"];
    hint ["verpack"; "pack"; "box"; "becher"]
         ["box"; "becher"; "deckel"; "folie"; "take"; "away"; "verpack"];
    hint ["fahr"; "treib"; "tank"; "fuel"; "benz"; "diesel"]
         ["shell"; "bp"; "avia"; "agip"; "eni"; "esso"; "tank"];
    hint ["reinigung"; "clean"; "deterg"]
         ["reinigung"; "putz"; "deterg"; "clean"; "soap"];
    hint ["marketing"; "werbung"; "promo"]
         ["werbung"; "promo"; "promotion"; "facebook"; "instagram"; "ads";
          "flyer"];
    hint ["standplatz"; "miete"; "gebuehr"; "gebuehren"]
         ["miete"; "rent"; "gebuehr"; "stand"; "platz"];
    hint ["versicherung"; "insurance"; "assicur"]
         ["versicherung"; "insurance"; "assicur"];
    hint ["reparatur"; "wartung"; "service"]
         ["reparatur"; "wartung"; "service"; "officina"] ]%string.

(** [Math.min(4, 1 + keyword.length / 5)] *)
Definition keywordWeight (keyword : str) : number :=
  fmin (ofZ 4) (fadd (ofZ 1) (fdiv (ofZ (Z.of_nat (length keyword))) (ofZ 5))).

(** The score of one category: the body of the loop of
    [suggestCategoryId] between the activity test and the comparison
    with [best]. *)
Definition categoryScore (haystack : str) (category : Category) : number :=
  let name := normalizeText (name category) in
  let description :=
    normalizeText
      (match description category with Some d => d | None => [] end) in
  let keywords := tokenise (name ++ lit " " ++ description) in
  let score := ofZ 0 in
  let score :=
    fold_left
      (fun score keyword =>
         if includes haystack keyword then fadd score (keywordWeight keyword)
         else score)
      keywords score in
  fold_left
    (fun score h =>
       if negb (existsb (fun m => includes name m) (matchTerms h)) then score
       else if existsb (fun keyword => includes haystack keyword)
                 (keywordTerms h)
            then fadd score (ofZ 3)
            else score)
    categoryHints score.

(** The loop state: [best], and the identifiers of the categories
    scored so far. *)
Definition LoopState : Type := option (Z * number) * list Z.

Definition visit (haystack : str) (st : LoopState) (category : Category)
  : LoopState :=
  if negb (is_active category) then st
  else
    let score := categoryScore haystack category in
    let best :=
      match fst st with
      | None => Some (id category, score)
      | Some (bestId, bestScore) =>
          if ltb bestScore score then Some (id category, score)
          else Some (bestId, bestScore)
      end in
    (best, snd st ++ [id category]).

(** [suggestCategoryId] together with the categories it scored. *)
Definition suggestCategoryIdTraced (text : str) (categories : list Category)
  : option Z * list Z :=
  if isEmpty text || (length categories =? 0) then (None, [])
  else
    let haystack := normalizeText text in
    let (best, scored) := fold_left (visit haystack) categories (None, []) in
    (match best with
     | Some (bestId, bestScore) =>
         if leb (ofZ 2) bestScore then Some bestId else None
     | None => None
     end, scored).

Definition suggestCategoryId (text : str) (categories : list Category)
  : option Z :=
  fst (suggestCategoryIdTraced text categories).

End ExpensePage.

(** No element of [l] scores strictly higher than [a]. *)
Definition unbeaten (A : Type) (sc : A -> number) (l : list A) (a : A) : bool :=
  forallb (fun other => negb (ltb (sc a) (sc other))) l.

(** ** The scoring rule in the words of the specification *)

Module CategorySpec.

Import ExpensePage.

(** The words of a category: its normalized name and description,
    tokenized, words of more than two characters only (that filter is
    part of [tokenise]). *)
Definition words (category : Category) : list str :=
  tokenise
    (normalizeText (name category) ++ lit " "
     ++ normalizeText
          (match description category with Some d => d | None => [] end)).

(** One entry [min(4, 1 + wordLength/5)] for each word found in the
    text. *)
Definition wordPoints (haystack : str) (category : Category) : list number :=
  map (fun word =>
         fmin (ofZ 4)
           (fadd (ofZ 1) (fdiv (ofZ (Z.of_nat (length word))) (ofZ 5))))
    (filter (fun word => includes haystack word) (words category)).

(** A hint applies when one of its match terms occurs in the normalized
    name and one of its keyword terms occurs in the text. *)
Definition hintApplies (haystack : str) (category : Category) (h : Hint)
  : bool :=
  existsb (fun m => includes (normalizeText (name category)) m) (matchTerms h)
  && existsb (fun keyword => includes haystack keyword) (keywordTerms h).

Definition hintPoints (haystack : str) (category : Category) : list number :=
  map (fun _ => ofZ 3) (filter (hintApplies haystack category) categoryHints).

(** The accumulated score: the points added up in order. *)
Definition score (text : str) (category : Category) : number :=
  let haystack := normalizeText text in
  fold_left fadd (wordPoints haystack category ++ hintPoints haystack category)
    (ofZ 0).



End CategorySpec.

(** ** Predicates used in the statements *)

(** The two primary rules, for an item and the line list it came from. *)
Definition fromPricedLine (lines : list str) (item : str) : Prop :=
  exists raw,
    In raw lines
    /\ isNoiseLine (normalizeOcrLine raw) = false
    /\ isPriceOnlyLine (normalizeOcrLine raw) = false
    /\ test AMOUNT_PATTERN (normalizeOcrLine raw) = true
    /\ item = stripTrailingPrice (normalizeOcrLine raw)
    /\ 3 <= length item
    /\ looksLikeItemLine item = true.

Definition fromLineBeforePrice (lines : list str) (item : str) : Prop :=
  exists pre raw following post,
    lines = pre ++ raw :: following :: post
    /\ item = normalizeOcrLine raw
    /\ test AMOUNT_PATTERN item = false
    /\ looksLikeItemLine item = true
    /\ isPriceOnlyLine (normalizeOcrLine following) = true.

(** A line the fallback loop of [extractItems] keeps. *)
Definition fallbackLine (line : str) : bool :=
  negb (isPriceOnlyLine line) && looksLikeItemLine line.



(** A number that is zero, positive or positive infinity. *)
Definition nonneg (x : number) : Prop :=
  match x with
  | PInf => True
  | Fin k => (0 <= k)%Z
  | _ => False
  end.


(** The running maximum of the loop of [suggestCategoryId]: [b] is
    replaced by a later element only when that one scores strictly
    higher. *)
Fixpoint pick (A : Type) (sc : A -> number) (b : A) (l : list A) : A :=
  match l with
  | [] => b
  | c :: l' => if ltb (sc b) (sc c) then pick sc c l' else pick sc b l'
  end.


(** What a successful run of the matcher has consumed: [Matches r m cs]
    says that [r] can match the text [m], recording the captures [cs]
    (most recent first).  A quantifier is unfolded one iteration at a
    time, its upper bound counting down. *)
Inductive Matches : regex -> str -> caps -> Prop :=
| MatchesEps : Matches Eps [] []
| MatchesCls (p : ascii -> bool) (a : ascii) :
    p a = true -> Matches (Cls p) [a] []
| MatchesCat (r1 r2 : regex) (m1 m2 : str) (c1 c2 : caps) :
    Matches r1 m1 c1 -> Matches r2 m2 c2 ->
    Matches (Cat r1 r2) (m1 ++ m2) (c2 ++ c1)
| MatchesAltL (r1 r2 : regex) (m : str) (c : caps) :
    Matches r1 m c -> Matches (Alt r1 r2) m c
| MatchesAltR (r1 r2 : regex) (m : str) (c : caps) :
    Matches r2 m c -> Matches (Alt r1 r2) m c
| MatchesGrp (n : nat) (r : regex) (m : str) (c : caps) :
    Matches r m c -> Matches (Grp n r) m ((n, m) :: c)
| MatchesBol : Matches Bol [] []
| MatchesEol : Matches Eol [] []
| MatchesRepDone (hi : option nat) (r : regex) :
    Matches (Rep 0 hi r) [] []
| MatchesRepMore (hi : option nat) (r : regex) (m1 m2 : str) (c1 c2 : caps) :
    hi <> Some 0 ->
    Matches r m1 c1 -> Matches (Rep 0 (option_map pred hi) r) m2 c2 ->
    Matches (Rep 0 hi r) (m1 ++ m2) (c2 ++ c1)
| MatchesRepMust (lo : nat) (hi : option nat) (r : regex) (m1 m2 : str)
    (c1 c2 : caps) :
    Matches r m1 c1 -> Matches (Rep lo (option_map pred hi) r) m2 c2 ->
    Matches (Rep (S lo) hi r) (m1 ++ m2) (c2 ++ c1).


(** An expression without capturing groups. *)
Fixpoint groupFree (r : regex) : bool :=
  match r with
  | Cat r1 r2 | Alt r1 r2 => groupFree r1 && groupFree r2
  | Rep _ _ r' => groupFree r'
  | Grp _ _ => false
  | _ => true
  end.

(** The tax-rate invariant on the outcome of parsing a raw token. *)
Definition rateInRange (raw : str) : bool :=
  match parseDecimalInput (VString raw) with
  | Some r => leb (ofZ 0) r && ltb r (ofZ 100)
  | None => false
  end.

Definition digitChars : list ascii := lit "0123456789".

Definition markChars : list ascii := lit ".,".


(** What the raw token of a tax rate is as a literal: a decimal literal
    of at most two digits, or of at most three with one of them after
    the decimal point. *)
Definition rateSyntax (raw : str) : bool :=
  match normalizeDecimal raw with
  | Some normalized =>
      match numericLiteral (trim normalized) with
      | Some (LitDecimal false n e) =>
          (0 <=? n)%Z
          && (((e =? -1)%Z && (n <=? 999)%Z) || ((e =? 0)%Z && (n <=? 99)%Z))
      | _ => false
      end
  | None => false
  end.


(** What a successful [run] promises: the text consumed matches the
    expression, and the continuation succeeded on what is left. *)
Definition sound (total : nat) (r : regex) : Prop :=
  forall s c k res,
    run total r s c k = Some res ->
    exists m cs rest,
      s = m ++ rest /\ Matches r m cs /\ k rest (cs ++ c) = Some res.


(** ** The locale parser in the words of the specification *)

(** ["," becomes "."] *)
Definition commaToDot (a : ascii) : ascii :=
  if isChar "," a then "."%char else a.

Definition countChar (c : ascii) (s : str) : nat :=
  length (filter (isChar c) s).

(** The reference algorithm: numbers pass when finite; a string is
    trimmed (no value when empty), white space and apostrophes are
    struck out, then with both a comma and a point present every point
    is struck out, and in either case every comma becomes a point; the
    result is converted as [Number] does and kept when finite.  With
    [guard] set, a string left empty by the striking out gives no value
    either. *)
Definition parseDecimalReference (guard : bool) (value : jsval)
  : option number :=
  match value with
  | VNumber n => finiteOrNone n
  | VString s =>
      let trimmed := trim s in
      if isEmpty trimmed then None
      else
        let stripped :=
          filter (fun a => negb (isSpace a || isChar "'" a)) trimmed in
        let pointed :=
          if existsb (isChar ",") stripped && existsb (isChar ".") stripped
          then map commaToDot (filter (fun a => negb (isChar "." a)) stripped)
          else map commaToDot stripped in
        if guard && isEmpty pointed then None
        else finiteOrNone (toNumber pointed)
  | _ => None
  end.


(** A text with no comma and at most [n] points. *)
Definition pointsAtMost (n : nat) (s : str) : Prop :=
  existsb (isChar ",") s = false /\ countChar "." s <= n.


(** ** Sample inputs *)

(** A host that is on line, a service that answers with an HTTP error,
    and a local engine that recognizes one word. *)
Definition sampleWorld : World :=
  {| onLine := true;
     service := fun _ _ _ => Status false false [] None;
     engine := fun _ => inr (lit "MIGROS") |}.

Definition sampleSource : OcrSource :=
  {| dataBase64 := lit "AAAA"; contentType := lit "image/png" |}.

Definition sampleOptions : OcrRunOptions :=
  {| mode := ModeAuto; apiKey := Some (lit "K1"); uiLanguage := None |}.

Definition sampleCategories : list ExpensePage.Category :=
  [ {| ExpensePage.id := 1; ExpensePage.name := lit "Lebensmittel";
       ExpensePage.description := None;
       ExpensePage.default_mwst_rate := ofDecimal 26 (-1);
       ExpensePage.is_active := false |};
    {| ExpensePage.id := 2; ExpensePage.name := lit "Fahrzeug";
       ExpensePage.description := Some (lit "Benzin und Diesel");
       ExpensePage.default_mwst_rate := ofDecimal 81 (-1);
       ExpensePage.is_active := false |} ].


(** ** Reference functions for the statements on runs *)

(** Every maximal run of class characters replaced by [rep]; [inRun]
    tells that the character before belonged to a run. *)
Fixpoint squeeze (p : ascii -> bool) (rep : str) (inRun : bool) (s : str)
  : str :=
  match s with
  | [] => []
  | a :: s' =>
      if p a then
        if inRun then squeeze p rep true s' else rep ++ squeeze p rep true s'
      else a :: squeeze p rep false s'
  end.

(** No two neighbours of [s] are both in the class. *)
Fixpoint sparse (p : ascii -> bool) (s : str) : bool :=
  match s with
  | [] => true
  | a :: s' =>
      match s' with
      | b :: _ => negb (p a && p b)
      | [] => true
      end && sparse p s'
  end.

(** ** Expressions whose matches do not depend on the position *)

(** An expression that never matches the empty text. *)
Fixpoint consuming (r : regex) : bool :=
  match r with
  | Cls _ => true
  | Cat r1 r2 => consuming r1 || consuming r2
  | Alt r1 r2 => consuming r1 && consuming r2
  | Rep lo _ r' => (0 <? lo) && consuming r'
  | Grp _ r' => consuming r'
  | _ => false
  end.

(** An expression without [^] and [$] whose quantified parts never match
    the empty text. *)
Fixpoint anchorFree (r : regex) : bool :=
  match r with
  | Eps | Cls _ => true
  | Cat r1 r2 | Alt r1 r2 => anchorFree r1 && anchorFree r2
  | Rep _ _ r' => anchorFree r' && consuming r'
  | Grp _ r' => anchorFree r'
  | Bol | Eol => false
  end.

(** An expression whose last part is [$]. *)
Fixpoint endsAtEol (r : regex) : bool :=
  match r with
  | Eol => true
  | Cat _ r2 => endsAtEol r2
  | _ => false
  end.

(** The characters of the alphabet. *)
Definition allChars : list ascii := map ascii_of_nat (seq 0 256).

(** What is asked of [run] on an expression: whenever the expression can
    match a front part of the text and the continuation accepts what is
    left, some match is found. *)
Definition complete (total : nat) (r : regex) : Prop :=
  forall m cs, Matches r m cs ->
  forall rest c (k : cont),
    (forall c', k rest c' <> None) ->
    run total r (m ++ rest) c k <> None.


(** [options.apiKey?.trim()], with [[]] for [undefined]: the key
    [runOnlineOcr] sends. *)
Definition usableKey (options : OcrRunOptions) : str :=
  match apiKey options with Some k => trim k | None => [] end.

(** A service that answers with a parsed text, and options whose key is
    white space only. *)
Definition answeringWorld : World :=
  {| onLine := true;
     service := fun _ _ _ => Status true false [] (Some (lit "TOTAL 5.00"));
     engine := fun _ => inr (lit "MIGROS") |}.

Definition blankKeyOptions : OcrRunOptions :=
  {| mode := ModeAuto; apiKey := Some (lit "  "); uiLanguage := None |}.


(** ** [src/pages/ExpensePage.tsx]: the draft and its application *)

Module Draft.

(** [OcrDraft] *)
Record OcrDraft := {
  date : str;
  amount : str;
  mwstRate : str;
  description : str;
  note : str;
  categoryId : Z
}.

End Draft.

Module Form.

(** [FormInput]: the values of the expense form.  [None] stands for
    [undefined], and in [category_id] also for [NaN]; the two fields
    that the schema hands to [parseDecimalInput] hold any value. *)
Record FormInput := {
  date : str;
  category_id : option Z;
  description : option str;
  amount_chf : jsval;
  mwst_rate : jsval;
  note : option str
}.

End Form.

(** [setValue(name, value)] for each field that [applyOcrSuggestion]
    writes. *)
Definition setDate (v : str) (f : Form.FormInput) : Form.FormInput :=
  {| Form.date := v;
     Form.category_id := Form.category_id f;
     Form.description := Form.description f;
     Form.amount_chf := Form.amount_chf f;
     Form.mwst_rate := Form.mwst_rate f;
     Form.note := Form.note f |}.

Definition setAmount (v : str) (f : Form.FormInput) : Form.FormInput :=
  {| Form.date := Form.date f;
     Form.category_id := Form.category_id f;
     Form.description := Form.description f;
     Form.amount_chf := VString v;
     Form.mwst_rate := Form.mwst_rate f;
     Form.note := Form.note f |}.

Definition setDescription (v : str) (f : Form.FormInput) : Form.FormInput :=
  {| Form.date := Form.date f;
     Form.category_id := Form.category_id f;
     Form.description := Some v;
     Form.amount_chf := Form.amount_chf f;
     Form.mwst_rate := Form.mwst_rate f;
     Form.note := Form.note f |}.

Definition setNote (v : str) (f : Form.FormInput) : Form.FormInput :=
  {| Form.date := Form.date f;
     Form.category_id := Form.category_id f;
     Form.description := Form.description f;
     Form.amount_chf := Form.amount_chf f;
     Form.mwst_rate := Form.mwst_rate f;
     Form.note := Some v |}.

Definition setCategory (v : Z) (f : Form.FormInput) : Form.FormInput :=
  {| Form.date := Form.date f;
     Form.category_id := Some v;
     Form.description := Form.description f;
     Form.amount_chf := Form.amount_chf f;
     Form.mwst_rate := Form.mwst_rate f;
     Form.note := Form.note f |}.

Definition setMwstRate (v : str) (f : Form.FormInput) : Form.FormInput :=
  {| Form.date := Form.date f;
     Form.category_id := Form.category_id f;
     Form.description := Form.description f;
     Form.amount_chf := Form.amount_chf f;
     Form.mwst_rate := VString v;
     Form.note := Form.note f |}.

(** The truth value of a string that may be [undefined]. *)
Definition filled (x : option str) : bool :=
  match x with
  | Some (_ :: _) => true
  | _ => false
  end.

(** [x ?? e] for the empty string [e] *)
Definition orEmpty (x : option str) : str :=
  match x with Some s => s | None => [] end.

(** [categories.find((category) => category.id === wanted)], where
    [wanted] may be [null]. *)
Definition findCategory (wanted : option Z)
  (categories : list ExpensePage.Category) : option ExpensePage.Category :=
  match wanted with
  | Some i => find (fun category => (ExpensePage.id category =? i)%Z) categories
  | None => None
  end.

Section ExpenseForm.

(** [String(x)] for a number. *)
Variable numberToString : number -> str.

(** [[result.text, suggestion.description, suggestion.note]
    .filter(Boolean).join(" ")] *)
Definition suggestionText (recognized : str) (suggestion : OcrSuggestion)
  : str :=
  join (lit " ")
    (map orEmpty
       (filter filled
          [Some recognized; description suggestion; note suggestion])).

(** The draft that [startOcr] stores for a recognized text. *)
Definition ocrDraftOf (recognized : str)
  (categories : list ExpensePage.Category) : Draft.OcrDraft :=
  let suggestion := parseReceiptText recognized in
  let suggestedCategoryId :=
    ExpensePage.suggestCategoryId (suggestionText recognized suggestion)
      categories in
  let suggestedCategory := findCategory suggestedCategoryId categories in
  let fallbackMwstRate :=
    match suggestedCategory with
    | Some category => numberToString (ExpensePage.default_mwst_rate category)
    | None => []
    end in
  let mwstRate :=
    match mwstRate suggestion with
    | Some rate => numberToString rate
    | None => fallbackMwstRate
    end in
  {| Draft.date := orEmpty (date suggestion);
     Draft.amount :=
       match amount suggestion with
       | Some a => numberToString a
       | None => []
       end;
     Draft.mwstRate := mwstRate;
     Draft.description := orEmpty (description suggestion);
     Draft.note := orEmpty (note suggestion);
     Draft.categoryId :=
       match suggestedCategoryId with Some i => i | None => 0%Z end |}.

(** [applyOcrSuggestion]: the form after the call, and [ocrOpen].
    [categoryValue] is the watched value of [category_id]. *)
Definition applyOcrSuggestion (ocrDraft : option Draft.OcrDraft)
  (categoryValue : option Z) (categories : list ExpensePage.Category)
  (form : Form.FormInput) : Form.FormInput * bool :=
  match ocrDraft with
  | None => (form, false)
  | Some draft =>
      let form :=
        if negb (isEmpty (Draft.date draft))
        then setDate (Draft.date draft) form else form in
      let form :=
        if negb (isEmpty (Draft.amount draft))
        then setAmount (Draft.amount draft) form else form in
      let form :=
        if negb (isEmpty (Draft.description draft))
           && negb (filled (Form.description form))
        then setDescription (Draft.description draft) form else form in
      let form :=
        if negb (isEmpty (Draft.note draft))
           && negb (filled (Form.note form))
        then setNote (Draft.note draft) form else form in
      let form :=
        if negb (Draft.categoryId draft =? 0)%Z
           && match categoryValue with
              | Some c => (c =? 0)%Z
              | None => true
              end
        then
          let form := setCategory (Draft.categoryId draft) form in
          match findCategory (Some (Draft.categoryId draft)) categories with
          | Some selected =>
              if isEmpty (Draft.mwstRate draft)
              then setMwstRate
                     (numberToString (ExpensePage.default_mwst_rate selected))
                     form
              else form
          | None => form
          end
        else form in
      let form :=
        if negb (isEmpty (Draft.mwstRate draft))
        then setMwstRate (Draft.mwstRate draft) form else form in
      (form, false)
  end.

End ExpenseForm.

(** ** [src/state/appStore.ts]: the stored preferences *)

(** [a === b] on strings. *)
Definition strEqb (a b : str) : bool :=
  if list_eq_dec ascii_dec a b then true else false.

(** [Math.max(x, y)] *)
Definition fmax (x y : number) : number :=
  match x, y with
  | NaN, _ | _, NaN => NaN
  | _, _ => if ltb x y then y else x
  end.

Module AppStore.

Inductive ThemeMode := Light | Dark.

Inductive DensityMode := Standard | Comfort.

(** The host of the store: whether [window] is defined, the entries of
    [window.localStorage], and what
    [matchMedia("(prefers-color-scheme: dark)").matches] answers. *)
Record Host := {
  hasWindow : bool;
  localStorage : list (str * str);
  prefersDark : bool
}.

(** [localStorage.getItem(key)] *)
Definition getItem (key : str) (h : Host) : option str :=
  match find (fun entry => strEqb (fst entry) key) (localStorage h) with
  | Some entry => Some (snd entry)
  | None => None
  end.

(** [localStorage.setItem(key, value)] *)
Definition setItem (key value : str) (h : Host) : Host :=
  {| hasWindow := hasWindow h;
     localStorage :=
       (key, value)
       :: filter (fun entry => negb (strEqb (fst entry) key)) (localStorage h);
     prefersDark := prefersDark h |}.

(** The interface preferences among the fields of the store. *)
Record State := {
  sidebarCollapsed : bool;
  theme : ThemeMode;
  language : Language;
  density : DensityMode;
  uiScale : number;
  ocrMode : OcrMode;
  ocrApiKey : str
}.

(** The state the store is created with. *)
Definition initialState : State :=
  {| sidebarCollapsed := false; theme := Light; language := LangDe;
     density := Standard; uiScale := ofZ 100; ocrMode := ModeAuto;
     ocrApiKey := [] |}.

Definition themeName (t : ThemeMode) : str :=
  match t with Light => lit "light" | Dark => lit "dark" end.

Definition languageName (l : Language) : str :=
  match l with LangDe => lit "de" | LangIt => lit "it" end.

Definition densityName (d : DensityMode) : str :=
  match d with Standard => lit "standard" | Comfort => lit "comfort" end.

Definition ocrModeName (m : OcrMode) : str :=
  match m with
  | ModeAuto => lit "auto"
  | ModeOffline => lit "offline"
  | ModeOnline => lit "online"
  end.

Definition getStoredTheme (h : Host) : ThemeMode :=
  if negb (hasWindow h) then Light
  else
    match getItem (lit "pd_theme") h with
    | Some stored =>
        if strEqb stored (lit "dark") then Dark
        else if strEqb stored (lit "light") then Light
        else if prefersDark h then Dark else Light
    | None => if prefersDark h then Dark else Light
    end.

Definition getStoredSidebar (h : Host) : bool :=
  if negb (hasWindow h) then false
  else
    match getItem (lit "pd_sidebar_collapsed") h with
    | Some stored => strEqb stored (lit "1")
    | None => false
    end.

Definition getStoredLanguage (h : Host) : Language :=
  if negb (hasWindow h) then LangDe
  else
    match getItem (lit "pd_language") h with
    | Some stored =>
        if strEqb stored (lit "de") then LangDe
        else if strEqb stored (lit "it") then LangIt
        else LangDe
    | None => LangDe
    end.

Definition getStoredDensity (h : Host) : DensityMode :=
  if negb (hasWindow h) then Standard
  else
    match getItem (lit "pd_density") h with
    | Some stored =>
        if strEqb stored (lit "comfort") then Comfort
        else if strEqb stored (lit "standard") then Standard
        else Standard
    | None => Standard
    end.

(** [Number(null)] is 0. *)
Definition getStoredUiScale (h : Host) : number :=
  if negb (hasWindow h) then ofZ 100
  else
    let stored :=
      match getItem (lit "pd_ui_scale") h with
      | Some text => toNumber text
      | None => ofZ 0
      end in
    if isFinite stored && leb (ofZ 80) stored && leb stored (ofZ 140)
    then stored else ofZ 100.

Definition getStoredOcrMode (h : Host) : OcrMode :=
  if negb (hasWindow h) then ModeAuto
  else
    match getItem (lit "pd_ocr_mode") h with
    | Some stored =>
        if strEqb stored (lit "auto") then ModeAuto
        else if strEqb stored (lit "offline") then ModeOffline
        else if strEqb stored (lit "online") then ModeOnline
        else ModeAuto
    | None => ModeAuto
    end.

Definition getStoredOcrKey (h : Host) : str :=
  if negb (hasWindow h) then []
  else
    match getItem (lit "pd_ocr_key") h with
    | Some stored => stored
    | None => []
    end.

(** The store: the host it writes to and its state. *)
Definition Store : Type := Host * State.

(** [if (typeof window !== "undefined") localStorage.setItem(key, value)] *)
Definition persist (key value : str) (h : Host) : Host :=
  if hasWindow h then setItem key value h else h.

Definition setSidebarCollapsed (collapsed : bool) (st : Store) : Store :=
  let (h, s) := st in
  (persist (lit "pd_sidebar_collapsed")
     (if collapsed then lit "1" else lit "0") h,
   {| sidebarCollapsed := collapsed; theme := theme s;
      language := language s; density := density s; uiScale := uiScale s;
      ocrMode := ocrMode s; ocrApiKey := ocrApiKey s |}).

Definition toggleSidebar (st : Store) : Store :=
  let next := negb (sidebarCollapsed (snd st)) in
  let (h, s) := st in
  (persist (lit "pd_sidebar_collapsed") (if next then lit "1" else lit "0") h,
   {| sidebarCollapsed := next; theme := theme s;
      language := language s; density := density s; uiScale := uiScale s;
      ocrMode := ocrMode s; ocrApiKey := ocrApiKey s |}).

Definition setTheme (t : ThemeMode) (st : Store) : Store :=
  let (h, s) := st in
  (persist (lit "pd_theme") (themeName t) h,
   {| sidebarCollapsed := sidebarCollapsed s; theme := t;
      language := language s; density := density s; uiScale := uiScale s;
      ocrMode := ocrMode s; ocrApiKey := ocrApiKey s |}).

Definition toggleTheme (st : Store) : Store :=
  let next :=
    match theme (snd st) with Dark => Light | Light => Dark end in
  let (h, s) := st in
  (persist (lit "pd_theme") (themeName next) h,
   {| sidebarCollapsed := sidebarCollapsed s; theme := next;
      language := language s; density := density s; uiScale := uiScale s;
      ocrMode := ocrMode s; ocrApiKey := ocrApiKey s |}).

Definition setLanguage (l : Language) (st : Store) : Store :=
  let (h, s) := st in
  (persist (lit "pd_language") (languageName l) h,
   {| sidebarCollapsed := sidebarCollapsed s; theme := theme s;
      language := l; density := density s; uiScale := uiScale s;
      ocrMode := ocrMode s; ocrApiKey := ocrApiKey s |}).

Definition setDensity (d : DensityMode) (st : Store) : Store :=
  let (h, s) := st in
  (persist (lit "pd_density") (densityName d) h,
   {| sidebarCollapsed := sidebarCollapsed s; theme := theme s;
      language := language s; density := d; uiScale := uiScale s;
      ocrMode := ocrMode s; ocrApiKey := ocrApiKey s |}).

(** [Number.isFinite(scale) ? Math.min(140, Math.max(80, scale)) : 100] *)
Definition clampScale (scale : number) : number :=
  if isFinite scale then fmin (ofZ 140) (fmax (ofZ 80) scale) else ofZ 100.

Definition setOcrMode (m : OcrMode) (st : Store) : Store :=
  let (h, s) := st in
  (persist (lit "pd_ocr_mode") (ocrModeName m) h,
   {| sidebarCollapsed := sidebarCollapsed s; theme := theme s;
      language := language s; density := density s; uiScale := uiScale s;
      ocrMode := m; ocrApiKey := ocrApiKey s |}).

Definition setOcrApiKey (key : str) (st : Store) : Store :=
  let (h, s) := st in
  (persist (lit "pd_ocr_key") key h,
   {| sidebarCollapsed := sidebarCollapsed s; theme := theme s;
      language := language s; density := density s; uiScale := uiScale s;
      ocrMode := ocrMode s; ocrApiKey := key |}).

(** [hydrate], for the preferences it reads back from the host; the
    fields [settings] and [year], which it takes from the backend, are
    not part of [State]. *)
Definition hydrate (st : Store) : Store :=
  let (h, s) := st in
  (h,
   {| sidebarCollapsed := getStoredSidebar h; theme := getStoredTheme h;
      language := getStoredLanguage h; density := getStoredDensity h;
      uiScale := getStoredUiScale h; ocrMode := getStoredOcrMode h;
      ocrApiKey := getStoredOcrKey h |}).

Section Scale.

(** [String(x)] for a number. *)
Variable numberToString : number -> str.

Definition setUiScale (scale : number) (st : Store) : Store :=
  let next := clampScale scale in
  let (h, s) := st in
  (persist (lit "pd_ui_scale") (numberToString next) h,
   {| sidebarCollapsed := sidebarCollapsed s; theme := theme s;
      language := language s; density := density s; uiScale := next;
      ocrMode := ocrMode s; ocrApiKey := ocrApiKey s |}).

End Scale.

End AppStore.

(** The options [startOcr] passes to [runReceiptOcr]: mode and key of the
    store, and the language of the interface. *)
Definition startOcrOptions (s : AppStore.State) (lang : Language)
  : OcrRunOptions :=
  {| mode := AppStore.ocrMode s;
     apiKey := Some (AppStore.ocrApiKey s);
     uiLanguage := Some lang |}.

(** ** Further sample inputs *)

(** A host whose storage holds the theme only, a category list with an
    active category, and a conversion of numbers that always answers
    ["8.1"]. *)
Definition sampleHost : AppStore.Host :=
  {| AppStore.hasWindow := true;
     AppStore.localStorage := [(lit "pd_theme", lit "dark")];
     AppStore.prefersDark := false |}.

Definition activeCategories : list ExpensePage.Category :=
  [ {| ExpensePage.id := 2; ExpensePage.name := lit "Fahrzeug";
       ExpensePage.description := Some (lit "Benzin und Diesel");
       ExpensePage.default_mwst_rate := ofDecimal 81 (-1);
       ExpensePage.is_active := true |} ].

Definition sampleNumberToString (x : number) : str := lit "8.1".


(** * Properties *)

(** ** Engine selection *)

Lemma offlineResult_run (w : World) (source : OcrSource)
  (options : OcrRunOptions) (log : list Event) :
  offlineResult w source options log =
  (match engine w source with
   | inl e => inl e
   | inr recognized => inr {| text := recognized; method := MethodOffline |}
   end, log ++ [LocalPath]).
Proof.
  unfold offlineResult, runOfflineOcr, bind, emit, throw, ret.
  destruct (engine w source); reflexivity.
Qed.

Lemma runOnlineOcr_log (w : World) (source : OcrSource)
  (options : OcrRunOptions) (log : list Event) :
  snd (runOnlineOcr w source options log) = log ++ [RemotePath]
  \/ snd (runOnlineOcr w source options log)
     = (log ++ [RemotePath]) ++ [RemoteRequest].
Proof.
  unfold runOnlineOcr, bind, emit, throw, ret; simpl.
  destruct (isEmpty _); simpl; [now left | right].
  destruct (service w _ _ source) as [reason | ok isErrored msg parsed];
    simpl; [reflexivity |].
  destruct ok, isErrored; reflexivity.
Qed.

Lemma wantsOnline_spec (w : World) (options : OcrRunOptions) :
  wantsOnline w options = true <->
  mode options = ModeOnline
  \/ (mode options = ModeAuto /\ hasApiKey options = true /\ onLine w = true).
Proof.
  unfold wantsOnline.
  destruct (mode options); rewrite ?andb_true_iff; intuition congruence.
Qed.

(** C3.  The remote path is entered exactly when the mode is [online], or
    the mode is [auto], a key is configured and the host is on line;
    otherwise the call is the local path alone.  When the remote path
    throws, [auto] runs the local path and returns its outcome, while
    [online] rethrows the remote error without entering the local path. *)
Theorem runReceiptOcr_dispatch (w : World) (source : OcrSource)
  (options : OcrRunOptions) :
  (In RemotePath (snd (runReceiptOcr w source options [])) <->
   mode options = ModeOnline
   \/ (mode options = ModeAuto /\ hasApiKey options = true
       /\ onLine w = true))
  /\ (wantsOnline w options = false ->
      runReceiptOcr w source options [] = offlineResult w source options []
      /\ snd (runReceiptOcr w source options []) = [LocalPath])
  /\ (forall e log,
        wantsOnline w options = true ->
        runOnlineOcr w source options [] = (inl e, log) ->
        (mode options = ModeAuto ->
         runReceiptOcr w source options []
         = offlineResult w source options log
         /\ fst (runReceiptOcr w source options [])
            = fst (offlineResult w source options []))
        /\ (mode options = ModeOnline ->
            runReceiptOcr w source options [] = (inl e, log)
            /\ ~ In LocalPath (snd (runReceiptOcr w source options [])))).
Proof.
  split; [| split].
  - rewrite <- wantsOnline_spec.
    unfold runReceiptOcr.
    destruct (wantsOnline w options) eqn:Hw.
    + split; [reflexivity | intros _].
      unfold tryCatch, bind at 1.
      pose proof (runOnlineOcr_log w source options []) as Hlog.
      destruct (runOnlineOcr w source options []) as [[e | t] log]; simpl in *.
      * destruct (mode options); unfold throw; simpl;
          rewrite ?offlineResult_run; simpl; rewrite ?in_app_iff;
          destruct Hlog as [-> | ->]; simpl; auto.
      * unfold ret; simpl. destruct Hlog as [-> | ->]; simpl; auto.
    + rewrite offlineResult_run. simpl.
      split; [intros [H | []]; discriminate H | discriminate].
  - intros Hw. unfold runReceiptOcr. rewrite Hw.
    split; [reflexivity | now rewrite offlineResult_run].
  - intros e log Hw Hremote.
    assert (Hrun : runReceiptOcr w source options [] =
                   match mode options with
                   | ModeOnline => (inl e, log)
                   | _ => offlineResult w source options log
                   end).
    { unfold runReceiptOcr. rewrite Hw. unfold tryCatch, bind at 1.
      rewrite Hremote. destruct (mode options); reflexivity. }
    rewrite Hrun.
    split; intros Hmode; rewrite Hmode.
    + split; [reflexivity | rewrite !offlineResult_run; reflexivity].
    + split; [reflexivity |].
      pose proof (runOnlineOcr_log w source options []) as Hlog.
      rewrite Hremote in Hlog. simpl in Hlog.
      destruct Hlog as [-> | ->]; simpl; intuition discriminate.
Qed.

(** ** Date *)

Lemma toIsoDate_nonzero (year month day : N) :
  year <> 0%N -> month <> 0%N -> day <> 0%N ->
  toIsoDate year month day = Some (isoDate year month day).
Proof.
  intros Hy Hm Hd. unfold toIsoDate.
  apply N.eqb_neq in Hy, Hm, Hd. rewrite Hy, Hm, Hd. reflexivity.
Qed.

Lemma findDate_skips (pre rest : list str) :
  Forall (fun l => lineDate l = None) pre ->
  findDate (pre ++ rest) = findDate rest.
Proof.
  induction 1 as [| l pre Hl _ IH]; simpl; [reflexivity |].
  now rewrite Hl.
Qed.

(** The extractor does not move on after an impossible date: the line
    ["32.13.99"] yields the string ["1999-13-32"] although the next line
    holds a valid date. *)
Lemma findDate_keeps_impossible_date :
  lineDate (lit "32.13.99") = Some (1999, 13, 32)%N
  /\ findDate [lit "32.13.99"; lit "Rechnung vom 05.03.24"]
     = Some (lit "1999-13-32")
  /\ findDate [lit "Rechnung vom 05.03.24"] = Some (lit "2024-03-05").
Proof. vm_compute. repeat split. Qed.

(** A zero component ends the extraction as well: [toIsoDate] returns
    [null] and [findDate] returns it. *)
Example findDate_zero_component :
  findDate [lit "00.01.2024"; lit "Rechnung vom 05.03.24"] = None.
Proof. reflexivity. Qed.

(** C1 (amended).  The date comes from the first line that has a
    date-pattern match, and from that line alone: when its day, month and
    year are all non-zero the result is the string formatted from them,
    with no calendar check and whatever the later lines hold; the date is
    absent when no line has a match. *)
Theorem findDate_first_match (lines : list str) :
  (forall pre line post year month day,
     lines = pre ++ line :: post ->
     Forall (fun l => lineDate l = None) pre ->
     lineDate line = Some (year, month, day) ->
     year <> 0%N -> month <> 0%N -> day <> 0%N ->
     findDate lines = Some (isoDate year month day))
  /\ (Forall (fun l => lineDate l = None) lines -> findDate lines = None).
Proof.
  split.
  - intros pre line post year month day -> Hpre Hline Hy Hm Hd.
    rewrite findDate_skips by assumption. simpl. rewrite Hline.
    now apply toIsoDate_nonzero.
  - intros Hall. rewrite <- (app_nil_r lines).
    now rewrite findDate_skips.
Qed.

Lemma findDate_first_match_witness :
  findDate [lit "MIGROS"; lit "32.13.99"; lit "05.03.24"]
  = Some (lit "1999-13-32").
Proof.
  apply (proj1 (findDate_first_match _)
           [lit "MIGROS"] (lit "32.13.99") [lit "05.03.24"] 1999%N 13%N 32%N);
    try reflexivity; try discriminate.
  repeat constructor.
Defined.

(** ** Tax rate *)


Lemma lineRate_keyword (line : str) (r : number) :
  lineRate line = Some r ->
  test TAX_KEYWORD_PATTERN line = true
  /\ exists raw, percentToken line = Some raw
                 /\ parseDecimalInput (VString raw) = Some r.
Proof.
  unfold lineRate.
  destruct (test TAX_KEYWORD_PATTERN line); simpl; [| discriminate].
  destruct (percentToken line) as [raw |]; [| discriminate].
  intros H. split; [reflexivity | now exists raw].
Qed.

Lemma findMwstRate_source (lines : list str) (r : number) :
  findMwstRate lines = Some r ->
  exists line, In line lines /\ lineRate line = Some r.
Proof.
  induction lines as [| l lines IH]; simpl; [discriminate |].
  destruct (lineRate l) as [r' |] eqn:Hl.
  - intros [= <-]. exists l. auto.
  - intros H. destruct (IH H) as [line [Hin Hr]]. exists line. auto.
Qed.



(** ** Single-character expressions *)

Lemma searchFrom_class (total : nat) (p : ascii -> bool) (before s : str) :
  match searchFrom total (Cls p) before s with
  | Some _ => true
  | None => false
  end = existsb p s.
Proof.
  revert before. induction s as [| a s IH]; intros before; simpl.
  - reflexivity.
  - unfold matchAt; simpl. destruct (p a); simpl; [reflexivity | apply IH].
Qed.

Lemma test_class (p : ascii -> bool) (s : str) :
  test (Cls p) s = existsb p s.
Proof. unfold test, search. apply searchFrom_class. Qed.

(** A text line holds a letter and more than three characters. *)
Lemma isTextLine_spec (line : str) :
  isTextLine line = true <->
  (exists a, In a line /\ isLetter a = true) /\ 3 < length line.
Proof.
  unfold isTextLine.
  rewrite andb_true_iff, test_class, existsb_exists, Nat.ltb_lt.
  reflexivity.
Qed.

(** ** Description *)

(** A contact line is taken as the description although it is not an item
    candidate and an item candidate follows. *)
Lemma description_contact_line :
  let lines := [lit "Tel 044 123 45 67"; lit "Brot 3.20"] in
  description (suggestionOfLines lines) = Some (lit "Tel 044 123 45 67")
  /\ looksLikeItemLine (lit "Tel 044 123 45 67") = false
  /\ find (fun l => itemCandidateSpec l && negb (isNoiseLine l)) lines
     = Some (lit "Brot 3.20").
Proof. vm_compute. repeat split. Qed.

Lemma find_first (A : Type) (f : A -> bool) (l : list A) (x : A) :
  find f l = Some x <->
  exists pre post,
    l = pre ++ x :: post /\ f x = true /\ Forall (fun y => f y = false) pre.
Proof.
  induction l as [| y l IH]; simpl.
  - split; [discriminate |].
    intros [pre [post [H _]]]. destruct pre; discriminate H.
  - destruct (f y) eqn:Hy.
    + split.
      * intros [= <-]. exists [], l. auto.
      * intros [pre [post [Hl [Hx Hpre]]]].
        destruct pre as [| z pre]; simpl in Hl; injection Hl as -> ->.
        -- reflexivity.
        -- inversion Hpre; congruence.
    + rewrite IH. split.
      * intros [pre [post [-> [Hx Hpre]]]].
        exists (y :: pre), post. auto.
      * intros [pre [post [Hl [Hx Hpre]]]].
        destruct pre as [| z pre]; simpl in Hl; injection Hl as -> ->.
        -- congruence.
        -- inversion Hpre. exists pre, post. auto.
Qed.

(** C8 (amended).  The description is the first line that is a text line
    (a letter somewhere and more than three characters) and is not noise;
    when there is no such line it is the first extracted item, and it is
    absent only when there is neither. *)
Theorem description_first_text_line (lines : list str) :
  (forall d,
     description (suggestionOfLines lines) = Some d <->
     (exists pre post,
        lines = pre ++ d :: post
        /\ ((exists a, In a d /\ isLetter a = true) /\ 3 < length d)
        /\ isNoiseLine d = false
        /\ Forall (fun l => describes l = false) pre)
     \/ (Forall (fun l => describes l = false) lines
         /\ hd_error (extractItems lines) = Some d))
  /\ (description (suggestionOfLines lines) = None <->
      Forall (fun l => describes l = false) lines
      /\ extractItems lines = []).
Proof.
  assert (Hnone : find describes lines = None <->
                  Forall (fun l => describes l = false) lines).
  { rewrite Forall_forall. split.
    - intros H l Hl. apply (find_none _ _ H l Hl).
    - intros H. destruct (find describes lines) as [x |] eqn:Hf; [| easy].
      destruct (find_some _ _ Hf) as [Hin Hx].
      rewrite (H x Hin) in Hx. discriminate. }
  unfold suggestionOfLines; simpl. fold describes.
  split.
  - intros d. destruct (find describes lines) as [x |] eqn:Hf.
    + split.
      * intros [= <-]. left.
        apply find_first in Hf. destruct Hf as [pre [post [Hl [Hx Hpre]]]].
        exists pre, post. unfold describes in Hx.
        apply andb_true_iff in Hx. destruct Hx as [Ht Hn].
        apply isTextLine_spec in Ht. apply negb_true_iff in Hn. auto.
      * intros [[pre [post [Hl [Ht [Hn Hpre]]]]] | [Hall _]].
        -- assert (Hd : find describes lines = Some d).
           { apply find_first. exists pre, post.
             unfold describes. rewrite Hn.
             apply isTextLine_spec in Ht. rewrite Ht. auto. }
           congruence.
        -- apply Hnone in Hall. congruence.
    + split.
      * intros H. right. split; [now apply Hnone | exact H].
      * intros [[pre [post [Hl [Ht [Hn Hpre]]]]] | [_ H]]; [| exact H].
        assert (Hd : find describes lines = Some d).
        { apply find_first. exists pre, post.
          unfold describes. rewrite Hn.
          apply isTextLine_spec in Ht. rewrite Ht. auto. }
        congruence.
  - destruct (find describes lines) as [x |] eqn:Hf.
    + split; [discriminate |]. intros [Hall _].
      apply Hnone in Hall. congruence.
    + rewrite <- Hnone. destruct (extractItems lines); simpl.
      * intuition.
      * split; [discriminate | intros [_ H]; discriminate H].
Qed.

(** ** Items *)

Lemma fromPricedLine_cons (l : str) (lines : list str) (item : str) :
  fromPricedLine lines item -> fromPricedLine (l :: lines) item.
Proof.
  intros [raw [Hin H]]. exists raw. split; [now right | exact H].
Qed.

Lemma fromLineBeforePrice_cons (l : str) (lines : list str) (item : str) :
  fromLineBeforePrice lines item -> fromLineBeforePrice (l :: lines) item.
Proof.
  intros [pre [raw [following [post [-> H]]]]].
  now exists (l :: pre), raw, following, post.
Qed.

Lemma primaryItems_bound (lines items : list str) :
  length items < 6 -> length (primaryItems lines items) <= 6.
Proof.
  revert items.
  induction lines as [lines IH] using (induction_ltof1 _ (@length str)).
  unfold ltof in IH. intros items Hlen.
  destruct lines as [| raw rest]; cbn [primaryItems]; [lia |].
  assert (Hpush : forall x tail,
             length tail <= length rest ->
             length (if 6 <=? length (items ++ [x]) then items ++ [x]
                     else primaryItems tail (items ++ [x])) <= 6).
  { intros x tail Htail.
    assert (Hx : length (items ++ [x]) = length items + 1)
      by (rewrite length_app; reflexivity).
    destruct (6 <=? length (items ++ [x])) eqn:H6.
    - lia.
    - apply Nat.leb_gt in H6. apply IH; simpl; lia. }
  assert (Hrest : length (primaryItems rest items) <= 6)
    by (apply IH; simpl; lia).
  destruct (isNoiseLine _ || isPriceOnlyLine _); [exact Hrest |].
  destruct (test AMOUNT_PATTERN _).
  { destruct (_ && _); [apply Hpush; lia | exact Hrest]. }
  destruct (negb (looksLikeItemLine _)); [exact Hrest |].
  destruct rest as [| following rest']; [lia |].
  destruct (_ && _); [apply Hpush; simpl; lia | exact Hrest].
Qed.

Lemma primaryItems_origin (lines items : list str) (item : str) :
  In item (primaryItems lines items) ->
  In item items \/ fromPricedLine lines item \/ fromLineBeforePrice lines item.
Proof.
  revert items.
  induction lines as [lines IH] using (induction_ltof1 _ (@length str)).
  unfold ltof in IH. intros items.
  destruct lines as [| raw rest]; cbn [primaryItems]; [auto |].
  assert (Hrest : In item (primaryItems rest items) ->
                  In item items \/ fromPricedLine (raw :: rest) item
                  \/ fromLineBeforePrice (raw :: rest) item).
  { intros H. apply IH in H; [| simpl; lia].
    destruct H as [H | [H | H]]; auto using fromPricedLine_cons,
      fromLineBeforePrice_cons. }
  destruct (isNoiseLine (normalizeOcrLine raw)) eqn:Hnoise;
    cbn [orb]; [exact Hrest |].
  destruct (isPriceOnlyLine (normalizeOcrLine raw)) eqn:Hprice;
    [exact Hrest |].
  destruct (test AMOUNT_PATTERN (normalizeOcrLine raw)) eqn:Hamount.
  { destruct (3 <=? length (stripTrailingPrice (normalizeOcrLine raw)))
      eqn:Hlen; cbn [andb]; [| exact Hrest].
    destruct (looksLikeItemLine (stripTrailingPrice (normalizeOcrLine raw)))
      eqn:Hitem; [| exact Hrest].
    assert (Hnew : fromPricedLine (raw :: rest)
                     (stripTrailingPrice (normalizeOcrLine raw))).
    { exists raw. apply Nat.leb_le in Hlen. simpl. auto 10. }
    destruct (6 <=? _).
    - rewrite in_app_iff; simpl. intros [H | [<- | []]]; auto.
    - intros H. apply IH in H; [| simpl; lia].
      rewrite in_app_iff in H; simpl in H.
      destruct H as [[H | [<- | []]] | [H | H]];
        auto using fromPricedLine_cons, fromLineBeforePrice_cons. }
  destruct (looksLikeItemLine (normalizeOcrLine raw)) eqn:Hitem;
    cbn [negb]; [| exact Hrest].
  destruct rest as [| following rest']; [auto |].
  destruct (isEmpty following) eqn:Hempty; cbn [isEmpty negb andb];
    [exact Hrest |].
  destruct (isEmpty (normalizeOcrLine following)); cbn [negb andb];
    [exact Hrest |].
  destruct (isPriceOnlyLine (normalizeOcrLine following)) eqn:Hnext;
    [| exact Hrest].
  assert (Hnew : fromLineBeforePrice (raw :: following :: rest')
                   (normalizeOcrLine raw)).
  { exists [], raw, following, rest'. auto. }
  destruct (6 <=? _).
  - rewrite in_app_iff; simpl. intros [H | [<- | []]]; auto.
  - intros H. apply IH in H; [| simpl; lia].
    rewrite in_app_iff in H; simpl in H.
    destruct H as [[H | [<- | []]] | [H | H]]; auto.
    + right; left. now do 2 apply fromPricedLine_cons.
    + right; right. now do 2 apply fromLineBeforePrice_cons.
Qed.

Lemma fallbackItems_firstn (lines items : list str) :
  length items < 4 ->
  fallbackItems lines items
  = items ++ firstn (4 - length items) (filter fallbackLine lines).
Proof.
  revert items. induction lines as [| line rest IH]; intros items Hlen;
    cbn [fallbackItems filter].
  - now rewrite firstn_nil, app_nil_r.
  - unfold fallbackLine at 1.
    destruct (isPriceOnlyLine line); cbn [negb andb orb]; [now apply IH |].
    destruct (looksLikeItemLine line); cbn [negb andb orb]; [| now apply IH].
    assert (Hx : length (items ++ [line]) = length items + 1)
      by (rewrite length_app; reflexivity).
    destruct (4 <=? length (items ++ [line])) eqn:H4.
    + apply Nat.leb_le in H4.
      replace (4 - length items) with 1 by lia. reflexivity.
    + apply Nat.leb_gt in H4. rewrite IH by lia.
      rewrite Hx, <- app_assoc.
      replace (4 - length items) with (S (4 - (length items + 1))) by lia.
      reflexivity.
Qed.

Lemma looksLikeItemLine_text (line : str) :
  looksLikeItemLine line = true ->
  isTextLine line = true /\ isNoiseLine line = false.
Proof.
  unfold looksLikeItemLine.
  destruct (isTextLine line), (isNoiseLine line); try discriminate.
  auto.
Qed.

Lemma join_nonempty (sep x : str) (l : list str) :
  x <> [] -> join sep (x :: l) <> [].
Proof.
  intros Hx. cbn [join]. destruct l; [exact Hx |].
  destruct x; [congruence | discriminate].
Qed.

(** X11.  Every extracted item is an item line; so an item, and the
    description also when it is taken from the items, is a text line
    (a letter, more than three characters) that is not a noise line; and
    a note is never the empty string. *)
Theorem suggestion_texts (lines : list str) :
  (forall item, In item (extractItems lines) ->
                looksLikeItemLine item = true)
  /\ (forall d, description (suggestionOfLines lines) = Some d ->
                isTextLine d = true /\ isNoiseLine d = false)
  /\ (forall n, note (suggestionOfLines lines) = Some n -> n <> []).
Proof.
  assert (Hitems : forall item, In item (extractItems lines) ->
                                looksLikeItemLine item = true).
  { intros item. unfold extractItems.
    destruct (length (primaryItems lines []) =? 0) eqn:Hp.
    - rewrite fallbackItems_firstn.
      + destruct (primaryItems lines []); [| discriminate Hp].
        cbn [app length]. intros Hin.
        assert (Hin' : In item (filter fallbackLine lines)).
        { rewrite <- (firstn_skipn (4 - 0) (filter fallbackLine lines)).
          apply in_or_app. now left. }
        apply filter_In in Hin'. destruct Hin' as [_ Hf].
        unfold fallbackLine in Hf. now apply andb_true_iff in Hf.
      + apply Nat.eqb_eq in Hp. lia.
    - intros Hin. apply primaryItems_origin in Hin.
      destruct Hin as [[] | [[raw H] | [pre [raw [fo [post H]]]]]].
      + now destruct H as [_ [_ [_ [_ [_ [_ H]]]]]].
      + destruct H as [_ [-> [_ [H _]]]]. exact H. }
  split; [exact Hitems | split].
  - intros d. unfold suggestionOfLines. cbn [description].
    destruct (find describes lines) as [x |] eqn:Hf.
    + intros [= <-]. apply find_some in Hf. destruct Hf as [_ Hx].
      unfold describes in Hx. apply andb_true_iff in Hx.
      destruct Hx as [Ht Hn]. apply negb_true_iff in Hn. auto.
    + intros H. apply looksLikeItemLine_text, Hitems.
      destruct (extractItems lines); [discriminate H |].
      injection H as ->. now left.
  - intros n. unfold suggestionOfLines. cbn [note].
    destruct (extractItems lines) as [| x l] eqn:He; [discriminate |].
    cbn [length Nat.ltb Nat.leb]. intros [= <-].
    refine (@join_nonempty (lit ", ") x l _).
    assert (Hx : looksLikeItemLine x = true) by (apply Hitems; now left).
    apply looksLikeItemLine_text in Hx. destruct Hx as [Hx _].
    apply isTextLine_spec in Hx. destruct Hx as [_ Hlen].
    intros ->. simpl in Hlen. lia.
Qed.

(** ** Numbers *)

Lemma rne_nonneg (a d : Z) : (0 <= a -> 0 < d -> 0 <= rne a d)%Z.
Proof.
  intros Ha Hd. unfold rne.
  assert (0 <= a / d)%Z by (apply Z.div_pos; lia).
  destruct (_ ?= _)%Z; [destruct (Z.even _) | |]; lia.
Qed.

Lemma roundRatio_nonneg (a d : Z) : (0 <= a -> 0 < d -> 0 <= roundRatio a d)%Z.
Proof.
  intros Ha Hd. unfold roundRatio.
  destruct (_ <=? 0)%Z eqn:Hsh.
  - now apply rne_nonneg.
  - apply Z.leb_gt in Hsh.
    assert (0 < 2 ^ (Z.log2 (a / d) + 1 - prec))%Z
      by (apply Z.pow_pos_nonneg; lia).
    apply Z.mul_nonneg_nonneg; [apply rne_nonneg |]; nia.
Qed.

Lemma ofRatio_nonneg (a d : Z) :
  (0 <= a)%Z -> (0 < d)%Z -> nonneg (ofRatio false a d).
Proof.
  intros Ha Hd. unfold ofRatio.
  destruct (_ <=? maxFin)%Z; simpl; [now apply roundRatio_nonneg | exact I].
Qed.

Lemma ofUnits_nonneg (z : Z) : (0 <= z)%Z -> nonneg (ofUnits z).
Proof.
  intros Hz. unfold ofUnits.
  replace (z <? 0)%Z with false by (symmetry; apply Z.ltb_ge; lia).
  apply ofRatio_nonneg; lia.
Qed.

Lemma ofZ_nonneg (z : Z) : (0 <= z)%Z -> nonneg (ofZ z).
Proof.
  intros Hz. apply ofUnits_nonneg.
  apply Z.mul_nonneg_nonneg; [lia | now apply Z.pow_nonneg].
Qed.

Lemma fadd_nonneg (x y : number) : nonneg x -> nonneg y -> nonneg (fadd x y).
Proof.
  destruct x as [| | | a], y as [| | | b]; simpl; try tauto.
  intros Ha Hb. apply ofUnits_nonneg. lia.
Qed.



Lemma nonneg_not_NaN (x : number) : nonneg x -> x <> NaN.
Proof. destruct x; simpl; intros H; try discriminate; contradiction. Qed.

(** On numbers other than NaN, [<] is a strict total order. *)
Lemma ltb_irrefl (x : number) : ltb x x = false.
Proof. destruct x; simpl; try reflexivity. apply Z.ltb_irrefl. Qed.

Lemma ltb_asym (x y : number) : ltb x y = true -> ltb y x = false.
Proof.
  destruct x, y; simpl; try reflexivity; try discriminate.
  rewrite Z.ltb_lt, Z.ltb_ge. lia.
Qed.



(** ** The running maximum *)

Section FirstMax.

Variable A : Type.
Variable sc : A -> number.
Hypothesis sc_ordered : forall a, sc a <> NaN.



End FirstMax.

(** ** Category suggestion *)

Import ExpensePage.

Lemma fold_left_guarded (A : Type) (p : A -> bool) (w : A -> number)
  (l : list A) (s : number) :
  fold_left (fun acc x => if p x then fadd acc (w x) else acc) l s
  = fold_left fadd (map w (filter p l)) s.
Proof.
  revert s. induction l as [| x l IH]; intros s; simpl; [reflexivity |].
  destruct (p x); simpl; apply IH.
Qed.

Lemma fold_left_same (A B : Type) (f g : A -> B -> A) (l : list B) (a : A) :
  (forall x y, f x y = g x y) -> fold_left f l a = fold_left g l a.
Proof.
  intros H. revert a. induction l as [| y l IH]; intros a; simpl;
    [reflexivity |].
  now rewrite H, IH.
Qed.

(** The two accumulation loops add up the points of the rule, in order. *)
Lemma categoryScore_points (haystack : str) (category : Category) :
  categoryScore haystack category
  = fold_left fadd
      (CategorySpec.wordPoints haystack category
       ++ CategorySpec.hintPoints haystack category) (ofZ 0).
Proof.
  unfold categoryScore, CategorySpec.wordPoints, CategorySpec.hintPoints.
  rewrite fold_left_app.
  rewrite <- (fold_left_guarded (CategorySpec.hintApplies haystack category)
                (fun _ => ofZ 3)).
  rewrite <- (fold_left_guarded (fun word => includes haystack word)).
  apply fold_left_same. intros x h. unfold CategorySpec.hintApplies.
  destruct (existsb _ (matchTerms h)); simpl; reflexivity.
Qed.







(** The loop, from a state with a best category. *)
Lemma visit_fold_some (haystack : str) (categories : list Category)
  (b : Category) (scored : list Z) :
  fold_left (visit haystack) categories
    (Some (id b, categoryScore haystack b), scored)
  = (let x := pick (categoryScore haystack) b (filter is_active categories) in
     Some (id x, categoryScore haystack x),
     scored ++ map id (filter is_active categories)).
Proof.
  revert b scored.
  induction categories as [| c categories IH]; intros b scored; simpl.
  - now rewrite app_nil_r.
  - unfold visit at 2. destruct (is_active c); simpl.
    + destruct (ltb _ _); rewrite IH, <- app_assoc; reflexivity.
    + apply IH.
Qed.

Lemma visit_fold_none (haystack : str) (categories : list Category) :
  fold_left (visit haystack) categories (None, [])
  = (match filter is_active categories with
     | [] => None
     | b :: l =>
         let x := pick (categoryScore haystack) b l in
         Some (id x, categoryScore haystack x)
     end, map id (filter is_active categories)).
Proof.
  induction categories as [| c categories IH]; simpl; [reflexivity |].
  unfold visit at 2. destruct (is_active c); simpl.
  - apply visit_fold_some.
  - exact IH.
Qed.

(** An empty text scores nothing. *)
Lemma includes_nil (sub : str) : sub <> [] -> includes [] sub = false.
Proof. destruct sub; [congruence | reflexivity]. Qed.








Lemma pick_in (A : Type) (sc : A -> number) (b : A) (l : list A) :
  In (pick sc b l) (b :: l).
Proof.
  revert b. induction l as [| c l IH]; intros b; simpl; [now left |].
  destruct (ltb _ _); specialize (IH c) as Hc; specialize (IH b) as Hb;
    simpl in *; tauto.
Qed.

(** C10.  With an empty text, an empty category list, or no active
    category, the suggester returns nothing and scores no category; and
    whatever it returns is the identifier of an active category of the
    list. *)
Theorem suggestCategoryId_inactive (text : str) (categories : list Category) :
  (text = [] \/ categories = []
   \/ Forall (fun c => is_active c = false) categories ->
   suggestCategoryIdTraced text categories = (None, []))
  /\ (forall i,
        suggestCategoryId text categories = Some i ->
        exists c, In c categories /\ is_active c = true /\ id c = i)
  /\ (forall i,
        In i (snd (suggestCategoryIdTraced text categories)) ->
        exists c, In c categories /\ is_active c = true /\ id c = i).
Proof.
  assert (Hfilter : forall c, In c (filter is_active categories) ->
                              In c categories /\ is_active c = true)
    by (intros c; apply filter_In).
  unfold suggestCategoryId, suggestCategoryIdTraced.
  split; [| split].
  - intros [-> | [-> | Hall]]; [reflexivity | |].
    + now rewrite orb_true_r.
    + destruct (isEmpty text || _); [reflexivity |].
      rewrite visit_fold_none.
      replace (filter is_active categories) with (@nil Category);
        [reflexivity |].
      symmetry. induction Hall as [| c l Hc _ IH]; simpl; [reflexivity |].
      rewrite Hc. apply IH. intros x Hx. apply filter_In in Hx. tauto.
  - intros i. destruct (isEmpty text || _); [discriminate |].
    rewrite visit_fold_none.
    destruct (filter is_active categories) as [| b l] eqn:Hf;
      [discriminate |].
    cbn [fst]. destruct (leb _ _); [| discriminate].
    intros [= <-]. exists (pick (categoryScore (normalizeText text)) b l).
    destruct (Hfilter (pick (categoryScore (normalizeText text)) b l)); auto.
    apply pick_in.
  - intros i. destruct (isEmpty text || _); [intros [] |].
    rewrite visit_fold_none. cbn [snd]. rewrite in_map_iff.
    intros [c [<- Hc]]. exists c. destruct (Hfilter c Hc). auto.
Qed.


(** ** Amount *)

Lemma rne_lower (a d : Z) : (a / d <= rne a d)%Z.
Proof.
  unfold rne. destruct (_ ?= _)%Z; [destruct (Z.even _) | |]; lia.
Qed.

Lemma roundRatio_pos (a : Z) : (0 < a -> 0 < roundRatio a 1)%Z.
Proof.
  intros Ha. unfold roundRatio. rewrite Z.div_1_r.
  destruct (_ <=? 0)%Z eqn:Hsh.
  - pose proof (rne_lower a 1) as H. rewrite Z.div_1_r in H. lia.
  - apply Z.leb_gt in Hsh.
    set (sh := (Z.log2 a + 1 - prec)%Z) in *.
    assert (Hpow : (0 < 2 ^ sh)%Z) by (apply Z.pow_pos_nonneg; lia).
    assert (Hq : (2 ^ 52 <= a / (1 * 2 ^ sh))%Z).
    { apply Z.div_le_lower_bound; [lia |].
      destruct (Z.log2_spec a Ha) as [Hlow _].
      replace (Z.log2 a) with (sh + 52)%Z in Hlow by (unfold sh, prec; lia).
      rewrite Z.pow_add_r in Hlow by lia. lia. }
    pose proof (rne_lower a (1 * 2 ^ sh)) as H.
    assert (0 < 2 ^ 52)%Z by reflexivity. nia.
Qed.

Lemma ofZ_0 : ofZ 0 = Fin 0.
Proof. reflexivity. Qed.

Lemma ofUnits_sign (z : Z) :
  ltb (Fin 0) (ofUnits z) = (0 <? z)%Z.
Proof.
  unfold ofUnits, ofRatio.
  destruct (z <? 0)%Z eqn:Hneg.
  - apply Z.ltb_lt in Hneg.
    pose proof (@roundRatio_nonneg (Z.abs z) 1) as H.
    replace (0 <? z)%Z with false by (symmetry; apply Z.ltb_ge; lia).
    destruct (_ <=? maxFin)%Z; cbn [ltb]; [apply Z.ltb_ge; lia | reflexivity].
  - apply Z.ltb_ge in Hneg.
    destruct (Z.eq_dec z 0) as [-> | Hz]; [reflexivity |].
    pose proof (@roundRatio_pos (Z.abs z)) as H.
    replace (0 <? z)%Z with true by (symmetry; apply Z.ltb_lt; lia).
    destruct (_ <=? maxFin)%Z; cbn [ltb]; [apply Z.ltb_lt; lia | reflexivity].
Qed.

(** The sign of a difference is the order of its terms. *)
Lemma fsub_sign (x y : number) :
  ltb (ofZ 0) (fsub y x) = ltb x y.
Proof.
  rewrite ofZ_0.
  destruct x as [| | | a], y as [| | | b]; try reflexivity.
  unfold fsub, fneg, fadd. rewrite ofUnits_sign. simpl.
  destruct (a <? b)%Z eqn:Hab.
  - apply Z.ltb_lt in Hab. apply Z.ltb_lt. lia.
  - apply Z.ltb_ge in Hab. apply Z.ltb_ge. lia.
Qed.

Lemma lineCandidates_scores (line : str) :
  lineCandidates line
  = map (fun v => {| value := v; score := lineScore line v |})
      (map value (lineCandidates line)).
Proof.
  unfold lineCandidates.
  induction (matchAll amountToken line) as [| raw l IH]; simpl;
    [reflexivity |].
  rewrite !map_app, <- IH. f_equal.
  unfold tokenCandidates.
  destruct (parseDecimalInput _) as [parsed |]; [| reflexivity].
  destruct (_ || _); reflexivity.
Qed.

Lemma flat_map_none (A B : Type) (f : A -> list B) (l : list A) :
  Forall (fun x => f x = []) l -> flat_map f l = [].
Proof.
  induction 1 as [| x l Hx _ IH]; simpl; [reflexivity |].
  now rewrite Hx, IH.
Qed.

Lemma sortBy_two (A : Type) (cmp : A -> A -> number) (x y : A) :
  sortBy cmp [x; y] = if ltb (ofZ 0) (cmp x y) then [y; x] else [x; y].
Proof. reflexivity. Qed.

(** With a keyword line worth 1005 points, a plain line carrying a larger
    amount still wins. *)
Lemma findAmount_magnitude_wins :
  hasKeyword (lit "Total 5.00") = true
  /\ hasKeyword (lit "Pizza 2000.00") = false
  /\ map value (lineCandidates (lit "Total 5.00")) = [ofZ 5]
  /\ map value (lineCandidates (lit "Pizza 2000.00")) = [ofZ 2000]
  /\ findAmount [lit "Total 5.00"; lit "Pizza 2000.00"] = Some (ofZ 2000)
  /\ ofZ 2000 <> ofZ 5.
Proof. vm_compute. repeat split. discriminate. Qed.

(** The bonus shifts the comparison, it does not decide it: a keyword
    line with a currency token is ahead by 1500, and at equal scores the
    earlier line is selected. *)
Example findAmount_bonus_limits :
  findAmount [lit "Total CHF 5.00"; lit "Pizza 1200.00"] = Some (ofZ 5)
  /\ findAmount [lit "Total 5.00"; lit "Pizza 1005.00"] = Some (ofZ 5)
  /\ findAmount [lit "Pizza 1005.00"; lit "Total 5.00"] = Some (ofZ 1005)
  /\ findAmount [lit "Total 5.00"; lit "Pizza 1005.01"]
     = Some (ofDecimal 100501 (-2)).
Proof. vm_compute. repeat split. Qed.

(** C2 (amended).  In a line list whose only amounts are one on a line
    with a total keyword and one on a line without, whichever comes
    first, the amount with the higher score is selected, and at equal
    scores the amount of the earlier line.  The score of the keyword
    line's amount is the amount plus 1000, plus 500 if the line has a
    currency token; the score of the other amount is that amount, plus
    500 if its line has a currency token. *)
Theorem findAmount_keyword_line (pre mid post : list str)
  (first second kwLine otherLine : str) (a b : number) :
  Forall (fun l => lineCandidates l = []) (pre ++ mid ++ post) ->
  (first = kwLine /\ second = otherLine)
  \/ (first = otherLine /\ second = kwLine) ->
  hasKeyword kwLine = true ->
  hasKeyword otherLine = false ->
  map value (lineCandidates kwLine) = [a] ->
  map value (lineCandidates otherLine) = [b] ->
  lineScore kwLine a
  = (if hasChf kwLine then fadd (fadd a (ofZ 1000)) (ofZ 500)
     else fadd a (ofZ 1000))
  /\ lineScore otherLine b = (if hasChf otherLine then fadd b (ofZ 500) else b)
  /\ (ltb (lineScore otherLine b) (lineScore kwLine a) = true ->
      findAmount (pre ++ first :: mid ++ second :: post) = Some a)
  /\ (ltb (lineScore kwLine a) (lineScore otherLine b) = true ->
      findAmount (pre ++ first :: mid ++ second :: post) = Some b)
  /\ (ltb (lineScore otherLine b) (lineScore kwLine a) = false ->
      ltb (lineScore kwLine a) (lineScore otherLine b) = false ->
      (first = kwLine ->
       findAmount (pre ++ first :: mid ++ second :: post) = Some a)
      /\ (first = otherLine ->
          findAmount (pre ++ first :: mid ++ second :: post) = Some b)).
Proof.
  intros Hquiet Horder Hkw Hother Ha Hb.
  split; [unfold lineScore; now rewrite Hkw |].
  split; [unfold lineScore; now rewrite Hother |].
  apply Forall_app in Hquiet. destruct Hquiet as [Hpre Hquiet].
  apply Forall_app in Hquiet. destruct Hquiet as [Hmid Hpost].
  assert (Hdiff : kwLine <> otherLine) by congruence.
  assert (Hk := lineCandidates_scores kwLine). rewrite Ha in Hk.
  assert (Ho := lineCandidates_scores otherLine). rewrite Hb in Ho.
  cbn [map] in Hk, Ho.
  unfold findAmount.
  rewrite flat_map_app. cbn [flat_map]. rewrite flat_map_app. cbn [flat_map].
  rewrite !(flat_map_none lineCandidates) by assumption.
  rewrite app_nil_r. cbn [app].
  destruct Horder as [[-> ->] | [-> ->]]; rewrite Hk, Ho; cbn [app];
    rewrite sortBy_two; unfold byScoreDesc; cbn [score value];
    rewrite fsub_sign.
  - split; [intros Hlt; now rewrite (ltb_asym _ _ Hlt) |].
    split; [intros Hlt; now rewrite Hlt |].
    intros _ Hlt. rewrite Hlt. split; [reflexivity | congruence].
  - split; [intros Hlt; now rewrite Hlt |].
    split; [intros Hlt; now rewrite (ltb_asym _ _ Hlt) |].
    intros Hlt _. rewrite Hlt. split; [intros H; now symmetry in H |].
    reflexivity.
Qed.

Lemma findAmount_keyword_line_witness :
  findAmount [lit "MIGROS"; lit "Pizza 18.50"; lit "Total CHF 5.00"]
  = Some (ofZ 5).
Proof.
  refine (proj1 (proj2 (proj2
            (@findAmount_keyword_line [lit "MIGROS"] [] []
               (lit "Pizza 18.50") (lit "Total CHF 5.00")
               (lit "Total CHF 5.00") (lit "Pizza 18.50") (ofZ 5)
               (ofDecimal 185 (-1)) _ _ _ _ _ _))) _).
  - repeat constructor.
  - right. split; reflexivity.
  - reflexivity.
  - reflexivity.
  - vm_compute. reflexivity.
  - vm_compute. reflexivity.
  - vm_compute. reflexivity.
Defined.

(** ** Soundness of the matcher *)

Section Soundness.

Variable total : nat.

Lemma sound_optional (r : regex) (k : cont) (res : caps * str) :
  sound total r ->
  forall n hi s c,
    (forall h, hi = Some h -> n <= h) ->
    optionalLoop (run total r) k n s c = Some res ->
    exists m cs rest,
      s = m ++ rest /\ Matches (Rep 0 hi r) m cs
      /\ k rest (cs ++ c) = Some res.
Proof.
  intros Hr. induction n as [| n IH]; intros hi s c Hhi H.
  - exists [], [], s. repeat split; [constructor | exact H].
  - cbn [optionalLoop] in H.
    destruct (run total r s c _) as [x |] eqn:Hrun.
    + injection H as ->.
      apply Hr in Hrun. destruct Hrun as [m1 [c1 [s1 [-> [Hm1 Hk]]]]].
      destruct (length s1 <? length (m1 ++ s1)); [| discriminate].
      apply (IH (option_map pred hi)) in Hk.
      * destruct Hk as [m2 [c2 [rest [-> [Hm2 Hk]]]]].
        exists (m1 ++ m2), (c2 ++ c1), rest.
        rewrite <- !app_assoc. repeat split; [| exact Hk].
        constructor; [| assumption | assumption].
        intros ->. specialize (Hhi 0 eq_refl). lia.
      * intros h Hh. destruct hi as [h' |]; [| discriminate].
        injection Hh as <-. specialize (Hhi h' eq_refl). lia.
    + exists [], [], s. repeat split; [constructor | exact H].
Qed.

Lemma sound_mandatory (r : regex) (k after : cont) (res : caps * str)
  (hi0 : option nat) :
  sound total r ->
  (forall s c,
     after s c = Some res ->
     exists m cs rest,
       s = m ++ rest /\ Matches (Rep 0 hi0 r) m cs
       /\ k rest (cs ++ c) = Some res) ->
  forall lo hi s c,
    Nat.iter lo (option_map pred) hi = hi0 ->
    mandatoryLoop (run total r) after lo s c = Some res ->
    exists m cs rest,
      s = m ++ rest /\ Matches (Rep lo hi r) m cs
      /\ k rest (cs ++ c) = Some res.
Proof.
  intros Hr Hopt. induction lo as [| lo IH]; intros hi s c Hhi H.
  - simpl in Hhi. subst hi0. now apply Hopt.
  - cbn [mandatoryLoop] in H.
    apply Hr in H. destruct H as [m1 [c1 [s1 [-> [Hm1 Hk]]]]].
    apply (IH (option_map pred hi)) in Hk.
    + destruct Hk as [m2 [c2 [rest [-> [Hm2 Hk]]]]].
      exists (m1 ++ m2), (c2 ++ c1), rest.
      rewrite <- !app_assoc. repeat split; [| exact Hk].
      now constructor.
    + rewrite <- Hhi. simpl. clear.
      induction lo as [| lo IHlo]; simpl; [reflexivity |].
      now rewrite IHlo.
Qed.

Lemma iter_pred (lo : nat) (hi : option nat) :
  Nat.iter lo (option_map pred) hi = option_map (fun h => h - lo) hi.
Proof.
  induction lo as [| lo IH]; simpl.
  - destruct hi; simpl; f_equal. lia.
  - rewrite IH. destruct hi; simpl; f_equal. lia.
Qed.

Theorem run_sound (r : regex) : sound total r.
Proof.
  induction r as [| p | r1 IH1 r2 IH2 | r1 IH1 r2 IH2 | lo hi r IH
                  | n r IH | |]; intros s c k res H; simpl in H.
  - exists [], [], s. repeat split; [constructor | exact H].
  - destruct s as [| a s]; [discriminate |].
    destruct (p a) eqn:Hp; [| discriminate].
    exists [a], [], s. repeat split; [now constructor | exact H].
  - apply IH1 in H. destruct H as [m1 [c1 [s1 [-> [Hm1 H]]]]].
    apply IH2 in H. destruct H as [m2 [c2 [rest [-> [Hm2 H]]]]].
    exists (m1 ++ m2), (c2 ++ c1), rest.
    rewrite <- !app_assoc. repeat split; [now constructor | exact H].
  - destruct (run total r1 s c k) as [x |] eqn:H1.
    + injection H as ->. apply IH1 in H1.
      destruct H1 as [m [cs [rest [-> [Hm H]]]]].
      exists m, cs, rest. repeat split; [now apply MatchesAltL | exact H].
    + apply IH2 in H. destruct H as [m [cs [rest [-> [Hm H]]]]].
      exists m, cs, rest. repeat split; [now apply MatchesAltR | exact H].
  - revert H.
    apply sound_mandatory with (hi0 := option_map (fun h => h - lo) hi);
      [exact IH | | apply iter_pred].
    intros s0 c0. apply sound_optional; [exact IH |].
    intros h Hh. destruct hi as [h' |]; [| discriminate].
    injection Hh as <-. lia.
  - apply IH in H. destruct H as [m [cs [rest [-> [Hm H]]]]].
    exists m, ((n, m) :: cs), rest. repeat split; [now constructor |].
    rewrite length_app in H.
    replace (length m + length rest - length rest) with (length m) in H by lia.
    rewrite firstn_app, firstn_all, Nat.sub_diag in H. simpl in H.
    rewrite app_nil_r in H. exact H.
  - destruct (length s =? total); [| discriminate].
    exists [], [], s. repeat split; [constructor | exact H].
  - destruct s; [| discriminate].
    exists [], [], []. repeat split; [constructor | exact H].
Qed.

End Soundness.

Lemma matchAt_sound (total : nat) (r : regex) (s rest : str) (c : caps) :
  matchAt total r s = Some (c, rest) ->
  exists m, s = m ++ rest /\ Matches r m c.
Proof.
  unfold matchAt. intros H. apply run_sound in H.
  destruct H as [m [cs [rest' [-> [Hm H]]]]].
  rewrite app_nil_r in H. injection H as <- <-. now exists m.
Qed.

Lemma firstn_matched (m rest : str) :
  firstn (length (m ++ rest) - length rest) (m ++ rest) = m.
Proof.
  rewrite length_app.
  replace (length m + length rest - length rest) with (length m) by lia.
  rewrite firstn_app, firstn_all, Nat.sub_diag. simpl. apply app_nil_r.
Qed.

Lemma searchFrom_step (total : nat) (r : regex) (before s : str) :
  searchFrom total r before s
  = match matchAt total r s with
    | Some (c, rest) =>
        Some (rev before, firstn (length s - length rest) s, c, rest)
    | None =>
        match s with
        | a :: s' => searchFrom total r (a :: before) s'
        | [] => None
        end
    end.
Proof. destruct s; reflexivity. Qed.

Lemma matchAt_matched (total : nat) (r : regex) (s rest : str) (c : caps) :
  matchAt total r s = Some (c, rest) ->
  Matches r (firstn (length s - length rest) s) c
  /\ s = firstn (length s - length rest) s ++ rest.
Proof.
  intros H. apply matchAt_sound in H. destruct H as [m [-> Hm]].
  rewrite firstn_matched. auto.
Qed.

Lemma searchFrom_sound (total : nat) (r : regex) (before s b m rest : str)
  (c : caps) :
  searchFrom total r before s = Some (b, m, c, rest) ->
  Matches r m c /\ exists skipped, s = skipped ++ m ++ rest.
Proof.
  revert before. induction s as [| a s IH]; intros before;
    rewrite searchFrom_step;
    destruct (matchAt total r _) as [[c' rest'] |] eqn:Hm;
    try discriminate.
  - intros [= <- <- <- <-]. apply matchAt_matched in Hm.
    destruct Hm as [Hm Hs]. split; [exact Hm | now exists []].
  - intros [= <- <- <- <-]. apply matchAt_matched in Hm.
    destruct Hm as [Hm Hs]. split; [exact Hm | now exists []].
  - intros H. apply IH in H. destruct H as [Hm' [skipped ->]].
    split; [exact Hm' | now exists (a :: skipped)].
Qed.

Lemma search_sound (r : regex) (s b m rest : str) (c : caps) :
  search r s = Some (b, m, c, rest) -> Matches r m c.
Proof. intros H. now apply searchFrom_sound in H. Qed.

Lemma groupFree_caps (r : regex) (m : str) (c : caps) :
  Matches r m c -> groupFree r = true -> c = [].
Proof.
  induction 1; simpl; intros Hg; try reflexivity; try discriminate;
    try (apply andb_true_iff in Hg; destruct Hg as [Hg1 Hg2]);
    try (rewrite IHMatches1, IHMatches2 by assumption; reflexivity);
    auto.
Qed.

Lemma isDigit_in (a : ascii) : isDigit a = true -> In a digitChars.
Proof.
  destruct a as [[] [] [] [] [] [] [] []]; intros H;
    try discriminate H; vm_compute; tauto.
Qed.

Lemma isMark_in (a : ascii) : oneOf ".," a = true -> In a markChars.
Proof.
  destruct a as [[] [] [] [] [] [] [] []]; intros H;
    try discriminate H; vm_compute; tauto.
Qed.

Lemma rne_upper (a d : Z) : (rne a d <= a / d + 1)%Z.
Proof.
  unfold rne. destruct (_ ?= _)%Z; [destruct (Z.even _) | |]; lia.
Qed.

(** Rounding moves a quotient by at most one unit or one part in 2^52. *)
Lemma roundRatio_upper (a d : Z) :
  (0 <= a -> 0 < d ->
   roundRatio a d * 2 ^ 52 <= (a / d + 1) * (2 ^ 52 + 1))%Z.
Proof.
  intros Ha Hd. unfold roundRatio.
  assert (HQ : (0 <= a / d)%Z) by (apply Z.div_pos; lia).
  set (Q := (a / d)%Z) in *.
  assert (H52 : (0 < 2 ^ 52)%Z) by reflexivity.
  destruct (_ <=? 0)%Z eqn:Hsh.
  - pose proof (rne_upper a d) as H. fold Q in H. nia.
  - apply Z.leb_gt in Hsh.
    set (sh := (Z.log2 Q + 1 - prec)%Z) in *.
    assert (HS : (0 < 2 ^ sh)%Z) by (apply Z.pow_pos_nonneg; lia).
    assert (HQpos : (0 < Q)%Z).
    { destruct (Z.eq_dec Q 0) as [H0 | H0]; [| lia].
      unfold sh in Hsh. rewrite H0 in Hsh. simpl in Hsh. unfold prec in Hsh.
      lia. }
    assert (Hlow : (2 ^ sh * 2 ^ 52 <= Q)%Z).
    { destruct (Z.log2_spec Q HQpos) as [Hlow _].
      replace (Z.log2 Q) with (sh + 52)%Z in Hlow by (unfold sh, prec; lia).
      rewrite Z.pow_add_r in Hlow by lia. exact Hlow. }
    pose proof (rne_upper a (d * 2 ^ sh)) as H.
    rewrite <- Z.div_div in H by lia. fold Q in H.
    pose proof (Z.mul_div_le Q (2 ^ sh) HS) as Hfloor.
    nia.
Qed.

Lemma ofZ_100 : ofZ 100 = Fin (100 * 2 ^ unit_exp).
Proof. vm_compute. reflexivity. Qed.

Lemma ofRatio_rate (n d : Z) :
  (0 <= n)%Z -> (0 < d)%Z -> (10 * n <= 999 * d)%Z ->
  exists k, ofRatio false (n * 2 ^ unit_exp) d = Fin k
            /\ (0 <= k < 100 * 2 ^ unit_exp)%Z.
Proof.
  intros Hn Hd Hle.
  assert (HX : (2 ^ 60 <= 2 ^ unit_exp)%Z)
    by (apply Z.pow_le_mono_r; unfold unit_exp; lia).
  assert (Hmax : (100 * 2 ^ unit_exp <= maxFin)%Z).
  { unfold maxFin, prec, unit_exp.
    replace (971 + 1074)%Z with (971 + 1074)%Z by reflexivity.
    rewrite Z.pow_add_r by lia.
    assert (0 < 2 ^ 1074)%Z by (apply Z.pow_pos_nonneg; lia).
    assert (2 ^ 10 <= 2 ^ 971)%Z by (apply Z.pow_le_mono_r; lia).
    assert (2 ^ 53 - 1 >= 1)%Z by (vm_compute; discriminate).
    change (2 ^ 10)%Z with 1024%Z in *. nia. }
  set (X := (2 ^ unit_exp)%Z) in *.
  assert (H60 : (2 ^ 60 = 1152921504606846976)%Z) by reflexivity.
  assert (H52 : (2 ^ 52 = 4503599627370496)%Z) by reflexivity.
  assert (Ha : (0 <= n * X)%Z) by nia.
  pose proof (@roundRatio_nonneg (n * X) d Ha Hd) as Hlow.
  pose proof (@roundRatio_upper (n * X) d Ha Hd) as Hup.
  pose proof (Z.mul_div_le (n * X) d Hd) as Hfloor.
  assert (HQ : (0 <= n * X / d)%Z) by (apply Z.div_pos; lia).
  set (Q := (n * X / d)%Z) in *.
  assert (HQX : (10 * Q <= 999 * X)%Z) by nia.
  set (k := roundRatio (n * X) d) in *.
  assert (Hk : (k < 100 * X)%Z) by (rewrite H52 in Hup; lia).
  exists k. unfold ofRatio. fold k.
  replace (k <=? maxFin)%Z with true by (symmetry; apply Z.leb_le; lia).
  split; [reflexivity | lia].
Qed.

Lemma ofDecimal_rate (n e : Z) :
  (0 <= n)%Z ->
  (e = -1 /\ n <= 999)%Z \/ (e = 0 /\ n <= 99)%Z ->
  exists k, ofDecimal n e = Fin k /\ (0 <= k < 100 * 2 ^ unit_exp)%Z.
Proof.
  intros Hn [[-> Hle] | [-> Hle]]; unfold ofDecimal; simpl Z.leb; cbv iota.
  - change (10 ^ (- -1))%Z with 10%Z. apply ofRatio_rate; lia.
  - change (10 ^ 0)%Z with 1%Z. rewrite Z.mul_1_r. unfold ofUnits.
    assert (0 <= n * 2 ^ unit_exp)%Z
      by (apply Z.mul_nonneg_nonneg; [lia | now apply Z.pow_nonneg]).
    replace (_ <? 0)%Z with false by (symmetry; apply Z.ltb_ge; lia).
    rewrite Z.abs_eq by assumption. apply ofRatio_rate; lia.
Qed.

Lemma rateSyntax_range (raw : str) :
  rateSyntax raw = true -> rateInRange raw = true.
Proof.
  unfold rateSyntax, rateInRange, parseDecimalInput, toNumber.
  destruct (normalizeDecimal raw) as [t |]; [| discriminate].
  destruct (numericLiteral (trim t)) as [[neg | [] n e | z] |];
    try discriminate.
  rewrite andb_true_iff, orb_true_iff, !andb_true_iff.
  rewrite !Z.leb_le, !Z.eqb_eq. intros [Hn He].
  destruct (ofDecimal_rate Hn He) as [k [Hk Hrange]].
  unfold literalValue. rewrite Hk. unfold finiteOrNone, isFinite.
  rewrite ofZ_0, ofZ_100. cbn [leb ltb].
  apply andb_true_iff. split; [apply Z.leb_le | apply Z.ltb_lt]; lia.
Qed.

Lemma rate_one_digit (d1 : ascii) :
  In d1 digitChars -> rateSyntax [d1] = true.
Proof.
  assert (H : forallb (fun d => rateSyntax [d]) digitChars = true)
    by (vm_compute; reflexivity).
  rewrite forallb_forall in H. apply H.
Qed.

Lemma rate_two_digits (d1 d2 : ascii) :
  In d1 digitChars -> In d2 digitChars -> rateSyntax [d1; d2] = true.
Proof.
  assert (H : forallb (fun p => rateSyntax [fst p; snd p])
                (list_prod digitChars digitChars) = true)
    by (vm_compute; reflexivity).
  rewrite forallb_forall in H. intros H1 H2.
  apply (H (d1, d2)). now apply in_prod.
Qed.

Lemma rate_one_digit_fraction (d1 mark d3 : ascii) :
  In d1 digitChars -> In mark markChars -> In d3 digitChars ->
  rateSyntax [d1; mark; d3] = true.
Proof.
  assert (H : forallb (fun p => rateSyntax [fst p; fst (snd p); snd (snd p)])
                (list_prod digitChars (list_prod markChars digitChars))
              = true)
    by (vm_compute; reflexivity).
  rewrite forallb_forall in H. intros H1 H2 H3.
  apply (H (d1, (mark, d3))). now repeat apply in_prod.
Qed.

Lemma rate_two_digits_fraction (d1 d2 mark d3 : ascii) :
  In d1 digitChars -> In d2 digitChars -> In mark markChars ->
  In d3 digitChars ->
  rateSyntax [d1; d2; mark; d3] = true.
Proof.
  assert (H : forallb
                (fun p => rateSyntax [fst p; fst (snd p); fst (snd (snd p));
                                      snd (snd (snd p))])
                (list_prod digitChars
                   (list_prod digitChars (list_prod markChars digitChars)))
              = true)
    by (vm_compute; reflexivity).
  rewrite forallb_forall in H. intros H1 H2 H3 H4.
  apply (H (d1, (d2, (mark, d3)))). now repeat apply in_prod.
Qed.

Ltac invert_matches :=
  repeat match goal with
    | H : Matches (Cat _ _) _ _ |- _ => inversion H; subst; clear H
    | H : Matches (Cls _) _ _ |- _ => inversion H; subst; clear H
    | H : Matches (Rep _ _ _) _ _ |- _ =>
        inversion H; subst; clear H; simpl option_map in *; try congruence
    | H : Matches (Grp _ _) _ _ |- _ => inversion H; subst; clear H
    end.

Lemma rateToken_shape (m : str) (c : caps) :
  Matches rateToken m c -> rateInRange m = true.
Proof.
  unfold rateToken, Between, Opt, digit. intros H.
  apply rateSyntax_range.
  invert_matches; simpl app;
    repeat match goal with
      | H : isDigit _ = true |- _ => apply isDigit_in in H
      | H : oneOf _ _ = true |- _ => apply isMark_in in H
      end;
    auto using rate_one_digit, rate_two_digits, rate_one_digit_fraction,
      rate_two_digits_fraction.
Qed.

Lemma percentToken_shape (line raw : str) :
  percentToken line = Some raw -> rateInRange raw = true.
Proof.
  unfold percentToken.
  destruct (search PERCENT_PATTERN line) as [[[[b m] c] rest] |] eqn:Hs;
    [| discriminate].
  apply search_sound in Hs. unfold PERCENT_PATTERN in Hs.
  inversion Hs as [| | r1 r2 m1 m2 c1 c2 H1 H2 | | | | | | | |]; subst.
  apply groupFree_caps in H2; [| reflexivity]. subst c2.
  inversion H1; subst. simpl.
  intros [= <-]. eapply rateToken_shape; eassumption.
Qed.

(** ** The invariant of a suggestion *)

Lemma finiteOrNone_finite (x n : number) :
  finiteOrNone x = Some n -> isFinite n = true.
Proof.
  unfold finiteOrNone. destruct (isFinite x) eqn:Hx; [| discriminate].
  now intros [= <-].
Qed.

Lemma parseDecimalInput_finite (v : jsval) (n : number) :
  parseDecimalInput v = Some n -> isFinite n = true.
Proof.
  destruct v as [| | x | s |]; simpl; try discriminate.
  - apply finiteOrNone_finite.
  - destruct (normalizeDecimal s); [apply finiteOrNone_finite | discriminate].
Qed.

Lemma insertBy_In (A : Type) (cmp : A -> A -> number) (x y : A) (l : list A) :
  In y (insertBy cmp x l) <-> y = x \/ In y l.
Proof.
  induction l as [| z l IH]; cbn [insertBy In]; [intuition |].
  destruct (ltb (ofZ 0) (cmp x z)); cbn [In]; rewrite ?IH; intuition.
Qed.

Lemma sortBy_In (A : Type) (cmp : A -> A -> number) (y : A) (l : list A) :
  In y (sortBy cmp l) <-> In y l.
Proof.
  induction l as [| x l IH]; cbn [sortBy fold_right In]; [reflexivity |].
  fold (sortBy cmp l). rewrite insertBy_In, IH. intuition.
Qed.

Lemma tokenCandidates_positive (line raw : str) (c : candidate) :
  In c (tokenCandidates line raw) ->
  isFinite (value c) = true /\ ltb (ofZ 0) (value c) = true.
Proof.
  unfold tokenCandidates.
  destruct (parseDecimalInput (VString raw)) as [parsed |] eqn:Hp;
    [| intros []].
  apply parseDecimalInput_finite in Hp.
  destruct (negb (truthy parsed) || leb parsed (ofZ 0)) eqn:Hguard;
    [intros [] |].
  intros [<- | []]. simpl. split; [exact Hp |].
  apply orb_false_iff in Hguard. destruct Hguard as [_ Hle].
  destruct parsed as [| | | k]; try discriminate Hp.
  rewrite ofZ_0 in *. simpl in *.
  apply Z.leb_gt in Hle. now apply Z.ltb_lt.
Qed.

Lemma findAmount_positive (lines : list str) (v : number) :
  findAmount lines = Some v ->
  isFinite v = true /\ ltb (ofZ 0) v = true.
Proof.
  unfold findAmount.
  destruct (sortBy byScoreDesc _) as [| best l] eqn:Hs; [discriminate |].
  intros [= <-].
  assert (Hin : In best (sortBy byScoreDesc (flat_map lineCandidates lines)))
    by (rewrite Hs; now left).
  apply sortBy_In, in_flat_map in Hin. destruct Hin as [line [_ Hin]].
  unfold lineCandidates in Hin. apply in_flat_map in Hin.
  destruct Hin as [raw [_ Hin]].
  eapply tokenCandidates_positive; eassumption.
Qed.

Lemma findMwstRate_range (lines : list str) (r : number) :
  findMwstRate lines = Some r ->
  isFinite r = true /\ leb (ofZ 0) r = true /\ ltb r (ofZ 100) = true.
Proof.
  intros H. apply findMwstRate_source in H. destruct H as [line [_ H]].
  apply lineRate_keyword in H. destruct H as [_ [raw [Htoken Hparse]]].
  split; [eapply parseDecimalInput_finite; eassumption |].
  apply percentToken_shape in Htoken. unfold rateInRange in Htoken.
  rewrite Hparse in Htoken. now apply andb_true_iff in Htoken.
Qed.

(** C7.  In the suggestion built from any text, the amount, when
    present, is a finite number above zero, and the tax rate, when
    present, is a finite number of at least 0 and below 100. *)
Theorem parseReceiptText_invariant (text : str) :
  (forall v, amount (parseReceiptText text) = Some v ->
             isFinite v = true /\ ltb (ofZ 0) v = true)
  /\ (forall r, mwstRate (parseReceiptText text) = Some r ->
                isFinite r = true /\ leb (ofZ 0) r = true
                /\ ltb r (ofZ 100) = true).
Proof.
  unfold parseReceiptText, suggestionOfLines; simpl.
  split; intros x H.
  - now apply findAmount_positive in H.
  - now apply findMwstRate_range in H.
Qed.

(** ** The locale parser *)

Lemma replaceGo_class (total : nat) (p : ascii -> bool) (s : str) :
  replaceGo total (Cls p) [] 0 s = filter (fun a => negb (p a)) s.
Proof.
  induction s as [| a s IH]; [reflexivity |].
  cbn [replaceGo filter]. unfold matchAt. cbn [run].
  destruct (p a); cbn [negb app].
  - replace (length (a :: s) - length s) with 1 by (cbn [length]; lia).
    exact IH.
  - now rewrite IH.
Qed.

Lemma replaceAll_class (p : ascii -> bool) (s : str) :
  replaceAll (Cls p) [] s = filter (fun a => negb (p a)) s.
Proof. apply replaceGo_class. Qed.

Lemma includes_char (c : ascii) (s : str) :
  includes s [c] = existsb (isChar c) s.
Proof.
  induction s as [| a s IH]; [reflexivity |].
  cbn [includes isPrefix existsb]. rewrite IH.
  unfold isChar. destruct s; now rewrite andb_true_r.
Qed.

Lemma replaceStr_char (c d a : ascii) (s : str) :
  replaceStr [c] [d] (a :: s)
  = if isChar c a then d :: s else a :: replaceStr [c] [d] s.
Proof.
  cbn [replaceStr isPrefix]. unfold isChar.
  destruct (Ascii.eqb a c); [destruct s |]; reflexivity.
Qed.

Lemma countChar_app (c : ascii) (x y : str) :
  countChar c (x ++ y) = countChar c x + countChar c y.
Proof. unfold countChar. now rewrite filter_app, length_app. Qed.

Lemma countChar_cons (c a : ascii) (s : str) :
  countChar c (a :: s) = (if isChar c a then 1 else 0) + countChar c s.
Proof. unfold countChar. simpl. destruct (isChar c a); reflexivity. Qed.

Lemma commaToDot_counts (s : str) :
  existsb (isChar ",") s = true -> 1 <= countChar "." (map commaToDot s).
Proof.
  induction s as [| b s IH]; [discriminate |].
  cbn [existsb map]. rewrite countChar_cons. unfold commaToDot at 1.
  destruct (isChar "," b); cbn [orb].
  - intros _. change (isChar "." ".") with true. cbv iota. lia.
  - intros H. apply IH in H. lia.
Qed.

Lemma commaToDot_none (s : str) :
  existsb (isChar ",") s = false -> map commaToDot s = s.
Proof.
  induction s as [| b s IH]; [reflexivity |].
  cbn [existsb map]. intros H. apply orb_false_iff in H.
  destruct H as [Hb Hs]. unfold commaToDot at 1. rewrite Hb.
  now rewrite IH.
Qed.

(** Replacing the first comma gives the text with every comma replaced,
    unless a comma is left over; then that text has two points. *)
Lemma replaceStr_comma (s : str) :
  replaceStr (lit ",") (lit ".") s = map commaToDot s
  \/ (existsb (isChar ",") (replaceStr (lit ",") (lit ".") s) = true
      /\ 2 <= countChar "." (map commaToDot s)).
Proof.
  change (lit ",") with [","%char]. change (lit ".") with ["."%char].
  induction s as [| a s IH]; [now left |].
  rewrite replaceStr_char. cbn [map]. unfold commaToDot at 1 3.
  destruct (isChar "," a) eqn:Ha.
  - destruct (existsb (isChar ",") s) eqn:Hs.
    + right. split; [exact Hs |].
      rewrite countChar_cons. change (isChar "." ".") with true. cbv iota.
      apply commaToDot_counts in Hs. lia.
    + left. now rewrite commaToDot_none.
  - destruct IH as [-> | [Hin Hcount]]; [now left | right].
    cbn [existsb]. rewrite Hin, orb_true_r. split; [reflexivity |].
    rewrite countChar_cons. lia.
Qed.

(** ** Numeric literals hold no comma and at most one point *)

Lemma span_spec (p : ascii -> bool) (s x y : str) :
  span p s = (x, y) -> s = x ++ y /\ forallb p x = true.
Proof.
  revert x y. induction s as [| a s IH]; intros x y; cbn [span].
  - intros [= <- <-]. auto.
  - destruct (p a) eqn:Hp.
    + destruct (span p s) as [x' y']. intros [= <- <-].
      destruct (IH x' y' eq_refl) as [-> Hx]. cbn [forallb].
      now rewrite Hp, Hx.
    + intros [= <- <-]. auto.
Qed.

Lemma pointsAtMost_nil (n : nat) : pointsAtMost n [].
Proof. split; [reflexivity | unfold countChar; simpl; lia]. Qed.

Lemma pointsAtMost_app (n m : nat) (x y : str) :
  pointsAtMost n x -> pointsAtMost m y -> pointsAtMost (n + m) (x ++ y).
Proof.
  intros [Hx Hn] [Hy Hm]. split.
  - now rewrite existsb_app, Hx, Hy.
  - rewrite countChar_app. lia.
Qed.

Lemma pointsAtMost_class (p : ascii -> bool) (x : str) :
  p ","%char = false -> p "."%char = false -> forallb p x = true ->
  pointsAtMost 0 x.
Proof.
  intros Hc Hd. induction x as [| a x IH]; [intros _; apply pointsAtMost_nil |].
  cbn [forallb]. intros H. apply andb_true_iff in H. destruct H as [Ha Hx].
  destruct (IH Hx) as [Hcomma Hcount]. split.
  - cbn [existsb]. rewrite Hcomma, orb_false_r.
    unfold isChar. destruct (Ascii.eqb a ",") eqn:E; [| reflexivity].
    apply Ascii.eqb_eq in E. congruence.
  - rewrite countChar_cons.
    unfold isChar. destruct (Ascii.eqb a ".") eqn:E.
    + apply Ascii.eqb_eq in E. congruence.
    + lia.
Qed.

Lemma pointsAtMost_char (n : nat) (a : ascii) (s : str) :
  isChar "," a = false -> isChar "." a = false ->
  pointsAtMost n s -> pointsAtMost n (a :: s).
Proof.
  intros Hc Hd [Hs Hn]. split.
  - cbn [existsb]. now rewrite Hc, Hs.
  - rewrite countChar_cons, Hd. lia.
Qed.

Lemma pointsAtMost_point (n : nat) (a : ascii) (s : str) :
  isChar "." a = true -> pointsAtMost n s -> pointsAtMost (S n) (a :: s).
Proof.
  intros Hd [Hs Hn]. split.
  - cbn [existsb]. rewrite Hs, orb_false_r.
    apply Ascii.eqb_eq in Hd. now subst a.
  - rewrite countChar_cons, Hd. lia.
Qed.

Lemma pointsAtMost_more (n m : nat) (s : str) :
  n <= m -> pointsAtMost n s -> pointsAtMost m s.
Proof. intros Hle [Hs Hn]. split; [exact Hs | lia]. Qed.

(** A character that passes [p] is neither a comma nor a point when
    [p] rejects both. *)
Lemma passes_plain (p : ascii -> bool) (a : ascii) :
  p ","%char = false -> p "."%char = false -> p a = true ->
  isChar "," a = false /\ isChar "." a = false.
Proof.
  intros Hc Hd Ha. unfold isChar. split.
  - destruct (Ascii.eqb a ",") eqn:E; [| reflexivity].
    apply Ascii.eqb_eq in E. congruence.
  - destruct (Ascii.eqb a ".") eqn:E; [| reflexivity].
    apply Ascii.eqb_eq in E. congruence.
Qed.

Lemma exponentPart_plain (s : str) (e : Z) :
  exponentPart s = Some e -> pointsAtMost 0 s.
Proof.
  unfold exponentPart.
  assert (Hdigits : forall ds,
             (let (ed, rest) := span isDigit ds in
              if isEmpty ed || negb (isEmpty rest) then None (A := Z)
              else Some 0%Z) <> None ->
             pointsAtMost 0 ds).
  { intros ds. destruct (span isDigit ds) as [ed rest] eqn:Hspan.
    apply span_spec in Hspan. destruct Hspan as [-> Hed].
    destruct (isEmpty ed); cbn [orb]; [congruence |].
    destruct rest; cbn [isEmpty negb]; [| congruence].
    intros _. rewrite app_nil_r.
    now apply (pointsAtMost_class isDigit). }
  destruct s as [| a t].
  - intros _. apply pointsAtMost_nil.
  - destruct (isChar "+" a) eqn:Hplus;
      [| destruct (isChar "-" a) eqn:Hminus].
    + intros H. apply pointsAtMost_char.
      * apply (passes_plain (isChar "+")); auto.
      * apply (passes_plain (isChar "+")); auto.
      * apply Hdigits. destruct (span isDigit t) as [ed rest].
        destruct (_ || _); congruence.
    + intros H. apply pointsAtMost_char.
      * apply (passes_plain (isChar "-")); auto.
      * apply (passes_plain (isChar "-")); auto.
      * apply Hdigits. destruct (span isDigit t) as [ed rest].
        destruct (_ || _); congruence.
    + intros H. apply Hdigits. destruct (span isDigit (a :: t)) as [ed rest].
      destruct (_ || _); congruence.
Qed.

Lemma isPrefix_same_length (p s : str) :
  isPrefix p s = true -> length s = length p -> s = p.
Proof.
  revert s. induction p as [| a p IH]; intros [| b s]; simpl;
    try discriminate; try reflexivity.
  intros H Hlen. apply andb_true_iff in H. destruct H as [Hb Hp].
  apply Ascii.eqb_eq in Hb. subst b. f_equal. apply IH; [exact Hp | lia].
Qed.

Lemma strUnsignedDecimal_points (neg : bool) (s : str) (l : literal) :
  strUnsignedDecimal neg s = Some l -> pointsAtMost 1 s.
Proof.
  unfold strUnsignedDecimal.
  destruct (isPrefix (lit "Infinity") s && (length s =? 8)) eqn:Hinf.
  { intros _. apply andb_true_iff in Hinf. destruct Hinf as [Hp Hlen].
    apply Nat.eqb_eq in Hlen.
    rewrite (isPrefix_same_length _ _ Hp Hlen).
    split; [reflexivity | vm_compute; lia]. }
  destruct (span isDigit s) as [ip r1] eqn:Hip.
  apply span_spec in Hip. destruct Hip as [-> Hip].
  assert (Hint : pointsAtMost 0 ip)
    by now apply (pointsAtMost_class isDigit).
  assert (Htail : forall r2 mant frac,
             match r2 with
             | [] => Some (LitDecimal neg mant (- frac))
             | a :: r =>
                 if oneOf "eE" a then
                   match exponentPart r with
                   | Some e => Some (LitDecimal neg mant (e - frac))
                   | None => None
                   end
                 else None
             end <> None ->
             pointsAtMost 0 r2).
  { intros [| a r] mant frac; [intros _; apply pointsAtMost_nil |].
    destruct (oneOf "eE" a) eqn:Ha; [| congruence].
    destruct (exponentPart r) as [e |] eqn:He; [| congruence].
    intros _. apply exponentPart_plain in He.
    destruct (passes_plain (oneOf "eE") a); auto.
    now apply pointsAtMost_char. }
  destruct r1 as [| a r].
  - destruct (isEmpty ip && isEmpty []); [discriminate |].
    intros _. rewrite app_nil_r.
    apply (pointsAtMost_more (n := 0)); [lia | exact Hint].
  - destruct (isChar "." a) eqn:Hdot.
    + destruct (span isDigit r) as [fp r2] eqn:Hfp.
      apply span_spec in Hfp. destruct Hfp as [-> Hfp].
      destruct (isEmpty ip && isEmpty fp); [discriminate |].
      intros H. apply (pointsAtMost_app (n := 0) (m := 1)); [exact Hint |].
      apply pointsAtMost_point; [exact Hdot |].
      apply (pointsAtMost_app (n := 0) (m := 0)).
      * now apply (pointsAtMost_class isDigit).
      * eapply Htail. rewrite H. discriminate.
    + destruct (isEmpty ip && isEmpty []); [discriminate |].
      intros H. apply (pointsAtMost_app (n := 0) (m := 1)); [exact Hint |].
      apply (pointsAtMost_more (n := 0)); [lia |].
      eapply Htail. rewrite H. discriminate.
Qed.

Lemma strDecimal_points (s : str) (l : literal) :
  strDecimal s = Some l -> pointsAtMost 1 s.
Proof.
  unfold strDecimal. destruct s as [| a t].
  - intros _. apply pointsAtMost_nil.
  - destruct (isChar "+" a) eqn:Hplus;
      [| destruct (isChar "-" a) eqn:Hminus].
    + intros H. apply strUnsignedDecimal_points in H.
      destruct (passes_plain (isChar "+") a); auto.
      now apply pointsAtMost_char.
    + intros H. apply strUnsignedDecimal_points in H.
      destruct (passes_plain (isChar "-") a); auto.
      now apply pointsAtMost_char.
    + apply strUnsignedDecimal_points.
Qed.

Lemma nonDecimal_points (base : Z) (ok : ascii -> bool) (val : ascii -> Z)
  (ds : str) (l : literal) :
  ok ","%char = false -> ok "."%char = false ->
  nonDecimal base ok val ds = Some l -> pointsAtMost 0 ds.
Proof.
  intros Hc Hd. unfold nonDecimal.
  destruct (isEmpty ds); [discriminate |].
  destruct (forallb ok ds) eqn:Hok; [| discriminate].
  intros _. now apply (pointsAtMost_class ok).
Qed.

Lemma numericLiteral_points (t : str) (l : literal) :
  numericLiteral t = Some l -> pointsAtMost 1 t.
Proof.
  unfold numericLiteral.
  destruct t as [| z [| x ds]]; [intros _; apply pointsAtMost_nil | |];
    try apply strDecimal_points.
  assert (Hprefix : forall marks base ok val,
             isChar "0" z && oneOf marks x = true ->
             oneOf marks "," = false -> oneOf marks "." = false ->
             ok ","%char = false -> ok "."%char = false ->
             nonDecimal base ok val ds = Some l ->
             pointsAtMost 1 (z :: x :: ds)).
  { intros marks base ok val Hzx Hm1 Hm2 Hc Hd H.
    apply andb_true_iff in Hzx. destruct Hzx as [Hz Hx].
    apply nonDecimal_points in H; [| assumption | assumption].
    destruct (passes_plain (isChar "0") z); auto.
    destruct (passes_plain (oneOf marks) x); auto.
    apply (pointsAtMost_more (n := 0)); [lia |].
    now repeat apply pointsAtMost_char. }
  destruct (isChar "0" z && oneOf "xX" x) eqn:Hx;
    [now apply (Hprefix "xX"%string 16%Z isHexDigit hexVal) |].
  destruct (isChar "0" z && oneOf "oO" x) eqn:Ho;
    [now apply (Hprefix "oO"%string 8%Z isOctDigit digitVal) |].
  destruct (isChar "0" z && oneOf "bB" x) eqn:Hb;
    [now apply (Hprefix "bB"%string 2%Z isBinDigit digitVal) |].
  apply strDecimal_points.
Qed.

Lemma dropWhile_keeps (p : ascii -> bool) (c : ascii) (s : str) :
  p c = false ->
  existsb (isChar c) (dropWhile p s) = existsb (isChar c) s
  /\ countChar c (dropWhile p s) = countChar c s.
Proof.
  intros Hc. induction s as [| a s [IH1 IH2]]; [split; reflexivity |].
  cbn [dropWhile]. destruct (p a) eqn:Ha; [| split; reflexivity].
  assert (Hac : isChar c a = false).
  { unfold isChar. destruct (Ascii.eqb a c) eqn:E; [| reflexivity].
    apply Ascii.eqb_eq in E. congruence. }
  cbn [existsb]. rewrite countChar_cons, Hac, IH1, IH2. split; reflexivity.
Qed.

Lemma rev_keeps (c : ascii) (s : str) :
  existsb (isChar c) (rev s) = existsb (isChar c) s
  /\ countChar c (rev s) = countChar c s.
Proof.
  split.
  - induction s as [| a s IH]; [reflexivity |].
    cbn [rev existsb]. rewrite existsb_app, IH. cbn [existsb].
    rewrite orb_false_r. apply orb_comm.
  - induction s as [| a s IH]; [reflexivity |].
    cbn [rev]. rewrite countChar_app, IH, !countChar_cons.
    unfold countChar at 2. cbn [filter length]. lia.
Qed.

Lemma trim_keeps (c : ascii) (s : str) :
  isSpace c = false ->
  existsb (isChar c) (trim s) = existsb (isChar c) s
  /\ countChar c (trim s) = countChar c s.
Proof.
  intros Hc. unfold trim.
  destruct (rev_keeps c (dropWhile isSpace (rev (dropWhile isSpace s))))
    as [-> ->].
  destruct (dropWhile_keeps isSpace c (rev (dropWhile isSpace s)) Hc)
    as [-> ->].
  destruct (rev_keeps c (dropWhile isSpace s)) as [-> ->].
  now apply dropWhile_keeps.
Qed.

(** [Number] rejects a text with a comma or with two points. *)
Lemma toNumber_points (s : str) :
  toNumber s <> NaN -> pointsAtMost 1 s.
Proof.
  unfold toNumber.
  destruct (numericLiteral (trim s)) as [l |] eqn:Hl; [| congruence].
  intros _. apply numericLiteral_points in Hl. destruct Hl as [Hcomma Hdot].
  destruct (trim_keeps "," s eq_refl) as [E1 _].
  destruct (trim_keeps "." s eq_refl) as [_ E2].
  split; congruence.
Qed.

Lemma toNumber_comma (s : str) :
  existsb (isChar ",") s = true -> toNumber s = NaN.
Proof.
  intros H. destruct (toNumber s) eqn:E; try reflexivity;
    assert (Hn : toNumber s <> NaN) by congruence;
    apply toNumber_points in Hn; destruct Hn; congruence.
Qed.

Lemma toNumber_two_points (s : str) :
  2 <= countChar "." s -> toNumber s = NaN.
Proof.
  intros H. destruct (toNumber s) eqn:E; try reflexivity;
    assert (Hn : toNumber s <> NaN) by congruence;
    apply toNumber_points in Hn; destruct Hn; lia.
Qed.

(** The code's [replace(",", ".")] and the replacement of every comma
    lead to the same outcome. *)
Lemma first_comma_suffices (s : str) :
  (if isEmpty (replaceStr (lit ",") (lit ".") s) then None
   else finiteOrNone (toNumber (replaceStr (lit ",") (lit ".") s)))
  = (if isEmpty (map commaToDot s) then None
     else finiteOrNone (toNumber (map commaToDot s))).
Proof.
  destruct (replaceStr_comma s) as [-> | [Hcomma Hpoints]]; [reflexivity |].
  rewrite (toNumber_comma _ Hcomma), (toNumber_two_points _ Hpoints).
  destruct (isEmpty _), (isEmpty _); reflexivity.
Qed.

(** The literal reading of the specification converts a lone apostrophe
    to zero, where the code returns no value. *)
Lemma parseDecimalInput_lone_apostrophe :
  parseDecimalInput (VString (lit "'")) = None
  /\ parseDecimalReference false (VString (lit "'")) = Some (ofZ 0).
Proof. vm_compute. split; reflexivity. Qed.

(** C4 (amended).  On every input [parseDecimalInput] returns what the
    reference algorithm returns once that algorithm also gives no value
    for a string left empty after the separators are struck out; the
    five sample strings parse to 1234.5, 1234.5, 12.5, 8.1 and 8.1, and
    the empty string and [null] give no value.  The function is total:
    it returns on every input. *)
Theorem parseDecimalInput_reference :
  (forall value, parseDecimalInput value = parseDecimalReference true value)
  /\ parseDecimalInput (VString (lit "1'234.50")) = Some (ofDecimal 12345 (-1))
  /\ parseDecimalInput (VString (lit "1.234,50")) = Some (ofDecimal 12345 (-1))
  /\ parseDecimalInput (VString (lit "12,5")) = Some (ofDecimal 125 (-1))
  /\ parseDecimalInput (VString (lit "8.1")) = Some (ofDecimal 81 (-1))
  /\ parseDecimalInput (VString (lit "  8,1 ")) = Some (ofDecimal 81 (-1))
  /\ parseDecimalInput (VString (lit "")) = None
  /\ parseDecimalInput VNull = None.
Proof.
  split; [| vm_compute; repeat split].
  intros [| | n | s |]; try reflexivity.
  unfold parseDecimalInput, parseDecimalReference, normalizeDecimal.
  destruct (isEmpty (trim s)); [reflexivity |].
  unfold SEPARATORS, DOT, Chr. rewrite !replaceAll_class.
  change (lit ",") with [","%char]. change (lit ".") with ["."%char].
  rewrite !includes_char. cbn [andb].
  set (stripped := filter _ (trim s)).
  assert (Hsame : forall u,
             match
               (if isEmpty (replaceStr [","%char] ["."%char] u) then None
                else Some (replaceStr [","%char] ["."%char] u))
             with
             | Some normalized => finiteOrNone (toNumber normalized)
             | None => None
             end
             = (if isEmpty (map commaToDot u) then None
                else finiteOrNone (toNumber (map commaToDot u)))).
  { intros u. rewrite <- first_comma_suffices.
    change (lit ",") with [","%char]. change (lit ".") with ["."%char].
    destruct (isEmpty _); reflexivity. }
  destruct (existsb (isChar ",") stripped && existsb (isChar ".") stripped);
    apply Hsame.
Qed.

(** ** The bound on the iterations of an unbounded quantifier *)

Section Bound.

Variable total : nat.

Lemma optionalLoop_ext (body : str -> caps -> cont -> option (caps * str))
  (k k' : cont) :
  (forall s c k1 k2,
     (forall s' c', k1 s' c' = k2 s' c') -> body s c k1 = body s c k2) ->
  (forall s c, k s c = k' s c) ->
  forall n s c, optionalLoop body k n s c = optionalLoop body k' n s c.
Proof.
  intros Hbody Hk. induction n as [| n IH]; intros s c; cbn [optionalLoop].
  - apply Hk.
  - rewrite Hk.
    rewrite (Hbody s c _
               (fun s' c' =>
                  if length s' <? length s then optionalLoop body k' n s' c'
                  else None)); [reflexivity |].
    intros s' c'. destruct (length s' <? length s); [apply IH | reflexivity].
Qed.

Lemma mandatoryLoop_ext (body : str -> caps -> cont -> option (caps * str))
  (after after' : cont) :
  (forall s c k1 k2,
     (forall s' c', k1 s' c' = k2 s' c') -> body s c k1 = body s c k2) ->
  (forall s c, after s c = after' s c) ->
  forall m s c,
    mandatoryLoop body after m s c = mandatoryLoop body after' m s c.
Proof.
  intros Hbody Hafter. induction m as [| m IH]; intros s c;
    cbn [mandatoryLoop]; [apply Hafter |].
  apply Hbody. intros s' c'. apply IH.
Qed.

(** [run] depends on its continuation only through the continuation's
    values. *)
Lemma run_ext (r : regex) (s : str) (c : caps) (k k' : cont) :
  (forall s' c', k s' c' = k' s' c') ->
  run total r s c k = run total r s c k'.
Proof.
  revert s c k k'.
  induction r as [| p | r1 IH1 r2 IH2 | r1 IH1 r2 IH2 | lo hi r IH
                  | n r IH | |]; intros s c k k' Hk; cbn [run].
  - apply Hk.
  - destruct s as [| a s]; [reflexivity |].
    destruct (p a); [apply Hk | reflexivity].
  - apply IH1. intros s' c'. now apply IH2.
  - rewrite (IH1 s c k k' Hk), (IH2 s c k k' Hk). reflexivity.
  - apply mandatoryLoop_ext; [exact IH |].
    intros s' c'. now apply optionalLoop_ext.
  - apply IH. intros s' c'. apply Hk.
  - destruct (length s =? total); [apply Hk | reflexivity].
  - destruct (isEmpty s); [apply Hk | reflexivity].
Qed.

(** Under a continuation that always fails, [run] fails. *)
Lemma run_none (r : regex) (s : str) (c : caps) (k : cont) :
  (forall s' c', k s' c' = None) -> run total r s c k = None.
Proof.
  intros Hk. destruct (run total r s c k) as [res |] eqn:H; [| reflexivity].
  apply run_sound in H. destruct H as [m [cs [rest [_ [_ H]]]]].
  rewrite Hk in H. discriminate.
Qed.

(** Any bound of at least the number of characters left gives the
    optional iterations the same outcome: the bound [length s] that
    [run] uses for a quantifier without upper bound never cuts a match
    short. *)
Theorem optionalLoop_enough (r : regex) (k : cont) (n m : nat) (s : str)
  (c : caps) :
  length s <= n -> length s <= m ->
  optionalLoop (run total r) k n s c = optionalLoop (run total r) k m s c.
Proof.
  revert m s c. induction n as [| n IH]; intros m s c Hn Hm.
  - destruct s; [| simpl in Hn; lia].
    destruct m as [| m]; [reflexivity |]. cbn [optionalLoop].
    rewrite run_none; [reflexivity |]. intros s' c'. reflexivity.
  - destruct m as [| m].
    + destruct s; [| simpl in Hm; lia]. cbn [optionalLoop].
      rewrite run_none; [reflexivity |]. intros s' c'. reflexivity.
    + cbn [optionalLoop].
      rewrite (run_ext r s c _
                 (fun s' c' =>
                    if length s' <? length s
                    then optionalLoop (run total r) k m s' c'
                    else None)); [reflexivity |].
      intros s' c'. destruct (length s' <? length s) eqn:Hlt; [| reflexivity].
      apply Nat.ltb_lt in Hlt. apply IH; lia.
Qed.

End Bound.

(** ** Runs of one character class *)

Section Runs.

Variable total : nat.
Variable p : ascii -> bool.

Lemma optionalLoop_class (n : nat) (s : str) (c : caps) :
  length s <= n ->
  optionalLoop (run total (Cls p)) (fun s' c' => Some (c', s')) n s c
  = Some (c, snd (span p s)).
Proof.
  revert s. induction n as [| n IH]; intros s Hn.
  - destruct s; [reflexivity | simpl in Hn; lia].
  - cbn [optionalLoop run]. destruct s as [| a s]; [reflexivity |].
    cbn [span]. destruct (p a); [| reflexivity].
    replace (length s <? length (a :: s)) with true
      by (symmetry; apply Nat.ltb_lt; simpl; lia).
    rewrite IH by (simpl in Hn; lia).
    destruct (span p s); reflexivity.
Qed.

(** A greedy [[...]+] consumes the whole run of class characters at the
    front, and fails when there is none. *)
Lemma matchAt_plus_class (s : str) :
  matchAt total (Plus (Cls p)) s
  = match span p s with
    | ([], _) => None
    | (_, rest) => Some ([], rest)
    end.
Proof.
  unfold matchAt, Plus. cbn [run mandatoryLoop].
  destruct s as [| a s]; [reflexivity |].
  cbn [span]. destruct (p a); [| reflexivity].
  rewrite optionalLoop_class by lia.
  destruct (span p s); reflexivity.
Qed.

End Runs.

Section Runs2.

Variable total : nat.
Variable p : ascii -> bool.

Lemma span_length (s : str) :
  length s - length (snd (span p s)) = length (fst (span p s)).
Proof.
  destruct (span p s) as [x y] eqn:H. apply span_spec in H.
  destruct H as [-> _]. simpl. rewrite length_app. lia.
Qed.

Lemma replaceGo_plus_class (rep : str) (s : str) :
  replaceGo total (Plus (Cls p)) rep 0 s = squeeze p rep false s
  /\ replaceGo total (Plus (Cls p)) rep (length (fst (span p s))) s
     = squeeze p rep true s.
Proof.
  induction s as [| a s [IH0 IH1]]; [split; reflexivity |].
  cbn [replaceGo squeeze]. rewrite matchAt_plus_class.
  pose proof (span_length (a :: s)) as Hlen. revert Hlen.
  cbn [span]. destruct (p a) eqn:Hp.
  - destruct (span p s) as [x y] eqn:Hs. cbn [fst snd length] in *.
    intros ->. cbn [pred]. rewrite IH1. split; reflexivity.
  - cbn [fst snd length]. intros _. rewrite IH0. split; reflexivity.
Qed.

End Runs2.

Lemma squeeze_chars (p : ascii -> bool) (rep : str) (f : bool) (s : str)
  (a : ascii) :
  In a (squeeze p rep f s) -> In a rep \/ (In a s /\ p a = false).
Proof.
  revert f. induction s as [| b s IH]; intros f; cbn [squeeze]; [intros [] |].
  destruct (p b) eqn:Hb.
  - assert (Hrec : In a (squeeze p rep true s) ->
                    In a rep \/ (In a (b :: s) /\ p a = false)).
    { intros H. apply IH in H. destruct H as [H | [H1 H2]];
        [now left | right; split; [now right | exact H2]]. }
    destruct f; [exact Hrec |].
    rewrite in_app_iff. intros [H | H]; [now left | now apply Hrec].
  - intros [<- | H]; [right; split; [now left | exact Hb] |].
    apply IH in H. destruct H as [H | [H1 H2]];
      [now left | right; split; [now right | exact H2]].
Qed.

Lemma squeeze_sparse (p : ascii -> bool) (d : ascii) (s : str) :
  p d = true ->
  sparse p (squeeze p [d] false s) = true
  /\ sparse p (squeeze p [d] true s) = true
  /\ (forall a t, squeeze p [d] true s = a :: t -> p a = false).
Proof.
  intros Hd. induction s as [| b s [IH0 [IH1 IHhd]]].
  - repeat split. intros a t H. discriminate H.
  - cbn [squeeze]. destruct (p b) eqn:Hb.
    + repeat split; [| exact IH1 | exact IHhd].
      cbn [app sparse]. rewrite IH1, andb_true_r.
      destruct (squeeze p [d] true s) as [| a t] eqn:E; [reflexivity |].
      now rewrite (IHhd a t eq_refl), andb_false_r.
    + assert (H : sparse p (b :: squeeze p [d] false s) = true).
      { cbn [sparse]. rewrite IH0, Hb. now destruct (squeeze p [d] false s). }
      repeat split; [exact H | exact H |].
      intros a t [= <- _]. exact Hb.
Qed.

Lemma sparse_app (p : ascii -> bool) (x y : str) :
  sparse p (x ++ y) = true -> sparse p x = true /\ sparse p y = true.
Proof.
  induction x as [| a x IH]; [now split |].
  cbn [app sparse]. intros H. apply andb_true_iff in H. destruct H as [H1 H2].
  destruct (IH H2) as [Hx Hy]. split; [| exact Hy].
  rewrite Hx, andb_true_r. destruct x as [| b x]; [reflexivity | exact H1].
Qed.

Lemma dropWhile_suffix (p : ascii -> bool) (s : str) :
  exists l, s = l ++ dropWhile p s.
Proof.
  induction s as [| a s [l IH]]; [now exists [] |].
  cbn [dropWhile]. destruct (p a); [| now exists []].
  exists (a :: l). simpl. now f_equal.
Qed.

Lemma dropWhile_head (p : ascii -> bool) (s : str) (a : ascii) (t : str) :
  dropWhile p s = a :: t -> p a = false.
Proof.
  induction s as [| b s IH]; cbn [dropWhile]; [discriminate |].
  destruct (p b) eqn:Hb; [exact IH |]. now intros [= <- _].
Qed.

Lemma dropWhile_last (p : ascii -> bool) (s : str) (h : ascii) :
  p h = false -> dropWhile p (s ++ [h]) = dropWhile p s ++ [h].
Proof.
  intros Hh. induction s as [| b s IH]; cbn [app dropWhile].
  - now rewrite Hh.
  - destruct (p b); [exact IH | reflexivity].
Qed.

(** [trim s] is a piece of [s] that neither starts nor ends with white
    space. *)
Lemma trim_piece (s : str) :
  (exists l r, s = l ++ trim s ++ r)
  /\ (forall a t, trim s = a :: t -> isSpace a = false)
  /\ (forall t a, trim s = t ++ [a] -> isSpace a = false).
Proof.
  unfold trim.
  destruct (dropWhile_suffix isSpace s) as [l Hl].
  set (u := dropWhile isSpace s) in *.
  destruct (dropWhile_suffix isSpace (rev u)) as [r Hr].
  set (v := dropWhile isSpace (rev u)) in *.
  assert (Hu : u = rev v ++ rev r).
  { rewrite <- rev_app_distr, <- Hr. symmetry. apply rev_involutive. }
  split; [exists l, (rev r); now rewrite <- Hu | split].
  - intros a t Ht.
    destruct u as [| h u'] eqn:Eu.
    + subst v. simpl in Ht. discriminate.
    + assert (Hh : isSpace h = false)
        by (apply (@dropWhile_head isSpace s h u'); exact Eu).
      subst v. cbn [rev] in Ht. rewrite dropWhile_last in Ht by exact Hh.
      rewrite rev_app_distr in Ht. simpl in Ht. now injection Ht as <- _.
  - intros t a Ht.
    assert (Hv : v = a :: rev t).
    { rewrite <- (rev_involutive v), Ht, rev_app_distr. reflexivity. }
    apply (@dropWhile_head isSpace (rev u) a (rev t)). exact Hv.
Qed.

(** ** Where a search finds its match *)

Lemma searchFrom_split (total : nat) (r : regex) (before s b m rest : str)
  (c : caps) :
  searchFrom total r before s = Some (b, m, c, rest) ->
  exists skipped,
    b = rev before ++ skipped
    /\ s = skipped ++ m ++ rest
    /\ matchAt total r (m ++ rest) = Some (c, rest).
Proof.
  revert before. induction s as [| a s IH]; intros before;
    rewrite searchFrom_step;
    match goal with
    | |- match matchAt _ _ ?x with _ => _ end = _ -> _ =>
        destruct (matchAt total r x) as [[c' rest'] |] eqn:Hm
    end;
    try discriminate.
  - destruct (matchAt_matched _ _ _ Hm) as [_ Hs]. revert Hs.
    set (found := firstn _ _). intros Hs [= <- <- <- <-].
    exists []. rewrite app_nil_r. cbn [app]. rewrite <- Hs. auto.
  - destruct (matchAt_matched _ _ _ Hm) as [_ Hs]. revert Hs.
    set (found := firstn _ _). intros Hs [= <- <- <- <-].
    exists []. rewrite app_nil_r. cbn [app]. rewrite <- Hs. auto.
  - intros H. apply IH in H. destruct H as [skipped [-> [-> H]]].
    exists (a :: skipped). cbn [rev]. rewrite <- app_assoc. auto.
Qed.

(** A match of an expression that ends in [$] reaches the end of the
    text. *)
Lemma matchAt_to_end (total : nat) (r : regex) (s rest : str) (c : caps) :
  matchAt total (r ;; Eol) s = Some (c, rest) -> rest = [].
Proof.
  unfold matchAt. cbn [run]. intros H. apply run_sound in H.
  destruct H as [m [cs [rest' [_ [_ H]]]]].
  destruct rest'; [| discriminate H]. now injection H as _ <-.
Qed.

(** Removing the leftmost match of such an expression leaves a front
    part of the text. *)
Lemma replaceFirst_to_end (r : regex) (s : str) :
  exists m, s = replaceFirst (r ;; Eol) [] s ++ m.
Proof.
  unfold replaceFirst, search.
  destruct (searchFrom (length s) (r ;; Eol) [] s)
    as [[[[b m] c] rest] |] eqn:H; [| exists []; now rewrite app_nil_r].
  apply searchFrom_split in H. destruct H as [skipped [-> [Hs Hm]]].
  apply matchAt_to_end in Hm. subst rest.
  exists m. rewrite Hs at 1. cbn [rev app]. now rewrite !app_nil_r.
Qed.

(** ** Normalized lines *)

Lemma normalizeOcrLine_piece (line : str) :
  exists l r,
    squeeze isSpace (lit " ") false
      (squeeze (isChar "|") (lit " ") false line)
    = l ++ normalizeOcrLine line ++ r.
Proof.
  unfold normalizeOcrLine, replaceAll, Chr.
  rewrite (proj1 (replaceGo_plus_class _ (isChar "|") (lit " ") line)).
  set (s1 := squeeze (isChar "|") (lit " ") false line).
  rewrite (proj1 (replaceGo_plus_class _ isSpace (lit " ") s1)).
  set (s2 := squeeze isSpace (lit " ") false s1).
  destruct (replaceFirst_to_end (Plus (Cls (oneOf ".,;:"))) s2) as [m Hm].
  set (s3 := replaceFirst _ [] s2) in *.
  destruct (trim_piece s3) as [[l [r Hs3]] _].
  exists l, (r ++ m). rewrite Hm, Hs3 at 1. now rewrite <- !app_assoc.
Qed.

Lemma normalizeOcrLine_chars (line : str) :
  Forall (fun a => isChar "|" a = false
                   /\ (isSpace a = true -> a = " "%char)
                   /\ (a = " "%char \/ In a line))
    (normalizeOcrLine line).
Proof.
  destruct (normalizeOcrLine_piece line) as [l [r Hs2]].
  apply Forall_forall. intros a Ha.
  assert (Hin : In a (squeeze isSpace (lit " ") false
                        (squeeze (isChar "|") (lit " ") false line)))
    by (rewrite Hs2, !in_app_iff; auto).
  apply squeeze_chars in Hin. destruct Hin as [[<- | []] | [Hin Hsp]].
  { repeat split; auto. }
  apply squeeze_chars in Hin. destruct Hin as [[<- | []] | [Hin Hbar]].
  { repeat split; auto. }
  repeat split; [exact Hbar | congruence | now right].
Qed.

Lemma normalizeOcrLine_ends (line : str) :
  (forall a t, normalizeOcrLine line = a :: t -> isSpace a = false)
  /\ (forall t a, normalizeOcrLine line = t ++ [a] -> isSpace a = false).
Proof.
  unfold normalizeOcrLine.
  match goal with |- context [trim ?s] =>
    destruct (trim_piece s) as [_ [Hhd Hlast]] end.
  split; assumption.
Qed.

(** X1.  A normalized line holds no vertical bar; its white space is
    single U+0020 characters, none of them at either end; and apart from
    that space it holds only characters of the line it came from. *)
Theorem normalizeOcrLine_tidy (line : str) :
  Forall (fun a => isChar "|" a = false
                   /\ (isSpace a = true -> a = " "%char)
                   /\ (a = " "%char \/ In a line))
    (normalizeOcrLine line)
  /\ sparse isSpace (normalizeOcrLine line) = true
  /\ (forall a t, normalizeOcrLine line = a :: t -> isSpace a = false)
  /\ (forall t a, normalizeOcrLine line = t ++ [a] -> isSpace a = false).
Proof.
  split; [apply normalizeOcrLine_chars | split].
  - destruct (normalizeOcrLine_piece line) as [l [r Hs2]].
    destruct (@squeeze_sparse isSpace " "%char
                (squeeze (isChar "|") (lit " ") false line) eq_refl)
      as [H _].
    change [" "%char] with (lit " ") in H. rewrite Hs2 in H.
    apply sparse_app in H. destruct H as [_ H].
    apply sparse_app in H. now destruct H as [H _].
  - apply normalizeOcrLine_ends.
Qed.

(** ** Pieces of a split *)

Lemma splitGo_chars (total : nat) (r : regex) (s : str) :
  forall skip cur,
    Forall (fun piece => forall a, In a piece -> In a cur \/ In a s)
      (splitGo total r skip cur s).
Proof.
  induction s as [| b s IH]; intros skip cur; cbn [splitGo].
  - constructor; [| constructor]. intros a Ha. left. now apply in_rev.
  - assert (Hcur : forall a, In a (rev cur) -> In a cur \/ In a (b :: s))
      by (intros a Ha; left; now apply in_rev).
    assert (Hweak : forall n cur',
               (forall a, In a cur' -> In a cur \/ In a (b :: s)) ->
               Forall (fun piece =>
                         forall a, In a piece -> In a cur \/ In a (b :: s))
                 (splitGo total r n cur' s)).
    { intros n cur' Hc. eapply Forall_impl; [| apply IH].
      intros piece Hp a Ha. simpl in Hp. destruct (Hp a Ha) as [H | H].
      - now apply Hc.
      - right. now right. }
    destruct skip as [| n]; [| apply Hweak; auto].
    destruct (matchAt total r (b :: s)) as [[c rest] |].
    + destruct (length (b :: s) - length rest).
      * destruct (isEmpty cur); [| constructor; [exact Hcur |]];
          apply Hweak; intros a [<- | []]; right; now left.
      * constructor; [exact Hcur |]. apply Hweak. intros a [].
    + apply Hweak. intros a [<- | H]; [right; now left | now left].
Qed.

Lemma split_chars (r : regex) (s : str) :
  Forall (fun piece => forall a, In a piece -> In a s) (split r s).
Proof.
  unfold split. destruct s as [| b s].
  - destruct (matchAt 0 r []); repeat constructor. intros a [].
  - eapply Forall_impl; [| apply splitGo_chars].
    intros piece Hp a Ha. simpl in Hp. destruct (Hp a Ha) as [[] | H].
    exact H.
Qed.

Lemma normalizeOcrLine_blank (line : str) :
  Forall (fun a => isSpace a = true) line -> normalizeOcrLine line = [].
Proof.
  intros Hline.
  pose proof (normalizeOcrLine_chars line) as Hchars.
  destruct (normalizeOcrLine_ends line) as [Hhd _].
  destruct (normalizeOcrLine line) as [| a t]; [reflexivity |].
  specialize (Hhd a t eq_refl).
  inversion Hchars as [| ? ? [_ [_ [-> | Hin]]] _]; subst.
  - discriminate Hhd.
  - rewrite Forall_forall in Hline. rewrite (Hline a Hin) in Hhd.
    discriminate.
Qed.

Lemma receiptLines_blank (text : str) :
  Forall (fun a => isSpace a = true) text -> receiptLines text = [].
Proof.
  intros Htext. unfold receiptLines.
  pose proof (split_chars LINE_BREAK text) as Hpieces.
  induction Hpieces as [| piece l Hp _ IH]; [reflexivity |].
  cbn [map filter]. rewrite normalizeOcrLine_blank; [exact IH |].
  apply Forall_forall. intros a Ha. rewrite Forall_forall in Htext.
  apply Htext, Hp, Ha.
Qed.

(** ** Completeness of the matcher *)

Lemma consuming_nonempty (r : regex) (m : str) (cs : caps) :
  Matches r m cs -> consuming r = true -> m <> [].
Proof.
  induction 1; cbn [consuming]; intros Hc; try discriminate.
  - apply orb_true_iff in Hc. intros E. apply app_eq_nil in E.
    destruct E as [E1 E2].
    destruct Hc as [Hc | Hc]; [now apply IHMatches1 | now apply IHMatches2].
  - apply andb_true_iff in Hc. now apply IHMatches.
  - apply andb_true_iff in Hc. now apply IHMatches.
  - now apply IHMatches.
  - apply andb_true_iff in Hc. destruct Hc as [_ Hc].
    intros E. apply app_eq_nil in E. destruct E as [E1 _].
    now apply IHMatches1.
Qed.

Section Completeness.

Variable total : nat.

Lemma optionalLoop_fallback
  (body : str -> caps -> cont -> option (caps * str)) (k : cont) (n : nat)
  (s : str) (c : caps) :
  k s c <> None -> optionalLoop body k n s c <> None.
Proof.
  intros Hk. destruct n as [| n]; cbn [optionalLoop]; [exact Hk |].
  destruct (body s c _); [discriminate | exact Hk].
Qed.

Lemma complete_optional (r : regex) :
  complete total r -> consuming r = true ->
  forall R m cs, Matches R m cs ->
  forall hi, R = Rep 0 hi r ->
  forall n rest c (k : cont),
    match hi with Some h => n = h | None => length (m ++ rest) <= n end ->
    (forall c', k rest c' <> None) ->
    optionalLoop (run total r) k n (m ++ rest) c <> None.
Proof.
  intros Hr Hcons R m cs HM.
  induction HM as [| | | | | | | | hi0 r0
                   | hi0 r0 m1 m2 c1 c2 Hhi HM1 _ HM2 IH2
                   | lo0 hi0 r0 m1 m2 c1 c2 HM1 _ HM2 _];
    intros hi E; try discriminate E.
  - intros n rest c k _ Hk. now apply optionalLoop_fallback.
  - injection E as -> ->. intros n rest c k Hn Hk.
    assert (Hm1 : m1 <> []) by (eapply consuming_nonempty; eassumption).
    assert (Hlen : length (m2 ++ rest) < length ((m1 ++ m2) ++ rest)).
    { rewrite <- app_assoc, (length_app m1).
      destruct m1; [congruence | simpl; lia]. }
    destruct n as [| n].
    { destruct hi as [h |]; [congruence | lia]. }
    cbn [optionalLoop].
    match goal with
    | |- match ?x with _ => _ end <> None =>
        assert (Hbody : x <> None); [| destruct x; congruence]
    end.
    rewrite <- app_assoc. apply (Hr m1 c1 HM1). intros c'.
    rewrite app_assoc.
    replace (length (m2 ++ rest) <? length ((m1 ++ m2) ++ rest))
      with true by (symmetry; now apply Nat.ltb_lt).
    apply (IH2 (option_map pred hi) eq_refl); [| exact Hk].
    destruct hi as [h |]; simpl; lia.
Qed.

Lemma complete_mandatory (r : regex) :
  complete total r -> consuming r = true ->
  forall lo hi m cs, Matches (Rep lo hi r) m cs ->
  forall rest c (k after : cont),
    (forall s c,
       after s c
       = optionalLoop (run total r) k
           (match hi with Some h => h - lo | None => length s end) s c) ->
    (forall c', k rest c' <> None) ->
    mandatoryLoop (run total r) after lo (m ++ rest) c <> None.
Proof.
  intros Hr Hcons. induction lo as [| lo IH];
    intros hi m cs HM rest c k after Hafter Hk; cbn [mandatoryLoop].
  - rewrite Hafter.
    apply (complete_optional Hr Hcons HM eq_refl); [| exact Hk].
    destruct hi as [h |]; lia.
  - inversion HM as [| | | | | | | | |
                     | lo0 hi0 r0 m1 m2 c1 c2 HM1 HM2]; subst.
    rewrite <- app_assoc. apply (Hr m1 c1 HM1). intros c'.
    apply (IH (option_map pred hi) m2 c2 HM2 rest c' k); [| exact Hk].
    intros s c0. rewrite Hafter. f_equal.
    destruct hi as [h |]; simpl; lia.
Qed.

Theorem run_complete (r : regex) :
  anchorFree r = true -> complete total r.
Proof.
  induction r as [| p | r1 IH1 r2 IH2 | r1 IH1 r2 IH2 | lo hi r IH
                  | n r IH | |]; cbn [anchorFree]; intros Hfree;
    try discriminate Hfree;
    try (apply andb_true_iff in Hfree; destruct Hfree as [Hf1 Hf2]);
    intros m cs HM rest c k Hk.
  - inversion HM; subst. exact (Hk c).
  - inversion HM; subst. cbn [app run].
    match goal with H : p _ = true |- _ => rewrite H end. exact (Hk c).
  - inversion HM as [| | ? ? m1 m2 c1 c2 HM1 HM2 | | | | | | | |]; subst.
    cbn [run]. rewrite <- app_assoc.
    apply (IH1 Hf1 _ _ HM1). intros c'. now apply (IH2 Hf2 _ _ HM2).
  - cbn [run].
    inversion HM as [| | | ? ? ? ? HM1 | ? ? ? ? HM2 | | | | | |]; subst.
    + assert (H : run total r1 (m ++ rest) c k <> None)
        by now apply (IH1 Hf1 _ _ HM1).
      destruct (run total r1 (m ++ rest) c k); congruence.
    + destruct (run total r1 (m ++ rest) c k); [discriminate |].
      now apply (IH2 Hf2 _ _ HM2).
  - cbn [run].
    apply (complete_mandatory (IH Hf1) Hf2 HM rest c k); [| exact Hk].
    reflexivity.
  - inversion HM as [| | | | | ? ? ? ? HM1 | | | | |]; subst.
    cbn [run]. apply (IH Hfree _ _ HM1). intros c'. apply Hk.
Qed.

End Completeness.

Lemma matchAt_complete (total : nat) (r : regex) (m rest : str) (cs : caps) :
  anchorFree r = true -> Matches r m cs ->
  matchAt total r (m ++ rest) <> None.
Proof.
  intros Hfree HM. unfold matchAt.
  apply (run_complete total Hfree HM). discriminate.
Qed.

Lemma searchFrom_complete (total : nat) (r : regex) (pre m rest : str)
  (cs : caps) :
  anchorFree r = true -> Matches r m cs ->
  forall before, searchFrom total r before (pre ++ m ++ rest) <> None.
Proof.
  intros Hfree HM. induction pre as [| a pre IH]; intros before;
    rewrite searchFrom_step.
  - pose proof (matchAt_complete total rest Hfree HM) as H.
    cbn [app]. destruct (matchAt total r (m ++ rest)) as [[c r'] |];
      [discriminate | congruence].
  - cbn [app]. destruct (matchAt total r _) as [[c r'] |];
      [discriminate | apply IH].
Qed.

(** For such an expression [test] says whether some piece of the text
    matches. *)
Lemma test_spec (r : regex) (s : str) :
  anchorFree r = true ->
  test r s = true <->
  exists pre m post cs, s = pre ++ m ++ post /\ Matches r m cs.
Proof.
  intros Hfree. unfold test, search. split.
  - destruct (searchFrom (length s) r [] s) as [[[[b m] c] rest] |] eqn:H;
      [intros _ | discriminate].
    apply searchFrom_sound in H. destruct H as [HM [skipped Hs]].
    now exists skipped, m, rest, c.
  - intros [pre [m [post [cs [-> HM]]]]].
    pose proof (@searchFrom_complete (length (pre ++ m ++ post)) r pre m post
                  cs Hfree HM []) as H.
    destruct (searchFrom _ r [] _); congruence.
Qed.

(** ** Keyword expressions and substring tests *)

Lemma isPrefix_spec (p s : str) :
  isPrefix p s = true <-> exists post, s = p ++ post.
Proof.
  revert s. induction p as [| a p IH]; intros s; cbn [isPrefix].
  - split; [intros _; now exists s | reflexivity].
  - destruct s as [| b s].
    + split; [discriminate | intros [post H]; discriminate H].
    + rewrite andb_true_iff, Ascii.eqb_eq, IH. split.
      * intros [-> [post ->]]. now exists post.
      * intros [post [= -> ->]]. split; [reflexivity | now exists post].
Qed.

Lemma includes_spec (s sub : str) :
  includes s sub = true <-> exists pre post, s = pre ++ sub ++ post.
Proof.
  induction s as [| a s IH]; cbn [includes].
  - rewrite orb_false_r, isPrefix_spec. split.
    + intros [post H]. now exists [], post.
    + intros [pre [post H]]. destruct pre; [now exists post |].
      discriminate H.
  - rewrite orb_true_iff, isPrefix_spec, IH. split.
    + intros [[post H] | [pre [post ->]]];
        [now exists [], post | now exists (a :: pre), post].
    + intros [pre [post H]]. destruct pre as [| b pre].
      * left. now exists post.
      * right. injection H as -> ->. now exists pre, post.
Qed.

Lemma allChars_all (a : ascii) : In a allChars.
Proof.
  unfold allChars. rewrite <- (ascii_nat_embedding a).
  apply in_map, in_seq. pose proof (nat_ascii_bounded a). lia.
Qed.

(** For a lower-case letter of the keyword lists, and for [@], matching
    under the [i] flag is equality after [toLowerCase]. *)
Lemma fold_lower (a c : ascii) :
  inRange 97 122 c || isChar "@" c = true ->
  Ascii.eqb (canonChar a) (canonChar c) = Ascii.eqb (lowerChar a) c.
Proof.
  assert (H : forallb
                (fun c =>
                   forallb
                     (fun a =>
                        implb (inRange 97 122 c || isChar "@" c)
                          (Bool.eqb (Ascii.eqb (canonChar a) (canonChar c))
                             (Ascii.eqb (lowerChar a) c)))
                     allChars)
                allChars = true) by (vm_compute; reflexivity).
  rewrite forallb_forall in H. specialize (H c (allChars_all c)).
  rewrite forallb_forall in H. specialize (H a (allChars_all a)).
  intros Hc. rewrite Hc in H. simpl in H. now apply eqb_prop.
Qed.

Lemma wordI_spec (w m : str) (cs : caps) :
  forallb (fun c => inRange 97 122 c || isChar "@" c) w = true ->
  Matches (catAll (map ChrI w)) m cs <-> cs = [] /\ toLowerCase m = w.
Proof.
  revert m cs. induction w as [| c w IH]; intros m cs Hw;
    cbn [map catAll fold_right].
  - split.
    + intros H. inversion H; subst. auto.
    + intros [-> H]. destruct m; [constructor | discriminate H].
  - cbn [forallb] in Hw. apply andb_true_iff in Hw. destruct Hw as [Hc Hw].
    fold (catAll (map ChrI w)). split.
    + intros H.
      inversion H as [| | ? ? m1 m2 c1 c2 H1 H2 | | | | | | | |]; subst.
      inversion H1 as [| p a Ha | | | | | | | | |]; subst.
      apply (IH _ _ Hw) in H2. destruct H2 as [-> <-].
      rewrite (@fold_lower a c Hc) in Ha. apply Ascii.eqb_eq in Ha.
      subst c. auto.
    + intros [-> H]. destruct m as [| a m]; [discriminate H |].
      injection H as Ha Hm.
      change (Matches (ChrI c ;; catAll (map ChrI w)) ([a] ++ m) ([] ++ [])).
      constructor.
      * constructor. rewrite (@fold_lower a c Hc). now apply Ascii.eqb_eq.
      * now apply IH.
Qed.

Lemma anyOf_spec (l : list regex) (m : str) (cs : caps) :
  Matches (anyOf l) m cs <-> exists r, In r l /\ Matches r m cs.
Proof.
  induction l as [| r l IH].
  - split.
    + intros H. inversion H; subst. discriminate.
    + intros [r [[] _]].
  - destruct l as [| r' l].
    + split; [intros H; exists r; simpl; auto |].
      intros [r0 [[<- | []] H]]. exact H.
    + change (anyOf (r :: r' :: l)) with (Alt r (anyOf (r' :: l))).
      split.
      * intros H.
        inversion H as [| | | ? ? ? ? HM | ? ? ? ? HM | | | | | |]; subst.
        -- exists r. simpl. auto.
        -- apply IH in HM. destruct HM as [r0 [Hin Hr0]].
           exists r0. split; [now right | exact Hr0].
      * intros [r0 [[<- | Hin] H]]; [now apply MatchesAltL |].
        apply MatchesAltR, IH. now exists r0.
Qed.

Lemma anchorFree_words (ws : list string) :
  anchorFree (anyOf (map WordI ws)) = true.
Proof.
  assert (Hw : forall w, anchorFree (WordI w) = true).
  { intros w. unfold WordI.
    induction (lit w) as [| c l IH]; [reflexivity | exact IH]. }
  induction ws as [| w ws IH]; [reflexivity |].
  destruct ws as [| w' ws]; [apply Hw |].
  change (anchorFree (WordI w) && anchorFree (anyOf (map WordI (w' :: ws)))
          = true).
  now rewrite Hw, IH.
Qed.

(** An alternation of keywords under the [i] flag is found in a text
    exactly when one of the keywords occurs in the lower-cased text. *)
Lemma test_keywords (n : nat) (ws : list string) (s : str) :
  forallb (fun w => forallb (fun c => inRange 97 122 c || isChar "@" c)
                      (lit w)) ws = true ->
  test (Grp n (anyOf (map WordI ws))) s
  = existsb (fun w => includes (toLowerCase s) (lit w)) ws.
Proof.
  intros Hws. apply eq_true_iff_eq.
  rewrite test_spec by apply anchorFree_words.
  rewrite existsb_exists. rewrite forallb_forall in Hws. split.
  - intros [pre [m [post [cs [-> H]]]]].
    inversion H as [| | | | | ? ? ? c HM | | | | |]; subst.
    apply anyOf_spec in HM. destruct HM as [r [Hin Hr]].
    apply in_map_iff in Hin. destruct Hin as [w [<- Hin]].
    apply (@wordI_spec (lit w) _ _ (Hws w Hin)) in Hr. destruct Hr as [_ Hm].
    exists w. split; [exact Hin |]. apply includes_spec.
    exists (toLowerCase pre), (toLowerCase post).
    unfold toLowerCase in *. now rewrite !map_app, Hm.
  - intros [w [Hin H]]. apply includes_spec in H.
    destruct H as [pre' [post' H]]. unfold toLowerCase in H.
    apply map_eq_app in H. destruct H as [pre [t [-> [_ H]]]].
    apply map_eq_app in H.
    destruct H as [m [post [-> [Hm _]]]].
    exists pre, m, post, [(n, m)]. split; [reflexivity |].
    constructor. apply anyOf_spec. exists (WordI w).
    split; [now apply in_map |].
    apply (@wordI_spec (lit w) _ _ (Hws w Hin)). auto.
Qed.

(** ** Keyword lines are noise lines *)

Lemma noise_not_used (line : str) :
  isNoiseLine line = true ->
  describes line = false /\ looksLikeItemLine line = false.
Proof.
  intros H. unfold describes, looksLikeItemLine. rewrite H.
  now rewrite andb_false_r, orb_true_r.
Qed.

Lemma includes_longer (s sub more : str) :
  includes s (sub ++ more) = true -> includes s sub = true.
Proof.
  rewrite !includes_spec. intros [pre [post ->]].
  exists pre, (more ++ post). now rewrite <- app_assoc.
Qed.

(** X4.  Every line that earns the keyword bonus of the amount search is
    a noise line: it is never taken as the description and never as an
    item. *)
Theorem hasKeyword_noise (line : str) :
  hasKeyword line = true ->
  isNoiseLine line = true
  /\ describes line = false
  /\ looksLikeItemLine line = false.
Proof.
  intros H.
  assert (Hn : isNoiseLine line = true); [| split; [exact Hn |]].
  - unfold hasKeyword in H. apply existsb_exists in H.
    destruct H as [kw [Hin Hkw]].
    unfold isNoiseLine. apply existsb_exists.
    assert (Hcases : In kw noiseKeywords \/ kw = lit "total" ++ lit "e").
    { unfold amountKeywords, noiseKeywords in *. cbn [map In] in *.
      intuition. }
    destruct Hcases as [Hk | ->].
    + now exists kw.
    + exists (lit "total"). split; [now left |].
      now apply includes_longer in Hkw.
  - now apply noise_not_used.
Qed.

(** X5.  The keyword test of the tax-rate search is the test whether
    the lower-cased line contains one of the four tax words, so every
    line that yields a tax rate is a noise line: it is never taken as
    the description and never as an item. *)
Theorem findMwstRate_noise_lines :
  (forall line,
     test TAX_KEYWORD_PATTERN line
     = existsb (fun w => includes (toLowerCase line) (lit w))
         ["mwst"; "ust"; "vat"; "iva"]%string)
  /\ (forall lines r,
        findMwstRate lines = Some r ->
        exists line,
          In line lines /\ lineRate line = Some r
          /\ isNoiseLine line = true
          /\ describes line = false
          /\ looksLikeItemLine line = false).
Proof.
  assert (Htest : forall line,
            test TAX_KEYWORD_PATTERN line
            = existsb (fun w => includes (toLowerCase line) (lit w))
                ["mwst"; "ust"; "vat"; "iva"]%string).
  { intros line. unfold TAX_KEYWORD_PATTERN.
    apply (test_keywords 1 ["mwst"; "ust"; "vat"; "iva"]%string).
    reflexivity. }
  split; [exact Htest |].
  intros lines r H. apply findMwstRate_source in H.
  destruct H as [line [Hin Hr]]. exists line.
  split; [exact Hin | split; [exact Hr |]].
  apply lineRate_keyword in Hr. destruct Hr as [Hk _].
  assert (Hn : isNoiseLine line = true).
  { rewrite Htest in Hk. apply existsb_exists in Hk.
    destruct Hk as [w [Hw Hinc]].
    unfold isNoiseLine. apply existsb_exists. exists (lit w).
    split; [| exact Hinc].
    unfold noiseKeywords. apply in_map. simpl in Hw |- *. intuition. }
  split; [exact Hn | now apply noise_not_used].
Qed.

(** ** The year-month-day pattern *)

Lemma four_digits (m : str) (c : caps) :
  Matches (Times 4 digit) m c ->
  exists y1 y2 y3 y4,
    m = [y1; y2; y3; y4] /\ isDigit y3 = true /\ isDigit y4 = true.
Proof.
  unfold Times, digit. intros H. invert_matches.
  repeat eexists; eassumption.
Qed.

Lemma one_or_two_digits (m : str) (c : caps) :
  Matches (Between 1 2 digit) m c ->
  (exists d, m = [d] /\ isDigit d = true)
  \/ (exists d1 d2, m = [d1; d2] /\ isDigit d1 = true /\ isDigit d2 = true).
Proof.
  unfold Between, digit. intros H. invert_matches;
    [left | right]; repeat eexists; eassumption.
Qed.

Lemma two_digits_year (d1 d2 : ascii) :
  isDigit d1 = true -> isDigit d2 = true ->
  Matches (Between 2 4 digit) [d1; d2] [].
Proof.
  intros H1 H2. unfold Between, digit.
  apply (@MatchesRepMust 1 (Some 4) _ [d1] [d2] [] []);
    [now constructor |].
  apply (@MatchesRepMust 0 (Some 3) _ [d2] [] [] []);
    [now constructor | constructor].
Qed.

Lemma two_digits_day (d1 d2 : ascii) :
  isDigit d1 = true -> isDigit d2 = true ->
  Matches (Between 1 2 digit) [d1; d2] [].
Proof.
  intros H1 H2. unfold Between, digit.
  apply (@MatchesRepMust 0 (Some 2) _ [d1] [d2] [] []);
    [now constructor |].
  apply (@MatchesRepMore (Some 1) _ [d2] [] [] []);
    [discriminate | now constructor | constructor].
Qed.

(** X6.  The day-month-year pattern is tried first, and it also matches
    inside a year-month-day date whose day has two digits.  So the
    year-month-day pattern decides a line only when the day it captures
    is a single digit; the line ["2024-03-05"] is read as the 24th of
    March 2005. *)
Theorem lineDate_ymd_day :
  (forall line b m rest c,
     search DATE_DMY line = None ->
     search DATE_YMD line = Some (b, m, c, rest) ->
     exists d, group 3 c = Some [d] /\ isDigit d = true)
  /\ findDate [lit "2024-03-05"] = Some (lit "2005-03-24")
  /\ findDate [lit "2024-03-5"] = Some (lit "2024-03-05").
Proof.
  split; [| split; reflexivity].
  intros line b m rest c Hdmy Hymd. unfold search in Hymd.
  apply searchFrom_sound in Hymd. destruct Hymd as [HM [skipped Hline]].
  unfold DATE_YMD in HM.
  inversion HM as [| | ? ? g1 t1 c1 ct1 Hg1 Ht1 | | | | | | | |]; subst.
  inversion Ht1 as [| | ? ? s1 t2 cs1 ct2 Hs1 Ht2 | | | | | | | |]; subst.
  inversion Ht2 as [| | ? ? g2 t3 c2 ct3 Hg2 Ht3 | | | | | | | |]; subst.
  inversion Ht3 as [| | ? ? s2 g3 cs2 c3 Hs2 Hg3 | | | | | | | |]; subst.
  inversion Hg1 as [| | | | | ? ? ? k1 Hy | | | | |]; subst.
  inversion Hg2 as [| | | | | ? ? ? k2 Hmo | | | | |]; subst.
  inversion Hg3 as [| | | | | ? ? ? k3 Hd | | | | |]; subst.
  destruct (one_or_two_digits Hd) as [[d [-> Hdig]] | [d1 [d2 [-> [Hd1 Hd2]]]]].
  { exists d. cbn [app group Nat.eqb]. auto. }
  exfalso.
  destruct (four_digits Hy) as [y1 [y2 [y3 [y4 [-> [Hy3 Hy4]]]]]].
  assert (Hfound : test DATE_DMY
                     ((skipped ++ [y1; y2])
                      ++ ([y3; y4] ++ s1 ++ g2 ++ s2 ++ [d1; d2]) ++ rest)
                   = true).
  { apply test_spec; [reflexivity |].
    exists (skipped ++ [y1; y2]), ([y3; y4] ++ s1 ++ g2 ++ s2 ++ [d1; d2]),
      rest. eexists. split; [reflexivity |].
    unfold DATE_DMY.
    apply MatchesCat; [constructor; now apply two_digits_day |].
    apply MatchesCat; [exact Hs1 |].
    apply MatchesCat; [exact Hg2 |].
    apply MatchesCat; [exact Hs2 |].
    constructor. now apply two_digits_year. }
  unfold test in Hfound.
  replace ((skipped ++ [y1; y2])
           ++ ([y3; y4] ++ s1 ++ g2 ++ s2 ++ [d1; d2]) ++ rest)
    with (skipped
          ++ ([y1; y2; y3; y4] ++ s1 ++ g2 ++ s2 ++ [d1; d2]) ++ rest)
    in Hfound by (rewrite <- !app_assoc; reflexivity).
  rewrite Hdmy in Hfound. discriminate.
Qed.

(** ** The amount: the first candidate of the highest score *)

Lemma ltb_cotrans (x y z : number) :
  y <> NaN -> ltb x z = true -> ltb x y = true \/ ltb y z = true.
Proof.
  destruct x as [| | | a], y as [| | | b], z as [| | | d]; simpl;
    intros Hy H; try discriminate H; try congruence; auto.
  apply Z.ltb_lt in H.
  destruct (a <? b)%Z eqn:Hab; [now left | right].
  apply Z.ltb_ge in Hab. apply Z.ltb_lt. lia.
Qed.

Section SortedHead.

Variable A : Type.
Variable sc : A -> number.

Lemma insertBy_head (x : A) (l : list A) :
  hd_error (insertBy (fun a b => fsub (sc b) (sc a)) x l)
  = match hd_error l with
    | Some y => if ltb (sc x) (sc y) then Some y else Some x
    | None => Some x
    end.
Proof.
  destruct l as [| y l]; cbn [insertBy hd_error]; [reflexivity |].
  rewrite fsub_sign. now destruct (ltb (sc x) (sc y)).
Qed.

(** The head of the sorted list is the first element that no element
    outscores. *)
Lemma sortBy_head (l : list A) :
  Forall (fun a => sc a <> NaN) l ->
  hd_error (sortBy (fun a b => fsub (sc b) (sc a)) l)
  = find (unbeaten sc l) l.
Proof.
  induction 1 as [| x l Hx Hl IH]; [reflexivity |].
  cbn [sortBy fold_right]. fold (sortBy (fun a b => fsub (sc b) (sc a)) l).
  assert (Hsome : l <> [] -> find (unbeaten sc l) l <> None).
  { rewrite <- IH. destruct l as [| z l']; [congruence | intros _].
    cbn [sortBy fold_right].
    destruct (fold_right _ _ l') as [| y t]; cbn [insertBy];
      [| destruct (ltb _ _)]; discriminate. }
  rewrite insertBy_head, IH. clear IH.
  cbn [find]. unfold unbeaten at 2. cbn [forallb].
  rewrite ltb_irrefl. cbn [negb andb]. fold (unbeaten sc l x).
  destruct (find (unbeaten sc l) l) as [y |] eqn:Hy.
  - apply find_first in Hy. destruct Hy as [pre [post [Hl' [Hy Hpre]]]].
    assert (Hiny : In y l) by (rewrite Hl'; apply in_or_app; right; now left).
    assert (Hyn : sc y <> NaN)
      by (rewrite Forall_forall in Hl; now apply Hl).
    unfold unbeaten in Hy. rewrite forallb_forall in Hy.
    destruct (ltb (sc x) (sc y)) eqn:Hxy.
    + replace (unbeaten sc l x) with false.
      * symmetry. apply find_first. exists pre, post.
        split; [exact Hl' | split].
        -- unfold unbeaten. cbn [forallb].
           rewrite (ltb_asym _ _ Hxy). cbn [negb andb].
           now apply forallb_forall.
        -- eapply Forall_impl; [| exact Hpre].
           intros z Hz. simpl in Hz. unfold unbeaten in *. cbn [forallb].
           rewrite Hz. apply andb_false_r.
      * symmetry. apply not_true_is_false. intros Hu.
        unfold unbeaten in Hu. rewrite forallb_forall in Hu.
        specialize (Hu y Hiny). rewrite Hxy in Hu. discriminate.
    + replace (unbeaten sc l x) with true; [reflexivity |].
      symmetry. apply forallb_forall. intros z Hz.
      apply negb_true_iff, not_true_is_false. intros Hxz.
      destruct (ltb_cotrans (sc x) (sc z) Hyn Hxz) as [H | H].
      * congruence.
      * specialize (Hy z Hz). rewrite H in Hy. discriminate.
  - destruct l as [| z l]; [reflexivity |].
    exfalso. apply Hsome; [discriminate | reflexivity].
Qed.

End SortedHead.

Lemma lineScore_ordered (line : str) (parsed : number) :
  nonneg parsed -> lineScore line parsed <> NaN.
Proof.
  intros H. apply nonneg_not_NaN. unfold lineScore.
  assert (H1 : nonneg (if hasKeyword line then fadd parsed (ofZ 1000)
                       else parsed)).
  { destruct (hasKeyword line); [| exact H].
    apply fadd_nonneg; [exact H | now apply ofZ_nonneg]. }
  destruct (hasChf line); [| exact H1].
  apply fadd_nonneg; [exact H1 | now apply ofZ_nonneg].
Qed.

Lemma candidates_ordered (lines : list str) :
  Forall (fun c => score c <> NaN) (flat_map lineCandidates lines).
Proof.
  apply Forall_forall. intros c Hc.
  apply in_flat_map in Hc. destruct Hc as [line [_ Hc]].
  unfold lineCandidates in Hc. apply in_flat_map in Hc.
  destruct Hc as [raw [_ Hc]].
  pose proof (tokenCandidates_positive _ _ _ Hc) as [Hfin Hpos].
  unfold tokenCandidates in Hc.
  destruct (parseDecimalInput (VString raw)) as [parsed |]; [| destruct Hc].
  destruct (negb (truthy parsed) || leb parsed (ofZ 0)); [destruct Hc |].
  destruct Hc as [<- | []]. cbn [score value] in *.
  apply lineScore_ordered.
  destruct parsed as [| | | k]; try discriminate Hfin.
  rewrite ofZ_0 in Hpos. simpl in *. apply Z.ltb_lt in Hpos. lia.
Qed.

(** X3.  The amount is the value of the first candidate, in the order
    of the lines and of the tokens on a line, that no candidate
    outscores; there is no amount exactly when there is no candidate. *)
Theorem findAmount_first_maximum (lines : list str) :
  findAmount lines
  = option_map value
      (find (unbeaten score (flat_map lineCandidates lines))
         (flat_map lineCandidates lines))
  /\ (findAmount lines = None <-> flat_map lineCandidates lines = []).
Proof.
  pose proof (sortBy_head score (candidates_ordered lines)) as Hhead.
  change (fun a b : candidate => fsub (score b) (score a))
    with byScoreDesc in Hhead.
  unfold findAmount. rewrite <- Hhead.
  split.
  - destruct (sortBy byScoreDesc _); reflexivity.
  - destruct (flat_map lineCandidates lines) as [| c l]; [tauto |].
    cbn [sortBy fold_right].
    destruct (fold_right _ _ l) as [| y t]; cbn [insertBy];
      [| destruct (ltb _ _)]; split; intros H; discriminate H.
Qed.

(** ** Laws of the locale parser *)

Lemma dropWhile_split (p : ascii -> bool) (s : str) :
  exists l, s = l ++ dropWhile p s /\ forallb p l = true.
Proof.
  induction s as [| a s [l [IH Hl]]]; [now exists [] |].
  cbn [dropWhile]. destruct (p a) eqn:Ha; [| now exists []].
  exists (a :: l). cbn [forallb app]. rewrite Ha, Hl. split; [| reflexivity].
  now f_equal.
Qed.

Lemma forallb_rev (p : ascii -> bool) (s : str) :
  forallb p (rev s) = forallb p s.
Proof.
  induction s as [| a s IH]; [reflexivity |].
  cbn [rev forallb]. rewrite forallb_app, IH. cbn [forallb].
  rewrite andb_true_r. apply andb_comm.
Qed.

(** [trim] removes white space only. *)
Lemma trim_split (s : str) :
  exists l r,
    s = l ++ trim s ++ r
    /\ forallb isSpace l = true /\ forallb isSpace r = true.
Proof.
  unfold trim.
  destruct (dropWhile_split isSpace s) as [l [Hl Hsl]].
  set (u := dropWhile isSpace s) in *.
  destruct (dropWhile_split isSpace (rev u)) as [r [Hr Hsr]].
  set (v := dropWhile isSpace (rev u)) in *.
  exists l, (rev r). rewrite forallb_rev. repeat split; try assumption.
  rewrite <- rev_app_distr, <- Hr, rev_involutive. exact Hl.
Qed.

Lemma filter_spaces (p : ascii -> bool) (l : str) :
  (forall a, isSpace a = true -> p a = false) ->
  forallb isSpace l = true -> filter p l = [].
Proof.
  intros Hp. induction l as [| a l IH]; [reflexivity |].
  cbn [forallb filter]. intros H. apply andb_true_iff in H.
  destruct H as [Ha Hl]. now rewrite (Hp a Ha), IH.
Qed.

Lemma filter_trim (p : ascii -> bool) (s : str) :
  (forall a, isSpace a = true -> p a = false) ->
  filter p (trim s) = filter p s.
Proof.
  intros Hp. destruct (trim_split s) as [l [r [Hs [Hl Hr]]]].
  rewrite Hs at 2. rewrite !filter_app.
  now rewrite (filter_spaces _ _ Hp Hl), (filter_spaces _ _ Hp Hr), app_nil_r.
Qed.

Lemma dropWhile_none (p : ascii -> bool) (s : str) :
  forallb (fun a => negb (p a)) s = true -> dropWhile p s = s.
Proof.
  destruct s as [| a s]; [reflexivity |]. cbn [forallb dropWhile].
  intros H. apply andb_true_iff in H. destruct H as [Ha _].
  apply negb_true_iff in Ha. now rewrite Ha.
Qed.

Lemma trim_none (s : str) :
  forallb (fun a => negb (isSpace a)) s = true -> trim s = s.
Proof.
  intros H. unfold trim. rewrite (dropWhile_none _ _ H).
  rewrite dropWhile_none by now rewrite forallb_rev.
  apply rev_involutive.
Qed.

Lemma filter_all (p : ascii -> bool) (s : str) :
  forallb p s = true -> filter p s = s.
Proof.
  induction s as [| a s IH]; [reflexivity |]. cbn [forallb filter].
  intros H. apply andb_true_iff in H. destruct H as [Ha Hs].
  now rewrite Ha, IH.
Qed.

Lemma filter_twice (p : ascii -> bool) (s : str) :
  forallb p (filter p s) = true.
Proof.
  induction s as [| a s IH]; [reflexivity |]. cbn [filter].
  destruct (p a) eqn:Ha; [| exact IH]. cbn [forallb]. now rewrite Ha.
Qed.

(** [normalizeDecimal] on a text without separators. *)
Lemma normalizeDecimal_stripped (t : str) :
  forallb (fun a => negb (isSpace a || isChar "'" a)) t = true ->
  normalizeDecimal t
  = if isEmpty t then None
    else
      let pointed :=
        replaceStr (lit ",") (lit ".")
          (if existsb (isChar ",") t && existsb (isChar ".") t
           then filter (fun a => negb (isChar "." a)) t else t) in
      if isEmpty pointed then None else Some pointed.
Proof.
  intros Ht. unfold normalizeDecimal.
  rewrite trim_none.
  - destruct (isEmpty t); [reflexivity |].
    unfold SEPARATORS, DOT, Chr. rewrite !replaceAll_class.
    rewrite (filter_all _ _ Ht).
    change (lit ",") with [","%char]. change (lit ".") with ["."%char].
    rewrite !includes_char.
    now destruct (existsb (isChar ",") t && existsb (isChar ".") t).
  - rewrite forallb_forall in *. intros a Ha. specialize (Ht a Ha).
    apply negb_true_iff in Ht. apply orb_false_iff in Ht.
    apply negb_true_iff. tauto.
Qed.

Lemma normalizeDecimal_separators (s : str) :
  normalizeDecimal s
  = normalizeDecimal (filter (fun a => negb (isSpace a || isChar "'" a)) s).
Proof.
  set (keep := fun a => negb (isSpace a || isChar "'" a)).
  assert (Hkeep : forall a, isSpace a = true -> keep a = false)
    by (intros a Ha; unfold keep; now rewrite Ha).
  rewrite (normalizeDecimal_stripped (filter keep s) (filter_twice keep s)).
  unfold normalizeDecimal.
  destruct (isEmpty (trim s)) eqn:Hempty.
  - destruct (trim s) eqn:Htrim; [| discriminate].
    rewrite <- (filter_trim keep s Hkeep), Htrim. reflexivity.
  - unfold SEPARATORS, DOT, Chr. rewrite !replaceAll_class.
    fold keep. rewrite (filter_trim keep s Hkeep).
    change (lit ",") with [","%char]. change (lit ".") with ["."%char].
    rewrite !includes_char.
    destruct (filter keep s) as [| a t] eqn:Hf.
    + reflexivity.
    + cbn [isEmpty]. cbv zeta.
      now destruct (existsb (isChar ",") (a :: t)
                    && existsb (isChar ".") (a :: t)).
Qed.

(** X7.  White space and apostrophes are ignored wherever they stand:
    a text and the text without them parse alike. *)
Theorem parseDecimalInput_separators (s : str) :
  parseDecimalInput (VString s)
  = parseDecimalInput
      (VString (filter (fun a => negb (isSpace a || isChar "'" a)) s)).
Proof.
  cbn [parseDecimalInput]. rewrite <- normalizeDecimal_separators.
  reflexivity.
Qed.

Lemma existsb_filter (p q : ascii -> bool) (s : str) :
  (forall a, p a = true -> q a = true) ->
  existsb p (filter q s) = existsb p s.
Proof.
  intros Hpq. induction s as [| a s IH]; [reflexivity |].
  cbn [filter existsb]. destruct (q a) eqn:Hq; cbn [existsb];
    rewrite IH; [reflexivity |].
  destruct (p a) eqn:Hp; [| reflexivity].
  rewrite (Hpq a Hp) in Hq. discriminate.
Qed.

Lemma filter_comm (p q : ascii -> bool) (s : str) :
  filter p (filter q s) = filter q (filter p s).
Proof.
  induction s as [| a s IH]; [reflexivity |]. cbn [filter].
  destruct (p a) eqn:Hp, (q a) eqn:Hq; cbn [filter];
    rewrite ?Hp, ?Hq, IH; reflexivity.
Qed.

Lemma filter_removes (p : ascii -> bool) (s : str) :
  existsb p (filter (fun a => negb (p a)) s) = false.
Proof.
  induction s as [| a s IH]; [reflexivity |]. cbn [filter].
  destruct (p a) eqn:Hp; cbn [negb existsb]; [exact IH |].
  now rewrite Hp, IH.
Qed.

Lemma replaceStr_none (s : str) :
  existsb (isChar ",") s = false ->
  replaceStr (lit ",") (lit ".") s = s.
Proof.
  change (lit ",") with [","%char]. change (lit ".") with ["."%char].
  induction s as [| a s IH]; [reflexivity |].
  rewrite replaceStr_char. cbn [existsb]. intros H.
  apply orb_false_iff in H. destruct H as [Ha Hs].
  now rewrite Ha, IH.
Qed.

Lemma commaToDot_no_comma (s : str) :
  existsb (isChar ",") (map commaToDot s) = false.
Proof.
  induction s as [| a s IH]; [reflexivity |]. cbn [map existsb].
  rewrite IH, orb_false_r. unfold commaToDot.
  destruct (isChar "," a) eqn:Ha; [reflexivity | exact Ha].
Qed.

Lemma filter_commaToDot (s : str) :
  filter (fun a => negb (isSpace a || isChar "'" a)) (map commaToDot s)
  = map commaToDot (filter (fun a => negb (isSpace a || isChar "'" a)) s).
Proof.
  set (keep := fun a => negb (isSpace a || isChar "'" a)).
  induction s as [| a s IH]; [reflexivity |]. cbn [map filter].
  assert (Ha : keep (commaToDot a) = keep a).
  { unfold commaToDot. destruct (isChar "," a) eqn:E; [| reflexivity].
    unfold isChar in E. apply Ascii.eqb_eq in E. subst a. reflexivity. }
  rewrite Ha, IH. now destruct (keep a).
Qed.

(** X8.  The decimal marks: in a text that holds a comma every point is
    ignored, as a thousands separator is; and in a text without a point
    a comma stands for the point. *)
Theorem parseDecimalInput_marks :
  (forall s,
     existsb (isChar ",") s = true ->
     parseDecimalInput (VString s)
     = parseDecimalInput (VString (filter (fun a => negb (isChar "." a)) s)))
  /\ (forall s,
        existsb (isChar ".") s = false ->
        parseDecimalInput (VString s)
        = parseDecimalInput (VString (map commaToDot s))).
Proof.
  set (keep := fun a => negb (isSpace a || isChar "'" a)).
  set (noDot := fun a => negb (isChar "." a)).
  split; intros s Hs.
  - cbn [parseDecimalInput].
    rewrite (normalizeDecimal_separators s).
    rewrite (normalizeDecimal_separators (filter noDot s)).
    fold keep. rewrite (filter_comm keep noDot s).
    assert (Hcomma : existsb (isChar ",") (filter keep s) = true).
    { rewrite existsb_filter; [exact Hs |].
      intros a Ha. unfold isChar in Ha. apply Ascii.eqb_eq in Ha.
      subst a. reflexivity. }
    assert (Hkeep : forallb keep (filter keep s) = true)
      by apply filter_twice.
    set (t := filter keep s) in *.
    assert (Hcomma' : existsb (isChar ",") (filter noDot t) = true).
    { rewrite existsb_filter; [exact Hcomma |].
      intros a Ha. unfold isChar in Ha. apply Ascii.eqb_eq in Ha.
      subst a. reflexivity. }
    assert (Hkeep' : forallb keep (filter noDot t) = true).
    { rewrite forallb_forall in *. intros a Ha.
      apply filter_In in Ha. now apply Hkeep. }
    cbn [parseDecimalInput].
    rewrite (normalizeDecimal_stripped t Hkeep).
    rewrite (normalizeDecimal_stripped (filter noDot t) Hkeep').
    assert (Hclean : existsb (isChar ".") (filter noDot t) = false)
      by apply filter_removes.
    rewrite Hcomma, Hcomma', Hclean. cbn [andb]. cbv zeta.
    destruct t as [| a t']; [discriminate Hcomma |].
    destruct (filter noDot (a :: t')) as [| b u] eqn:Hu;
      [discriminate Hcomma' |].
    cbn [isEmpty]. rewrite <- Hu.
    destruct (existsb (isChar ".") (a :: t')) eqn:Hdot; [reflexivity |].
    rewrite (filter_all noDot (a :: t')); [reflexivity |].
    apply forallb_forall. intros c Hc. unfold noDot.
    apply negb_true_iff, not_true_is_false. intros Hcd.
    assert (existsb (isChar ".") (a :: t') = true)
      by (apply existsb_exists; now exists c).
    congruence.
  - cbn [parseDecimalInput].
    rewrite (normalizeDecimal_separators s).
    rewrite (normalizeDecimal_separators (map commaToDot s)).
    fold keep. unfold keep at 2. rewrite filter_commaToDot. fold keep.
    assert (Hdot : existsb (isChar ".") (filter keep s) = false).
    { rewrite existsb_filter; [exact Hs |].
      intros a Ha. unfold isChar in Ha. apply Ascii.eqb_eq in Ha.
      subst a. reflexivity. }
    assert (Hkeep : forallb keep (filter keep s) = true)
      by apply filter_twice.
    set (t := filter keep s) in *.
    assert (Hkeep' : forallb keep (map commaToDot t) = true).
    { rewrite <- (filter_all keep t Hkeep). unfold keep at 2, t.
      rewrite <- filter_commaToDot. apply filter_twice. }
    cbn [parseDecimalInput].
    rewrite (normalizeDecimal_stripped t Hkeep).
    rewrite (normalizeDecimal_stripped (map commaToDot t) Hkeep').
    rewrite Hdot, commaToDot_no_comma, andb_false_r. cbn [andb]. cbv zeta.
    rewrite (replaceStr_none _ (commaToDot_no_comma t)).
    pose proof (first_comma_suffices t) as Hfirst.
    destruct t as [| a t']; [reflexivity |]. cbn [isEmpty map].
    cbn [isEmpty map] in Hfirst.
    destruct (isEmpty (replaceStr (lit ",") (lit ".") (a :: t')));
      exact Hfirst.
Qed.

(** ** The shape of a date *)

Lemma digitVal_range (a : ascii) :
  isDigit a = true -> (0 <= digitVal a <= 9)%Z.
Proof.
  unfold isDigit, inRange, digitVal. rewrite andb_true_iff.
  rewrite !N.leb_le. lia.
Qed.

Lemma digitsZ_bound (ds : str) :
  forallb isDigit ds = true ->
  (0 <= digitsZ 10 digitVal ds < 10 ^ Z.of_nat (length ds))%Z.
Proof.
  unfold digitsZ.
  assert (H : forall acc,
             forallb isDigit ds = true -> (0 <= acc)%Z ->
             (0 <= fold_left (fun acc a => acc * 10 + digitVal a) ds acc
              < (acc + 1) * 10 ^ Z.of_nat (length ds))%Z).
  { induction ds as [| a ds IH]; intros acc Hds Hacc.
    - simpl. lia.
    - cbn [forallb] in Hds. apply andb_true_iff in Hds.
      destruct Hds as [Ha Hds]. apply digitVal_range in Ha.
      cbn [fold_left length]. rewrite Nat2Z.inj_succ, Z.pow_succ_r by lia.
      specialize (IH (acc * 10 + digitVal a)%Z Hds ltac:(lia)).
      assert (0 < 10 ^ Z.of_nat (length ds))%Z
        by (apply Z.pow_pos_nonneg; lia).
      nia. }
  intros Hds. specialize (H 0%Z Hds ltac:(lia)). lia.
Qed.

(** What a quantified class can match: class characters, no more than
    the upper bound allows. *)
Lemma class_run (p : ascii -> bool) (R : regex) (m : str) (c : caps) :
  Matches R m c ->
  forall lo h, R = Rep lo (Some h) (Cls p) -> lo <= h ->
  forallb p m = true /\ length m <= h.
Proof.
  induction 1 as [| | | | | | | | hi0 r0
                  | hi0 r0 m1 m2 c1 c2 Hhi HM1 _ HM2 IH2
                  | lo0 hi0 r0 m1 m2 c1 c2 HM1 _ HM2 IH2];
    intros lo h E Hle; try discriminate E.
  - split; [reflexivity | simpl; lia].
  - injection E as <- -> ->. inversion HM1; subst.
    destruct h as [| h]; [congruence |].
    destruct (IH2 0 h eq_refl ltac:(lia)) as [Hp Hlen].
    cbn [app forallb length]. split; [| lia].
    apply andb_true_iff. auto.
  - injection E as <- -> ->. inversion HM1; subst.
    destruct h as [| h]; [lia |].
    destruct (IH2 lo0 h eq_refl ltac:(lia)) as [Hp Hlen].
    cbn [app forallb length]. split; [| lia].
    apply andb_true_iff. auto.
Qed.

Lemma numberOfDigits_bound (lo h : nat) (m : str) (c : caps) :
  Matches (Rep lo (Some h) digit) m c -> lo <= h ->
  (numberOfDigits m < 10 ^ N.of_nat h)%N.
Proof.
  intros HM Hle.
  destruct (class_run HM eq_refl Hle) as [Hd Hlen].
  pose proof (digitsZ_bound m Hd) as [H0 H1]. unfold numberOfDigits.
  assert (10 ^ Z.of_nat (length m) <= 10 ^ Z.of_nat h)%Z
    by (apply Z.pow_le_mono_r; lia).
  apply N2Z.inj_lt. rewrite Z2N.id by assumption.
  rewrite N2Z.inj_pow, nat_N_Z. simpl Z.of_N. lia.
Qed.

Lemma date_groups (r1 r2 r3 : regex) (m : str) (c : caps) :
  groupFree r1 = true -> groupFree r2 = true -> groupFree r3 = true ->
  Matches (Grp 1 r1 ;; dateSep ;; Grp 2 r2 ;; dateSep ;; Grp 3 r3) m c ->
  exists g1 g2 g3,
    Matches r1 g1 [] /\ Matches r2 g2 [] /\ Matches r3 g3 []
    /\ c = [(3, g3); (2, g2); (1, g1)].
Proof.
  intros F1 F2 F3 HM.
  inversion HM as [| | ? ? g1 t1 c1 ct1 Hg1 Ht1 | | | | | | | |]; subst.
  inversion Ht1 as [| | ? ? s1 t2 cs1 ct2 Hs1 Ht2 | | | | | | | |]; subst.
  inversion Ht2 as [| | ? ? g2 t3 c2 ct3 Hg2 Ht3 | | | | | | | |]; subst.
  inversion Ht3 as [| | ? ? s2 g3 cs2 c3 Hs2 Hg3 | | | | | | | |]; subst.
  inversion Hg1 as [| | | | | ? ? ? k1 H1 | | | | |]; subst.
  inversion Hg2 as [| | | | | ? ? ? k2 H2 | | | | |]; subst.
  inversion Hg3 as [| | | | | ? ? ? k3 H3 | | | | |]; subst.
  pose proof (groupFree_caps H1 F1). pose proof (groupFree_caps H2 F2).
  pose proof (groupFree_caps H3 F3).
  pose proof (groupFree_caps Hs1 eq_refl).
  pose proof (groupFree_caps Hs2 eq_refl). subst.
  exists g1, g2, g3. auto.
Qed.

Lemma lineDate_bound (line : str) (y mo da : N) :
  lineDate line = Some (y, mo, da) ->
  (y <= 9999 /\ mo <= 99 /\ da <= 99)%N.
Proof.
  unfold lineDate.
  destruct (search DATE_DMY line) as [[[[b m] c] rest] |] eqn:Hdmy.
  - apply search_sound in Hdmy.
    apply date_groups in Hdmy; try reflexivity.
    destruct Hdmy as [g1 [g2 [g3 [H1 [H2 [H3 ->]]]]]].
    unfold groupNumber. cbn [group Nat.eqb].
    apply numberOfDigits_bound in H1, H2, H3; try lia.
    change (10 ^ N.of_nat 2)%N with 100%N in *.
    change (10 ^ N.of_nat 4)%N with 10000%N in *.
    intros [= <- <- <-].
    destruct (numberOfDigits g3 <? 100)%N eqn:Hy.
    + apply N.ltb_lt in Hy. destruct (70 <=? numberOfDigits g3)%N; lia.
    + lia.
  - destruct (search DATE_YMD line) as [[[[b m] c] rest] |] eqn:Hymd;
      [| discriminate].
    apply search_sound in Hymd.
    apply date_groups in Hymd; try reflexivity.
    destruct Hymd as [g1 [g2 [g3 [H1 [H2 [H3 ->]]]]]].
    unfold groupNumber. cbn [group Nat.eqb].
    apply numberOfDigits_bound in H1, H2, H3; try lia.
    change (10 ^ N.of_nat 2)%N with 100%N in *.
    change (10 ^ N.of_nat 4)%N with 10000%N in *.
    intros [= <- <- <-]. lia.
Qed.

Lemma padStart2_two (n : N) :
  (n <= 99)%N ->
  padStart2 (decimal n) = [chr (48 + n / 10); chr (48 + n mod 10)].
Proof.
  intros Hn.
  assert (H : forallb
                (fun k => let n := N.of_nat k in
                          if list_eq_dec ascii_dec (padStart2 (decimal n))
                               [chr (48 + n / 10); chr (48 + n mod 10)]
                          then true else false)
                (seq 0 100) = true) by (vm_compute; reflexivity).
  rewrite forallb_forall in H. specialize (H (N.to_nat n)).
  rewrite Nnat.N2Nat.id in H. cbv zeta in H.
  destruct (list_eq_dec _ _ _) as [E | _]; [exact E |].
  assert (false = true); [| discriminate].
  apply H, in_seq. lia.
Qed.

Lemma findDate_source (lines : list str) (d : str) :
  findDate lines = Some d ->
  exists line y mo da,
    In line lines /\ lineDate line = Some (y, mo, da)
    /\ toIsoDate y mo da = Some d.
Proof.
  induction lines as [| l lines IH]; cbn [findDate]; [discriminate |].
  destruct (lineDate l) as [[[y mo] da] |] eqn:Hl.
  - intros H. exists l, y, mo, da. simpl. auto.
  - intros H. destruct (IH H) as [line [y [mo [da [Hin H']]]]].
    exists line, y, mo, da. simpl. auto.
Qed.

(** X9.  A date, when there is one, is the year without leading zeros
    (1 to 9999), a hyphen, the month as two digits, a hyphen and the day
    as two digits, month and day between 1 and 99. *)
Theorem findDate_shape (lines : list str) (d : str) :
  findDate lines = Some d ->
  exists y mo da,
    (1 <= y <= 9999)%N /\ (1 <= mo <= 99)%N /\ (1 <= da <= 99)%N
    /\ d = decimal y ++ lit "-"
           ++ [chr (48 + mo / 10); chr (48 + mo mod 10)] ++ lit "-"
           ++ [chr (48 + da / 10); chr (48 + da mod 10)].
Proof.
  intros H. apply findDate_source in H.
  destruct H as [line [y [mo [da [_ [Hline Hiso]]]]]].
  apply lineDate_bound in Hline. destruct Hline as [Hy [Hmo Hda]].
  unfold toIsoDate in Hiso.
  destruct (y =? 0)%N eqn:Ey; [discriminate |].
  destruct (mo =? 0)%N eqn:Emo; [discriminate |].
  destruct (da =? 0)%N eqn:Eda; [discriminate |].
  apply N.eqb_neq in Ey, Emo, Eda. cbn [orb] in Hiso.
  injection Hiso as <-. exists y, mo, da.
  repeat split; try lia.
  unfold isoDate. cbv zeta. now rewrite !padStart2_two by assumption.
Qed.

(** X10.  When the first line with a date match yields a zero day,
    month or year, there is no date, whatever the later lines hold. *)
Theorem findDate_zero_stops (pre post : list str) (line : str)
  (y mo da : N) :
  Forall (fun l => lineDate l = None) pre ->
  lineDate line = Some (y, mo, da) ->
  y = 0%N \/ mo = 0%N \/ da = 0%N ->
  findDate (pre ++ line :: post) = None.
Proof.
  intros Hpre Hline Hzero. rewrite findDate_skips by assumption.
  cbn [findDate]. rewrite Hline. unfold toIsoDate.
  destruct Hzero as [-> | [-> | ->]]; cbn [N.eqb orb];
    rewrite ?orb_true_r; reflexivity.
Qed.

(** X2.  A text of white space only, the empty text among them, gives
    no line and so the empty suggestion. *)
Theorem parseReceiptText_blank (text : str) :
  Forall (fun a => isSpace a = true) text ->
  receiptLines text = []
  /\ parseReceiptText text = Build_OcrSuggestion None None None None None.
Proof.
  intros H. apply receiptLines_blank in H.
  unfold parseReceiptText. rewrite H. split; reflexivity.
Qed.
(** ** Words *)

Lemma splitGo_plus_class (total : nat) (p : ascii -> bool) (s : str) :
  forall skip cur,
    skip <= length (fst (span p s)) ->
    forallb (fun a => negb (p a)) cur = true ->
    Forall (fun piece => forallb (fun a => negb (p a)) piece = true)
      (splitGo total (Plus (Cls p)) skip cur s).
Proof.
  induction s as [| b s IH]; intros skip cur Hskip Hcur; cbn [splitGo].
  - constructor; [| constructor]. now rewrite forallb_rev.
  - assert (Hrev : forallb (fun a => negb (p a)) (rev cur) = true)
      by now rewrite forallb_rev.
    rewrite matchAt_plus_class.
    pose proof (span_length p (b :: s)) as Hlen. revert Hskip Hlen.
    cbn [span]. destruct (p b) eqn:Hb.
    + destruct (span p s) as [x y] eqn:Hs. cbn [fst snd length] in *.
      intros Hskip ->.
      destruct skip as [| n].
      * constructor; [exact Hrev |].
        apply IH; [lia | reflexivity].
      * apply IH; [lia | exact Hcur].
    + cbn [fst snd length]. intros Hskip _.
      destruct skip as [| n]; [| lia].
      apply IH; [lia |]. cbn [forallb]. now rewrite Hb, Hcur.
Qed.

Lemma split_plus_class (p : ascii -> bool) (s : str) :
  Forall (fun piece => forallb (fun a => negb (p a)) piece = true)
    (split (Plus (Cls p)) s).
Proof.
  unfold split. destruct s as [| b s].
  - destruct (matchAt 0 (Plus (Cls p)) []); repeat constructor.
  - apply splitGo_plus_class; [lia | reflexivity].
Qed.

(** X12.  A token has more than two characters, all of them lower-case
    letters [a] to [z] or digits. *)
Theorem tokenise_words (value : str) :
  Forall (fun word =>
            2 < length word
            /\ forallb (fun a => inRange 97 122 a || isDigit a) word = true)
    (tokenise value).
Proof.
  unfold tokenise, NON_WORD. apply Forall_forall. intros word Hin.
  apply filter_In in Hin. destruct Hin as [Hin Hlen].
  apply Nat.ltb_lt in Hlen. split; [exact Hlen |].
  pose proof (split_plus_class
                (fun a => negb (inRange 97 122 a || isDigit a))
                (normalizeText value)) as H.
  rewrite Forall_forall in H. specialize (H word Hin).
  rewrite forallb_forall in *. intros a Ha. specialize (H a Ha).
  now apply negb_true_iff, negb_false_iff in H.
Qed.
(** ** A text without words *)

Lemma replaceGo_class_with (total : nat) (p : ascii -> bool) (rep s : str) :
  replaceGo total (Cls p) rep 0 s
  = flat_map (fun a => if p a then rep else [a]) s.
Proof.
  induction s as [| a s IH]; [reflexivity |].
  cbn [replaceGo flat_map]. unfold matchAt. cbn [run].
  destruct (p a).
  - replace (length (a :: s) - length s) with 1 by (cbn [length]; lia).
    cbn [pred]. now rewrite IH.
  - now rewrite IH.
Qed.

Lemma replaceAll_absent (c : ascii) (rep s : str) :
  existsb (isChar c) s = false -> replaceAll (Chr c) rep s = s.
Proof.
  intros H. unfold replaceAll, Chr. rewrite replaceGo_class_with.
  induction s as [| a s IH]; [reflexivity |].
  cbn [existsb] in H. apply orb_false_iff in H. destruct H as [Ha Hs].
  cbn [flat_map]. now rewrite Ha, IH.
Qed.

Lemma lowerChar_other (a : ascii) :
  isLetter a = false -> lowerChar a = a.
Proof.
  assert (H : forallb (fun a => isLetter a
                                || if ascii_dec (lowerChar a) a
                                   then true else false) allChars = true)
    by (vm_compute; reflexivity).
  rewrite forallb_forall in H. specialize (H a (allChars_all a)).
  intros Ha. rewrite Ha in H. cbn [orb] in H.
  now destruct (ascii_dec (lowerChar a) a).
Qed.

Lemma normalizeText_no_letter (text : str) :
  forallb (fun a => negb (isLetter a || isDigit a)) text = true ->
  normalizeText text = text.
Proof.
  intros H.
  assert (Hl : forall a, In a text -> isLetter a = false).
  { rewrite forallb_forall in H. intros a Ha. specialize (H a Ha).
    apply negb_true_iff, orb_false_iff in H. tauto. }
  assert (Hlow : toLowerCase text = text).
  { unfold toLowerCase. rewrite <- (map_id text) at 2.
    apply map_ext_in. intros a Ha. now apply lowerChar_other, Hl. }
  assert (Habs : forall c, isLetter c = true ->
                           existsb (isChar c) text = false).
  { intros c Hc. apply not_true_is_false. intros Hex.
    apply existsb_exists in Hex. destruct Hex as [a [Ha Hac]].
    unfold isChar in Hac. apply Ascii.eqb_eq in Hac. subst a.
    rewrite (Hl c Ha) in Hc. discriminate. }
  unfold normalizeText. rewrite Hlow.
  rewrite (@replaceAll_absent (chr 228) (lit "ae") text)
    by (apply Habs; reflexivity).
  rewrite (@replaceAll_absent (chr 246) (lit "oe") text)
    by (apply Habs; reflexivity).
  rewrite (@replaceAll_absent (chr 252) (lit "ue") text)
    by (apply Habs; reflexivity).
  apply replaceAll_absent, Habs. reflexivity.
Qed.

Lemma includes_member (s sub : str) (a : ascii) :
  includes s sub = true -> In a sub -> In a s.
Proof.
  rewrite includes_spec. intros [pre [post ->]] Ha.
  apply in_or_app. right. apply in_or_app. now left.
Qed.

Lemma filter_none (A : Type) (f : A -> bool) (l : list A) :
  (forall x, In x l -> f x = false) -> filter f l = [].
Proof.
  induction l as [| x l IH]; intros H; [reflexivity |]. cbn [filter].
  rewrite (H x (or_introl eq_refl)). apply IH. intros y Hy. apply H.
  now right.
Qed.

Lemma categoryScore_no_word (haystack : str) (category : Category) :
  forallb (fun a => negb (isLetter a || isDigit a)) haystack = true ->
  categoryScore haystack category = ofZ 0.
Proof.
  intros H. rewrite forallb_forall in H.
  assert (Hout : forall kw a,
             In a kw -> isLetter a || isDigit a = true ->
             includes haystack kw = false).
  { intros kw a Ha Hword. apply not_true_is_false. intros Hinc.
    specialize (H a (includes_member _ _ _ Hinc Ha)).
    rewrite Hword in H. discriminate. }
  rewrite categoryScore_points.
  unfold CategorySpec.wordPoints, CategorySpec.hintPoints.
  rewrite !filter_none; [reflexivity | |].
  - intros h Hh. unfold CategorySpec.hintApplies.
    apply andb_false_iff. right. apply not_true_is_false. intros Hex.
    apply existsb_exists in Hex. destruct Hex as [kw [Hin Hinc]].
    assert (Hkw : forallb (fun h => forallb (existsb isLetter)
                                      (keywordTerms h)) categoryHints
                  = true) by (vm_compute; reflexivity).
    rewrite forallb_forall in Hkw. specialize (Hkw h Hh).
    rewrite forallb_forall in Hkw. specialize (Hkw kw Hin).
    apply existsb_exists in Hkw. destruct Hkw as [a [Ha Hlet]].
    rewrite (Hout kw a Ha) in Hinc; [discriminate |].
    now rewrite Hlet.
  - intros word Hword. unfold CategorySpec.words, tokenise in Hword.
    apply filter_In in Hword. destruct Hword as [Hword Hlen].
    apply Nat.ltb_lt in Hlen.
    match type of Hword with
    | In _ (split _ ?text) =>
        pose proof (split_plus_class
                      (fun a => negb (inRange 97 122 a || isDigit a)) text)
          as Hpieces
    end.
    rewrite Forall_forall in Hpieces. specialize (Hpieces word Hword).
    destruct word as [| a word]; [simpl in Hlen; lia |].
    cbn [forallb] in Hpieces. apply andb_true_iff in Hpieces.
    destruct Hpieces as [Ha _]. apply negb_true_iff, negb_false_iff in Ha.
    apply (Hout (a :: word) a); [now left |].
    apply orb_true_iff in Ha. apply orb_true_iff.
    destruct Ha as [Ha | Ha]; [left | now right].
    unfold isLetter. now rewrite Ha, orb_true_r.
Qed.

Lemma suggestCategoryId_scoreless (text : str) (categories : list Category) :
  (forall c, categoryScore (normalizeText text) c = ofZ 0) ->
  suggestCategoryId text categories = None.
Proof.
  intros H. unfold suggestCategoryId, suggestCategoryIdTraced.
  destruct (isEmpty text || (length categories =? 0)); [reflexivity |].
  rewrite visit_fold_none.
  destruct (filter is_active categories) as [| b l]; [reflexivity |].
  cbn [fst]. rewrite H.
  assert (Hfloor : leb (ofZ 2) (ofZ 0) = false) by (vm_compute; reflexivity).
  now rewrite Hfloor.
Qed.

(** X13.  A text without any letter or digit, a blank text among them,
    gets no category suggestion. *)
Theorem suggestCategoryId_no_word (text : str) (categories : list Category) :
  forallb (fun a => negb (isLetter a || isDigit a)) text = true ->
  suggestCategoryId text categories = None.
Proof.
  intros H. apply suggestCategoryId_scoreless. intros c.
  rewrite (normalizeText_no_letter text H).
  now apply categoryScore_no_word.
Qed.

(** ** The recognition service is asked only with a key *)

Lemma runOnlineOcr_no_key (w : World) (source : OcrSource)
  (options : OcrRunOptions) (log : list Event) :
  usableKey options = [] ->
  runOnlineOcr w source options log
  = (inl (lit "Kein API-Schluessel fuer Online-OCR"), log ++ [RemotePath]).
Proof.
  unfold usableKey, runOnlineOcr, bind, emit, throw. intros ->. reflexivity.
Qed.

(** X14.  Without a key that is non-empty after trimming, no request is
    sent in any mode: [online] fails with the missing-key message, and
    [auto] and [offline] return what the local engine gives, [auto]
    after entering the remote path when a key of white space only is
    configured and the host is on line. *)
Theorem runReceiptOcr_no_key (w : World) (source : OcrSource)
  (options : OcrRunOptions) :
  usableKey options = [] ->
  ~ In RemoteRequest (snd (runReceiptOcr w source options []))
  /\ (mode options = ModeOnline ->
      runReceiptOcr w source options []
      = (inl (lit "Kein API-Schluessel fuer Online-OCR"), [RemotePath]))
  /\ (mode options <> ModeOnline ->
      runReceiptOcr w source options []
      = offlineResult w source options
          (if wantsOnline w options then [RemotePath] else [])).
Proof.
  intros Hkey.
  assert (Hrun : runReceiptOcr w source options []
                 = if wantsOnline w options then
                     match mode options with
                     | ModeOnline =>
                         (inl (lit "Kein API-Schluessel fuer Online-OCR"),
                          [RemotePath])
                     | _ => offlineResult w source options [RemotePath]
                     end
                   else offlineResult w source options []).
  { unfold runReceiptOcr. destruct (wantsOnline w options); [| reflexivity].
    unfold tryCatch, bind at 1.
    rewrite (@runOnlineOcr_no_key w source options [] Hkey).
    destruct (mode options); reflexivity. }
  split; [| split].
  - rewrite Hrun.
    destruct (wantsOnline w options), (mode options);
      rewrite ?offlineResult_run; simpl; intuition discriminate.
  - intros Hmode. rewrite Hrun. unfold wantsOnline. now rewrite Hmode.
  - intros Hmode. rewrite Hrun.
    destruct (wantsOnline w options); [| reflexivity].
    destruct (mode options); congruence.
Qed.

(** X15.  The method of a result names the engine that produced its
    text: an [online] result holds the parsed text of a successful
    answer of the service, asked with the trimmed key and with ["ita"]
    for the Italian interface and ["ger"] otherwise, and the local engine
    was not run; an [offline] result holds the text of the local
    engine. *)
Theorem runReceiptOcr_method (w : World) (source : OcrSource)
  (options : OcrRunOptions) (res : OcrResult) (log : list Event) :
  runReceiptOcr w source options [] = (inr res, log) ->
  match method res with
  | MethodOnline =>
      usableKey options <> []
      /\ (exists message parsed,
            service w (usableKey options)
              (match uiLanguage options with
               | Some LangIt => lit "ita"
               | _ => lit "ger"
               end) source
            = Status true false message parsed
            /\ text res = match parsed with Some t => t | None => [] end)
      /\ log = [RemotePath; RemoteRequest]
  | MethodOffline =>
      engine w source = inr (text res) /\ In LocalPath log
  end.
Proof.
  assert (Hoff : forall l,
            offlineResult w source options l = (inr res, log) ->
            method res = MethodOffline
            /\ engine w source = inr (text res) /\ In LocalPath log).
  { intros l. rewrite offlineResult_run.
    destruct (engine w source) as [e | t]; [discriminate |].
    intros [= <- <-]. cbn [method text]. repeat split.
    apply in_or_app. right. now left. }
  unfold runReceiptOcr.
  destruct (wantsOnline w options).
  - unfold tryCatch, bind at 1, runOnlineOcr, bind, emit, throw, ret.
    fold (usableKey options). cbn [app].
    destruct (usableKey options) as [| a key] eqn:Hkey; cbn [isEmpty].
    + destruct (mode options); try discriminate;
        intros H; apply Hoff in H; destruct H as [-> H]; exact H.
    + destruct (service w (a :: key) _ source)
        as [reason | ok isErrored message parsed] eqn:Hs.
      * destruct (mode options); try discriminate;
          intros H; apply Hoff in H; destruct H as [-> H]; exact H.
      * destruct ok; cbn [negb];
          [destruct isErrored |];
          try (destruct (mode options); try discriminate;
               intros H; apply Hoff in H; destruct H as [-> H]; exact H).
        intros [= <- <-]. cbn [method text].
        split; [discriminate | split; [| reflexivity]].
        now exists message, parsed.
  - intros H. apply Hoff in H. destruct H as [-> H]. exact H.
Qed.

(** ** The largest tax rate *)

Lemma rateToken_syntax (m : str) (c : caps) :
  Matches rateToken m c -> rateSyntax m = true.
Proof.
  unfold rateToken, Between, Opt, digit. intros H.
  invert_matches; simpl app;
    repeat match goal with
      | H : isDigit _ = true |- _ => apply isDigit_in in H
      | H : oneOf _ _ = true |- _ => apply isMark_in in H
      end;
    auto using rate_one_digit, rate_two_digits, rate_one_digit_fraction,
      rate_two_digits_fraction.
Qed.

Lemma percentToken_syntax (line raw : str) :
  percentToken line = Some raw -> rateSyntax raw = true.
Proof.
  unfold percentToken.
  destruct (search PERCENT_PATTERN line) as [[[[b m] c] rest] |] eqn:Hs;
    [| discriminate].
  apply search_sound in Hs. unfold PERCENT_PATTERN in Hs.
  inversion Hs as [| | r1 r2 m1 m2 c1 c2 H1 H2 | | | | | | | |]; subst.
  apply groupFree_caps in H2; [| reflexivity]. subst c2.
  inversion H1; subst. simpl.
  intros [= <-]. eapply rateToken_syntax; eassumption.
Qed.

Lemma ofRatio_fin (a d k : Z) :
  ofRatio false a d = Fin k -> k = roundRatio a d.
Proof.
  unfold ofRatio. destruct (_ <=? maxFin)%Z; [| discriminate].
  now intros [= <-].
Qed.

Lemma rate_max_fin :
  ofDecimal 999 (-1) = Fin (roundRatio (999 * 2 ^ unit_exp) 10).
Proof.
  unfold ofDecimal. cbn [Z.leb Z.compare]. unfold ofRatio.
  change (10 ^ (- -1))%Z with 10%Z.
  replace (roundRatio (999 * 2 ^ unit_exp) 10 <=? maxFin)%Z with true
    by (vm_compute; reflexivity).
  reflexivity.
Qed.

(** The double of 99.9 is not below any double obtained from at most
    three digits with one after the point, or from at most two digits. *)
Lemma ofDecimal_rate_max (n e : Z) :
  (0 <= n)%Z ->
  (e = -1 /\ n <= 999)%Z \/ (e = 0 /\ n <= 99)%Z ->
  leb (ofDecimal n e) (ofDecimal 999 (-1)) = true.
Proof.
  intros Hn He.
  destruct (ofDecimal_rate Hn He) as [k [Hk Hrange]].
  rewrite Hk, rate_max_fin. cbn [leb]. apply Z.leb_le.
  assert (H1 : (((998 * 2 ^ unit_exp) / 10 + 1) * (2 ^ 52 + 1)
                <=? roundRatio (999 * 2 ^ unit_exp) 10 * 2 ^ 52)%Z = true)
    by (vm_compute; reflexivity).
  apply Z.leb_le in H1.
  assert (HX : (0 < 2 ^ unit_exp)%Z)
    by (apply Z.pow_pos_nonneg; unfold unit_exp; lia).
  assert (H52 : (0 < 2 ^ 52)%Z) by reflexivity.
  set (X := (2 ^ unit_exp)%Z) in *.
  set (K := roundRatio (999 * X) 10) in *.
  destruct He as [[-> Hle] | [-> Hle]].
  - unfold ofDecimal in Hk. cbn [Z.leb Z.compare] in Hk.
    change (10 ^ (- -1))%Z with 10%Z in Hk. fold X in Hk.
    apply ofRatio_fin in Hk. subst k.
    destruct (Z.eq_dec n 999) as [-> | Hne]; [apply Z.le_refl |].
    assert (Ha : (0 <= n * X)%Z) by nia.
    pose proof (@roundRatio_upper (n * X) 10 Ha ltac:(lia)) as Hup.
    assert (Hq : (n * X / 10 <= 998 * X / 10)%Z)
      by (apply Z.div_le_mono; nia).
    set (Q := (n * X / 10)%Z) in *. set (Q' := (998 * X / 10)%Z) in *.
    set (kn := roundRatio (n * X) 10) in *.
    assert (Hq0 : (0 <= Q)%Z) by (apply Z.div_pos; lia).
    assert ((Q + 1) * (2 ^ 52 + 1) <= (Q' + 1) * (2 ^ 52 + 1))%Z by nia.
    nia.
  - unfold ofDecimal in Hk. cbn [Z.leb Z.compare] in Hk.
    change (10 ^ 0)%Z with 1%Z in Hk. rewrite Z.mul_1_r in Hk. fold X in Hk.
    unfold ofUnits in Hk.
    assert (Ha : (0 <= n * X)%Z) by nia.
    replace (n * X <? 0)%Z with false in Hk
      by (symmetry; apply Z.ltb_ge; lia).
    rewrite Z.abs_eq in Hk by assumption.
    apply ofRatio_fin in Hk. subst k.
    pose proof (@roundRatio_upper (n * X) 1 Ha ltac:(lia)) as Hup.
    rewrite Z.div_1_r in Hup.
    assert (Hq : (99 * X + 1 <= 998 * X / 10 + 1)%Z).
    { assert (99 * X <= 998 * X / 10)%Z; [| lia].
      apply Z.div_le_lower_bound; lia. }
    set (kn := roundRatio (n * X) 1) in *.
    set (Q' := (998 * X / 10)%Z) in *.
    assert ((n * X + 1) * (2 ^ 52 + 1) <= (Q' + 1) * (2 ^ 52 + 1))%Z by nia.
    nia.
Qed.

Lemma rateSyntax_max (raw : str) (r : number) :
  rateSyntax raw = true ->
  parseDecimalInput (VString raw) = Some r ->
  leb r (ofDecimal 999 (-1)) = true.
Proof.
  unfold rateSyntax, parseDecimalInput, toNumber.
  destruct (normalizeDecimal raw) as [t |]; [| discriminate].
  destruct (numericLiteral (trim t)) as [[neg | [] n e | z] |];
    try discriminate.
  rewrite andb_true_iff, orb_true_iff, !andb_true_iff.
  rewrite !Z.leb_le, !Z.eqb_eq. intros [Hn He].
  unfold literalValue, finiteOrNone.
  destruct (isFinite (ofDecimal n e)); [| discriminate].
  intros [= <-]. now apply ofDecimal_rate_max.
Qed.

(** X16.  A tax rate, when there is one, lies between 0 and 99.9, the
    largest rate the expense form accepts. *)
Theorem findMwstRate_max (lines : list str) (r : number) :
  findMwstRate lines = Some r ->
  leb (ofZ 0) r = true /\ leb r (ofDecimal 999 (-1)) = true.
Proof.
  intros H. split; [now apply findMwstRate_range in H |].
  apply findMwstRate_source in H. destruct H as [line [_ H]].
  apply lineRate_keyword in H. destruct H as [_ [raw [Htoken Hparse]]].
  apply percentToken_syntax in Htoken.
  eapply rateSyntax_max; eassumption.
Qed.

(** ** Item lines *)

Lemma scanAll_class (total : nat) (p : ascii -> bool) (s : str) :
  scanAll total (Cls p) 0 s = map (fun a => [a]) (filter p s).
Proof.
  induction s as [| a s IH]; [reflexivity |].
  cbn [scanAll filter]. unfold matchAt. cbn [run].
  destruct (p a); [| exact IH].
  replace (length (a :: s) - length s) with 1 by (cbn [length]; lia).
  cbn [firstn length pred map]. now rewrite IH.
Qed.

Lemma matchAll_class (p : ascii -> bool) (s : str) :
  length (matchAll (Cls p) s) = length (filter p s).
Proof. unfold matchAll. now rewrite scanAll_class, length_map. Qed.

(** X17.  An item line is a line of more than three characters with at
    least two letters and at most twice as many digits as letters that
    is not a noise line and whose lower-cased text contains none of
    [tel], [fax], [www], [http] and [@]. *)
Theorem looksLikeItemLine_spec (line : str) :
  looksLikeItemLine line
  = (3 <? length line)
    && (2 <=? length (filter isLetter line))
    && (length (filter isDigit line) <=? 2 * length (filter isLetter line))
    && negb (isNoiseLine line)
    && negb (existsb (fun w => includes (toLowerCase line) (lit w))
               ["tel"; "fax"; "www"; "http"; "@"]%string).
Proof.
  unfold looksLikeItemLine, isTextLine, digit, CONTACT_PATTERN.
  rewrite test_class, !matchAll_class.
  pose proof (@test_keywords 1 ["tel"; "fax"; "www"; "http"; "@"]%string
                line eq_refl) as Hcontact.
  cbn [map] in Hcontact. rewrite Hcontact. clear Hcontact.
  set (letters := length (filter isLetter line)).
  set (digits := length (filter isDigit line)).
  assert (Hex : existsb isLetter line = (0 <? letters)).
  { unfold letters. induction line as [| a l IH]; [reflexivity |].
    cbn [existsb filter]. destruct (isLetter a); [reflexivity | exact IH]. }
  rewrite Hex.
  destruct (3 <? length line), (isNoiseLine line), (existsb _ _);
    cbn [negb andb orb]; rewrite ?andb_false_r; try reflexivity;
    destruct (Nat.ltb_spec letters 2), (Nat.leb_spec 2 letters),
      (Nat.ltb_spec 0 letters), (Nat.ltb_spec (2 * letters) digits),
      (Nat.leb_spec digits (2 * letters));
    cbn [negb andb orb]; try reflexivity; lia.
Qed.

(** ** The draft and its application *)

Ltac form_step :=
  cbn [isEmpty negb andb fst snd setDate setAmount setDescription setNote
       setCategory setMwstRate Form.date Form.category_id Form.description
       Form.amount_chf Form.mwst_rate Form.note].

Ltac form_cases :=
  form_step;
  repeat (match goal with
          | H : filled ?x = true |- context [filled ?x] => rewrite H
          | |- context [isEmpty ?x] => is_var x; destruct x
          | |- context [filled ?x] => is_var x; destruct (filled x) eqn:?
          | |- context [findCategory ?w ?l] => destruct (findCategory w l)
          | |- context [(?c =? 0)%Z] => is_var c; destruct (c =? 0)%Z eqn:?
          | |- context [match ?v with Some _ => _ | None => _ end] =>
              is_var v; destruct v
          end; form_step);
  try congruence.

Section ExpenseFormProperties.

Variable numberToString : number -> str.

(** X18.  Applying a draft overwrites neither a description nor a note
    that is filled in, nor the category when one is chosen; a tax rate
    of the draft always ends up in the form; and a field whose draft
    value is empty is left alone, the tax rate apart, which may receive
    the default rate of the category. *)
Theorem applyOcrSuggestion_keeps (draft : Draft.OcrDraft)
  (categoryValue : option Z) (categories : list Category)
  (form : Form.FormInput) :
  (filled (Form.description form) = true ->
   Form.description
     (fst (applyOcrSuggestion numberToString (Some draft) categoryValue
             categories form))
   = Form.description form)
  /\ (filled (Form.note form) = true ->
      Form.note
        (fst (applyOcrSuggestion numberToString (Some draft) categoryValue
                categories form))
      = Form.note form)
  /\ ((exists c, categoryValue = Some c /\ c <> 0%Z) ->
      Form.category_id
        (fst (applyOcrSuggestion numberToString (Some draft) categoryValue
                categories form))
      = Form.category_id form)
  /\ (Draft.mwstRate draft <> [] ->
      Form.mwst_rate
        (fst (applyOcrSuggestion numberToString (Some draft) categoryValue
                categories form))
      = VString (Draft.mwstRate draft))
  /\ (Draft.date draft = [] ->
      Form.date
        (fst (applyOcrSuggestion numberToString (Some draft) categoryValue
                categories form))
      = Form.date form)
  /\ (Draft.amount draft = [] ->
      Form.amount_chf
        (fst (applyOcrSuggestion numberToString (Some draft) categoryValue
                categories form))
      = Form.amount_chf form)
  /\ snd (applyOcrSuggestion numberToString (Some draft) categoryValue
            categories form)
     = false.
Proof.
  destruct draft as [dDate dAmount dRate dDescription dNote dCategory].
  destruct form as [fDate fCategory fDescription fAmount fRate fNote].
  unfold applyOcrSuggestion.
  cbn [Draft.date Draft.amount Draft.mwstRate Draft.description Draft.note
       Draft.categoryId Form.description Form.note Form.category_id
       Form.mwst_rate Form.date Form.amount_chf].
  repeat split.
  - intros Hfilled. form_cases.
  - intros Hfilled. form_cases.
  - intros [c [-> Hc]]. apply Z.eqb_neq in Hc. rewrite Hc.
    form_cases.
  - intros Hrate. destruct dRate as [| a dRate]; [congruence |].
    reflexivity.
  - intros ->. form_cases.
  - intros ->. form_cases.
Qed.

End ExpenseFormProperties.

Lemma space_no_word (a : ascii) :
  isSpace a = true -> negb (isLetter a || isDigit a) = true.
Proof.
  assert (H : forallb (fun a => implb (isSpace a)
                                  (negb (isLetter a || isDigit a)))
                allChars = true) by (vm_compute; reflexivity).
  rewrite forallb_forall in H. specialize (H a (allChars_all a)).
  intros Ha. now rewrite Ha in H.
Qed.

Lemma suggestCategoryId_member (text : str) (categories : list Category)
  (i : Z) :
  suggestCategoryId text categories = Some i ->
  exists c, In c categories /\ id c = i.
Proof.
  unfold suggestCategoryId, suggestCategoryIdTraced.
  destruct (isEmpty text || _); [discriminate |].
  rewrite visit_fold_none.
  destruct (filter is_active categories) as [| b l] eqn:Hf; [discriminate |].
  cbn [fst]. destruct (leb _ _); [| discriminate].
  intros [= <-]. exists (pick (categoryScore (normalizeText text)) b l).
  split; [| reflexivity].
  assert (Hin : In (pick (categoryScore (normalizeText text)) b l)
                  (filter is_active categories))
    by (rewrite Hf; apply pick_in).
  now apply filter_In in Hin.
Qed.

Lemma findCategory_member (categories : list Category) (i : Z) :
  (exists c, In c categories /\ id c = i) ->
  findCategory (Some i) categories <> None.
Proof.
  intros [c [Hin Hid]] Hnone. cbn [findCategory] in Hnone.
  apply (find_none _ _ Hnone) in Hin. cbv beta in Hin.
  apply Z.eqb_neq in Hin. congruence.
Qed.

Section DraftProperties.

Variable numberToString : number -> str.

Lemma applyOcrSuggestion_rate (draft : Draft.OcrDraft)
  (categoryValue : option Z) (categories : list Category)
  (form : Form.FormInput) :
  Draft.mwstRate draft <> [] ->
  Form.mwst_rate
    (fst (applyOcrSuggestion numberToString (Some draft) categoryValue
            categories form))
  = VString (Draft.mwstRate draft).
Proof.
  unfold applyOcrSuggestion.
  destruct (Draft.mwstRate draft) as [| a rate]; [congruence |].
  reflexivity.
Qed.

(** X19.  For a recognized text of white space only the draft is empty,
    and applying it leaves the form as it is. *)
Theorem ocrDraftOf_blank (recognized : str) (categories : list Category) :
  Forall (fun a => isSpace a = true) recognized ->
  ocrDraftOf numberToString recognized categories
  = Draft.Build_OcrDraft [] [] [] [] [] 0
  /\ (forall categoryValue form,
        applyOcrSuggestion numberToString
          (Some (ocrDraftOf numberToString recognized categories))
          categoryValue categories form
        = (form, false)).
Proof.
  intros Hblank.
  assert (Hdraft : ocrDraftOf numberToString recognized categories
                   = Draft.Build_OcrDraft [] [] [] [] [] 0).
  { unfold ocrDraftOf, parseReceiptText.
    rewrite (receiptLines_blank Hblank).
    change (suggestionOfLines [])
      with (Build_OcrSuggestion None None None None None).
    assert (Htext : suggestionText recognized
                      (Build_OcrSuggestion None None None None None)
                    = recognized)
      by (unfold suggestionText; destruct recognized; reflexivity).
    rewrite Htext, suggestCategoryId_scoreless; [reflexivity |].
    assert (Hword : forallb (fun a => negb (isLetter a || isDigit a))
                      recognized = true).
    { apply forallb_forall. intros a Ha. rewrite Forall_forall in Hblank.
      now apply space_no_word, Hblank. }
    intros c. rewrite (normalizeText_no_letter recognized Hword).
    now apply categoryScore_no_word. }
  split; [exact Hdraft |].
  intros categoryValue form. rewrite Hdraft. now destruct form.
Qed.

(** X20.  As [String] of a number is never empty, a draft that proposes
    a category always proposes a tax rate: the one found on the receipt,
    or else the default rate of the first category with the proposed
    identifier.  So when such a draft is applied, the tax rate of the
    form is the one of the draft. *)
Theorem ocrDraftOf_category_rate (recognized : str)
  (categories : list Category) :
  (forall x, numberToString x <> []) ->
  Draft.categoryId (ocrDraftOf numberToString recognized categories) <> 0%Z ->
  Draft.mwstRate (ocrDraftOf numberToString recognized categories) <> []
  /\ (forall categoryValue form,
        Form.mwst_rate
          (fst (applyOcrSuggestion numberToString
                  (Some (ocrDraftOf numberToString recognized categories))
                  categoryValue categories form))
        = VString
            (Draft.mwstRate
               (ocrDraftOf numberToString recognized categories))).
Proof.
  intros Hstring Hcategory.
  assert (Hrate : Draft.mwstRate
                    (ocrDraftOf numberToString recognized categories)
                  <> []).
  { revert Hcategory. unfold ocrDraftOf.
    cbn [Draft.categoryId Draft.mwstRate].
    destruct (mwstRate (parseReceiptText recognized)) as [rate |];
      [intros _; apply Hstring |].
    destruct (suggestCategoryId _ categories) as [i |] eqn:Hs;
      [intros _ | congruence].
    apply suggestCategoryId_member, findCategory_member in Hs.
    destruct (findCategory (Some i) categories); [apply Hstring | congruence]. }
  split; [exact Hrate |].
  intros categoryValue form. now apply applyOcrSuggestion_rate.
Qed.

End DraftProperties.

(** ** The stored preferences *)

Section StoredPreferences.

Import AppStore.

Lemma strEqb_eq (a b : str) : strEqb a b = true <-> a = b.
Proof.
  unfold strEqb. destruct (list_eq_dec ascii_dec a b); split;
    congruence.
Qed.

Lemma strEqb_refl (a : str) : strEqb a a = true.
Proof. now apply strEqb_eq. Qed.

Lemma strEqb_neq (a b : str) : a <> b -> strEqb a b = false.
Proof.
  intros H. unfold strEqb. destruct (list_eq_dec ascii_dec a b); congruence.
Qed.

(** Reading an entry after writing one: the value written under the same
    key, the old value under any other. *)
Lemma getItem_setItem (key key' value : str) (h : Host) :
  getItem key (setItem key' value h)
  = if strEqb key' key then Some value else getItem key h.
Proof.
  unfold getItem, setItem. cbn [localStorage find fst snd].
  destruct (strEqb key' key) eqn:Hk; [reflexivity |].
  induction (localStorage h) as [| [k v] l IH]; [reflexivity |].
  cbn [filter find fst snd].
  destruct (strEqb k key') eqn:Hk'; cbn [negb find fst].
  - apply strEqb_eq in Hk'. subst k. rewrite Hk. exact IH.
  - destruct (strEqb k key); [reflexivity | exact IH].
Qed.

Lemma hasWindow_setItem (key value : str) (h : Host) :
  hasWindow (setItem key value h) = hasWindow h
  /\ prefersDark (setItem key value h) = prefersDark h.
Proof. split; reflexivity. Qed.

(** X21.  With [window] defined, what a setter stores is what [hydrate]
    reads back, and the other stored preferences stay as they were. *)
Theorem stored_preferences (h : Host) (s : State) :
  hasWindow h = true ->
  (forall t,
     snd (hydrate (setTheme t (h, s)))
     = {| sidebarCollapsed := getStoredSidebar h; theme := t;
          language := getStoredLanguage h; density := getStoredDensity h;
          uiScale := getStoredUiScale h; ocrMode := getStoredOcrMode h;
          ocrApiKey := getStoredOcrKey h |})
  /\ (forall collapsed,
        snd (hydrate (setSidebarCollapsed collapsed (h, s)))
        = {| sidebarCollapsed := collapsed; theme := getStoredTheme h;
             language := getStoredLanguage h; density := getStoredDensity h;
             uiScale := getStoredUiScale h; ocrMode := getStoredOcrMode h;
             ocrApiKey := getStoredOcrKey h |})
  /\ (forall l,
        snd (hydrate (setLanguage l (h, s)))
        = {| sidebarCollapsed := getStoredSidebar h;
             theme := getStoredTheme h;
             language := l; density := getStoredDensity h;
             uiScale := getStoredUiScale h; ocrMode := getStoredOcrMode h;
             ocrApiKey := getStoredOcrKey h |})
  /\ (forall d,
        snd (hydrate (setDensity d (h, s)))
        = {| sidebarCollapsed := getStoredSidebar h;
             theme := getStoredTheme h;
             language := getStoredLanguage h; density := d;
             uiScale := getStoredUiScale h; ocrMode := getStoredOcrMode h;
             ocrApiKey := getStoredOcrKey h |})
  /\ (forall m,
        snd (hydrate (setOcrMode m (h, s)))
        = {| sidebarCollapsed := getStoredSidebar h;
             theme := getStoredTheme h;
             language := getStoredLanguage h; density := getStoredDensity h;
             uiScale := getStoredUiScale h; ocrMode := m;
             ocrApiKey := getStoredOcrKey h |})
  /\ (forall key,
        snd (hydrate (setOcrApiKey key (h, s)))
        = {| sidebarCollapsed := getStoredSidebar h;
             theme := getStoredTheme h;
             language := getStoredLanguage h; density := getStoredDensity h;
             uiScale := getStoredUiScale h; ocrMode := getStoredOcrMode h;
             ocrApiKey := key |}).
Proof.
  intros Hw.
  assert (Hread : forall key value,
            (forall k, k <> key ->
                       getItem k (persist key value h) = getItem k h)
            /\ getItem key (persist key value h) = Some value
            /\ hasWindow (persist key value h) = true
            /\ prefersDark (persist key value h) = prefersDark h).
  { intros key value. unfold persist. rewrite Hw. repeat split.
    - intros k Hk. rewrite getItem_setItem, strEqb_neq; congruence.
    - now rewrite getItem_setItem, strEqb_refl.
    - exact Hw. }
  repeat split; intros x;
    unfold hydrate, setTheme, setSidebarCollapsed, setLanguage, setDensity,
      setOcrMode, setOcrApiKey;
    cbn [snd fst];
    match goal with
    | |- context [persist ?key ?value h] =>
        destruct (Hread key value) as [Hother [Hsame [Hw' Hdark]]]
    end;
    unfold getStoredTheme, getStoredSidebar, getStoredLanguage,
      getStoredDensity, getStoredUiScale, getStoredOcrMode, getStoredOcrKey;
    rewrite Hw, Hw', Hdark, Hsame, ?Hother by discriminate;
    cbn [negb]; f_equal.
  - now destruct x.
  - now destruct x.
  - now destruct x.
  - now destruct x.
  - now destruct x.
Qed.

Lemma ofZ_80 : ofZ 80 = Fin (80 * 2 ^ unit_exp).
Proof. vm_compute. reflexivity. Qed.

Lemma ofZ_140 : ofZ 140 = Fin (140 * 2 ^ unit_exp).
Proof. vm_compute. reflexivity. Qed.

(** X22.  The interface scale is always a finite number from 80 to 140:
    [setUiScale] clamps a finite argument to that range and takes 100
    for any other, and [getStoredUiScale] takes 100 for a stored text
    that is missing or does not convert to a number of the range. *)
Theorem uiScale_range :
  (forall scale,
     isFinite (clampScale scale) = true
     /\ leb (ofZ 80) (clampScale scale) = true
     /\ leb (clampScale scale) (ofZ 140) = true)
  /\ (forall h,
        isFinite (getStoredUiScale h) = true
        /\ leb (ofZ 80) (getStoredUiScale h) = true
        /\ leb (getStoredUiScale h) (ofZ 140) = true)
  /\ (forall numberToString scale st,
        uiScale (snd (setUiScale numberToString scale st))
        = clampScale scale)
  /\ (forall st, uiScale (snd (hydrate st)) = getStoredUiScale (fst st)).
Proof.
  assert (H100 : isFinite (ofZ 100) = true
                 /\ leb (ofZ 80) (ofZ 100) = true
                 /\ leb (ofZ 100) (ofZ 140) = true)
    by (vm_compute; repeat split).
  split; [| split; [| split]].
  - intros scale. unfold clampScale.
    destruct scale as [| | | k]; cbn [isFinite];
      [exact H100 | exact H100 | exact H100 |].
    rewrite ofZ_80, ofZ_140. set (X := (2 ^ unit_exp)%Z).
    assert (HX : (0 < X)%Z)
      by (apply Z.pow_pos_nonneg; unfold unit_exp; lia).
    cbn [fmax ltb].
    destruct (80 * X <? k)%Z eqn:H80; cbn [fmin ltb].
    + destruct (k <? 140 * X)%Z eqn:H140; cbn [isFinite leb];
        rewrite ?Z.leb_le; apply Z.ltb_lt in H80;
        rewrite ?Z.ltb_lt, ?Z.ltb_ge in H140; repeat split; lia.
    + replace (80 * X <? 140 * X)%Z with true
        by (symmetry; apply Z.ltb_lt; lia).
      cbn [isFinite leb]. rewrite !Z.leb_le. repeat split; lia.
  - intros h. unfold getStoredUiScale.
    destruct (negb (hasWindow h)); [exact H100 |]. cbv zeta.
    match goal with
    | |- context [isFinite ?x && leb (ofZ 80) ?x && leb ?x (ofZ 140)] =>
        destruct (isFinite x) eqn:Hf; cbn [andb]; [| exact H100];
        destruct (leb (ofZ 80) x) eqn:Hlow; cbn [andb]; [| exact H100];
        destruct (leb x (ofZ 140)) eqn:Hhigh; [| exact H100]
    end.
    repeat split; assumption.
  - intros numberToString scale [h s]. reflexivity.
  - intros [h s]. reflexivity.
Qed.

(** X23.  Toggling twice gives back the theme and the state of the side
    bar; and with [window] defined the stored value after a toggle is
    the new value of the state. *)
Theorem toggles (st : Store) :
  theme (snd (toggleTheme (toggleTheme st))) = theme (snd st)
  /\ sidebarCollapsed (snd (toggleSidebar (toggleSidebar st)))
     = sidebarCollapsed (snd st)
  /\ theme (snd (toggleTheme st)) <> theme (snd st)
  /\ (hasWindow (fst st) = true ->
      getStoredTheme (fst (toggleTheme st)) = theme (snd (toggleTheme st))
      /\ getStoredSidebar (fst (toggleSidebar st))
         = sidebarCollapsed (snd (toggleSidebar st))).
Proof.
  destruct st as [h s]. unfold toggleTheme, toggleSidebar.
  cbn [fst snd theme sidebarCollapsed].
  split; [now destruct (theme s) | split; [apply negb_involutive | split]].
  - destruct (theme s); discriminate.
  - intros Hw. unfold getStoredTheme, getStoredSidebar, persist.
    rewrite Hw. cbn [hasWindow setItem]. rewrite !Hw. cbn [negb].
    fold (setItem (lit "pd_theme")
            (themeName match theme s with Dark => Light | Light => Dark end)
            h).
    fold (setItem (lit "pd_sidebar_collapsed")
            (if negb (sidebarCollapsed s) then lit "1" else lit "0") h).
    rewrite !getItem_setItem, !strEqb_refl.
    split; [destruct (theme s) | destruct (sidebarCollapsed s)];
      reflexivity.
Qed.

(** X24.  With no recognition mode and no key stored, the options that
    [startOcr] builds from the hydrated store make [runReceiptOcr] run
    the local engine only: the remote path is not entered and no request
    is sent. *)
Theorem fresh_store_local (h : Host) (s : State) (lang : Language)
  (w : World) (source : OcrSource) :
  getItem (lit "pd_ocr_mode") h = None ->
  getItem (lit "pd_ocr_key") h = None ->
  runReceiptOcr w source (startOcrOptions (snd (hydrate (h, s))) lang) []
  = offlineResult w source (startOcrOptions (snd (hydrate (h, s))) lang) []
  /\ snd (runReceiptOcr w source
            (startOcrOptions (snd (hydrate (h, s))) lang) [])
     = [LocalPath].
Proof.
  intros Hmode Hkey.
  assert (Hopt : startOcrOptions (snd (hydrate (h, s))) lang
                 = {| mode := ModeAuto; apiKey := Some [];
                      uiLanguage := Some lang |}).
  { unfold startOcrOptions, hydrate. cbn [snd ocrMode ocrApiKey].
    unfold getStoredOcrMode, getStoredOcrKey. rewrite Hmode, Hkey.
    now destruct (negb (hasWindow h)). }
  rewrite Hopt. unfold runReceiptOcr, wantsOnline, hasApiKey.
  cbn [mode apiKey isEmpty negb andb].
  split; [reflexivity | now rewrite offlineResult_run].
Qed.

End StoredPreferences.

(** ** Items are front parts of their lines *)

Lemma run_to_end (total : nat) (r : regex) :
  endsAtEol r = true ->
  forall s c k res,
    run total r s c k = Some res -> exists c', k [] c' = Some res.
Proof.
  induction r as [| p | r1 IH1 r2 IH2 | r1 IH1 r2 IH2 | lo hi r IH
                  | n r IH | |]; cbn [endsAtEol]; intros Hend;
    try discriminate Hend; intros s c k res H; cbn [run] in H.
  - apply run_sound in H. destruct H as [m [cs [rest [_ [_ H]]]]].
    now apply (IH2 Hend) in H.
  - destruct s; [| discriminate H]. now exists c.
Qed.

Lemma replaceFirst_front (r : regex) (s : str) :
  endsAtEol r = true -> exists m, s = replaceFirst r [] s ++ m.
Proof.
  intros Hend. unfold replaceFirst, search.
  destruct (searchFrom (length s) r [] s)
    as [[[[b m] c] rest] |] eqn:H; [| exists []; now rewrite app_nil_r].
  apply searchFrom_split in H. destruct H as [skipped [-> [Hs Hm]]].
  unfold matchAt in Hm. apply (run_to_end _ _ Hend) in Hm.
  destruct Hm as [c' Hm]. injection Hm as _ <-.
  exists m. rewrite Hs at 1. cbn [rev app]. now rewrite !app_nil_r.
Qed.

Lemma trim_front (s : str) :
  (forall a t, s = a :: t -> isSpace a = false) ->
  exists r, s = trim s ++ r.
Proof.
  intros Hhd. unfold trim.
  assert (Hs : dropWhile isSpace s = s).
  { destruct s as [| a t]; [reflexivity |]. cbn [dropWhile].
    now rewrite (Hhd a t eq_refl). }
  rewrite Hs.
  destruct (dropWhile_suffix isSpace (rev s)) as [r Hr].
  exists (rev r). rewrite <- rev_app_distr, <- Hr.
  symmetry. apply rev_involutive.
Qed.

Lemma stripTrailingPrice_front (raw : str) :
  exists r,
    normalizeOcrLine raw = stripTrailingPrice (normalizeOcrLine raw) ++ r.
Proof.
  unfold stripTrailingPrice.
  destruct (@replaceFirst_front TRAILING_PRICE_PATTERN
              (normalizeOcrLine raw) eq_refl) as [m Hm].
  set (front := replaceFirst _ [] _) in *.
  destruct (@trim_front front) as [r Hr].
  - intros a t Hf. rewrite Hf in Hm.
    apply (proj1 (normalizeOcrLine_ends raw) a (t ++ m)). exact Hm.
  - exists (r ++ m). rewrite app_assoc, <- Hr. exact Hm.
Qed.

Lemma fallbackItems_from (lines items : list str) (item : str) :
  In item (fallbackItems lines items) -> In item items \/ In item lines.
Proof.
  revert items. induction lines as [| line rest IH]; intros items;
    cbn [fallbackItems]; [auto |].
  destruct (_ || _).
  - intros H. apply IH in H. destruct H; [auto | right; now right].
  - destruct (4 <=? _).
    + rewrite in_app_iff. intros [H | [<- | []]]; [auto | right; now left].
    + intros H. apply IH in H. rewrite in_app_iff in H.
      destruct H as [[H | [<- | []]] | H];
        [auto | right; now left | right; now right].
Qed.

(** X25.  Every extracted item is text of the receipt: a line as it
    stands, or a front part of the normalized form of a line, what is cut
    off being the trailing price. *)
Theorem extractItems_fronts (lines : list str) :
  Forall (fun item =>
            exists raw,
              In raw lines
              /\ (item = raw
                  \/ exists cut, normalizeOcrLine raw = item ++ cut))
    (extractItems lines).
Proof.
  apply Forall_forall. intros item Hin. unfold extractItems in Hin.
  assert (Hprimary : In item (primaryItems lines []) ->
                     exists raw,
                       In raw lines
                       /\ (item = raw
                           \/ exists cut,
                                normalizeOcrLine raw = item ++ cut)).
  { intros H. apply primaryItems_origin in H.
    destruct H as [[] | [H | H]].
    - destruct H as [raw [Hraw [_ [_ [_ [-> _]]]]]].
      exists raw. split; [exact Hraw | right].
      apply stripTrailingPrice_front.
    - destruct H as [pre [raw [following [post [-> [-> _]]]]]].
      exists raw. split; [apply in_elt | right].
      exists []. now rewrite app_nil_r. }
  destruct (length (primaryItems lines []) =? 0); [| auto].
  apply fallbackItems_from in Hin. destruct Hin as [Hin | Hin]; [auto |].
  exists item. auto.
Qed.

(** ** The primary item rules, line by line *)








(** ** The statements at sample inputs *)

(** In [auto] mode a failing service is followed by the local engine,
    whose text is returned. *)
Lemma runReceiptOcr_dispatch_witness :
  runReceiptOcr sampleWorld sampleSource sampleOptions []
  = offlineResult sampleWorld sampleSource sampleOptions
      [RemotePath; RemoteRequest]
  /\ fst (runReceiptOcr sampleWorld sampleSource sampleOptions [])
     = fst (offlineResult sampleWorld sampleSource sampleOptions []).
Proof.
  apply (proj2 (proj2 (runReceiptOcr_dispatch sampleWorld sampleSource
                         sampleOptions))
           (lit "Online-OCR fehlgeschlagen") [RemotePath; RemoteRequest]);
    reflexivity.
Defined.


Lemma parseReceiptText_invariant_witness :
  isFinite (ofZ 5) = true /\ ltb (ofZ 0) (ofZ 5) = true.
Proof.
  apply (proj1 (parseReceiptText_invariant (lit "TOTAL CHF 5.00"))).
  vm_compute. reflexivity.
Defined.

Lemma description_first_text_line_witness :
  Forall (fun l => describes l = false) [lit "12.50"; lit "TOTAL"]
  /\ extractItems [lit "12.50"; lit "TOTAL"] = [].
Proof.
  apply (proj1 (proj2 (description_first_text_line
                         [lit "12.50"; lit "TOTAL"]))).
  reflexivity.
Defined.


Lemma suggestCategoryId_inactive_witness :
  suggestCategoryIdTraced (lit "Shell Diesel 50.00") sampleCategories
  = (None, []).
Proof.
  apply (proj1 (suggestCategoryId_inactive (lit "Shell Diesel 50.00")
                  sampleCategories)).
  right. right. repeat constructor.
Defined.

Lemma findDate_zero_stops_witness :
  findDate [lit "MIGROS"; lit "00.01.2024"; lit "Rechnung vom 05.03.24"]
  = None.
Proof.
  apply (@findDate_zero_stops [lit "MIGROS"] [lit "Rechnung vom 05.03.24"]
           (lit "00.01.2024") 2024%N 1%N 0%N).
  - repeat constructor.
  - reflexivity.
  - right. right. reflexivity.
Defined.

Lemma findDate_shape_witness :
  exists y mo da,
    (1 <= y <= 9999)%N /\ (1 <= mo <= 99)%N /\ (1 <= da <= 99)%N
    /\ lit "2024-03-05"
       = decimal y ++ lit "-"
         ++ [chr (48 + mo / 10); chr (48 + mo mod 10)] ++ lit "-"
         ++ [chr (48 + da / 10); chr (48 + da mod 10)].
Proof.
  apply (@findDate_shape [lit "MIGROS"; lit "Datum 5.3.24"]).
  reflexivity.
Defined.

Lemma parseReceiptText_blank_witness :
  receiptLines [" "; chr 13; chr 10; chr 9; chr 10]%char = []
  /\ parseReceiptText [" "; chr 13; chr 10; chr 9; chr 10]%char
     = Build_OcrSuggestion None None None None None.
Proof.
  apply (@parseReceiptText_blank [" "; chr 13; chr 10; chr 9; chr 10]%char).
  repeat constructor.
Defined.
Lemma hasKeyword_noise_witness :
  isNoiseLine (lit "Totale EUR 12,50") = true
  /\ describes (lit "Totale EUR 12,50") = false
  /\ looksLikeItemLine (lit "Totale EUR 12,50") = false.
Proof.
  apply (@hasKeyword_noise (lit "Totale EUR 12,50")). reflexivity.
Defined.

Lemma suggestCategoryId_no_word_witness :
  suggestCategoryId (lit "--- * ---")
    [ {| ExpensePage.id := 7; ExpensePage.name := lit "Verpackung";
         ExpensePage.description := None;
         ExpensePage.default_mwst_rate := ofDecimal 81 (-1);
         ExpensePage.is_active := true |} ]
  = None.
Proof.
  apply (@suggestCategoryId_no_word (lit "--- * ---")). reflexivity.
Defined.

Lemma runReceiptOcr_no_key_witness :
  ~ In RemoteRequest
      (snd (runReceiptOcr answeringWorld sampleSource blankKeyOptions []))
  /\ (mode blankKeyOptions = ModeOnline ->
      runReceiptOcr answeringWorld sampleSource blankKeyOptions []
      = (inl (lit "Kein API-Schluessel fuer Online-OCR"), [RemotePath]))
  /\ (mode blankKeyOptions <> ModeOnline ->
      runReceiptOcr answeringWorld sampleSource blankKeyOptions []
      = offlineResult answeringWorld sampleSource blankKeyOptions
          (if wantsOnline answeringWorld blankKeyOptions
           then [RemotePath] else [])).
Proof.
  apply (@runReceiptOcr_no_key answeringWorld sampleSource blankKeyOptions).
  reflexivity.
Defined.

Lemma runReceiptOcr_method_witness :
  usableKey sampleOptions <> []
  /\ (exists message parsed,
        service answeringWorld (usableKey sampleOptions) (lit "ger")
          sampleSource
        = Status true false message parsed
        /\ lit "TOTAL 5.00" = match parsed with Some t => t | None => [] end)
  /\ [RemotePath; RemoteRequest] = [RemotePath; RemoteRequest].
Proof.
  apply (@runReceiptOcr_method answeringWorld sampleSource sampleOptions
           {| text := lit "TOTAL 5.00"; method := MethodOnline |}
           [RemotePath; RemoteRequest]).
  reflexivity.
Defined.

Lemma findMwstRate_max_witness :
  leb (ofZ 0) (ofDecimal 999 (-1)) = true
  /\ leb (ofDecimal 999 (-1)) (ofDecimal 999 (-1)) = true.
Proof.
  apply (@findMwstRate_max [lit "Rabatt"; lit "inkl. MwSt 99,9 %"]).
  vm_compute. reflexivity.
Defined.

Lemma ocrDraftOf_blank_witness :
  ocrDraftOf sampleNumberToString [" "; chr 10; " "]%char activeCategories
  = Draft.Build_OcrDraft [] [] [] [] [] 0
  /\ (forall categoryValue form,
        applyOcrSuggestion sampleNumberToString
          (Some (ocrDraftOf sampleNumberToString [" "; chr 10; " "]%char
                   activeCategories))
          categoryValue activeCategories form
        = (form, false)).
Proof.
  apply (@ocrDraftOf_blank sampleNumberToString [" "; chr 10; " "]%char
           activeCategories).
  repeat constructor.
Defined.

Lemma ocrDraftOf_category_rate_witness :
  Draft.mwstRate
    (ocrDraftOf sampleNumberToString (lit "Shell Diesel 50.00")
       activeCategories)
  <> []
  /\ (forall categoryValue form,
        Form.mwst_rate
          (fst (applyOcrSuggestion sampleNumberToString
                  (Some (ocrDraftOf sampleNumberToString
                           (lit "Shell Diesel 50.00") activeCategories))
                  categoryValue activeCategories form))
        = VString
            (Draft.mwstRate
               (ocrDraftOf sampleNumberToString (lit "Shell Diesel 50.00")
                  activeCategories))).
Proof.
  apply (@ocrDraftOf_category_rate sampleNumberToString
           (lit "Shell Diesel 50.00") activeCategories).
  - intros x. discriminate.
  - vm_compute. discriminate.
Defined.

Lemma stored_preferences_witness :
  (forall t,
     snd (AppStore.hydrate
            (AppStore.setTheme t (sampleHost, AppStore.initialState)))
     = {| AppStore.sidebarCollapsed := AppStore.getStoredSidebar sampleHost;
          AppStore.theme := t;
          AppStore.language := AppStore.getStoredLanguage sampleHost;
          AppStore.density := AppStore.getStoredDensity sampleHost;
          AppStore.uiScale := AppStore.getStoredUiScale sampleHost;
          AppStore.ocrMode := AppStore.getStoredOcrMode sampleHost;
          AppStore.ocrApiKey := AppStore.getStoredOcrKey sampleHost |})
  /\ AppStore.getStoredTheme sampleHost = AppStore.Dark.
Proof.
  split; [| reflexivity].
  apply (proj1 (@stored_preferences sampleHost AppStore.initialState
                  eq_refl)).
Defined.

Lemma fresh_store_local_witness :
  runReceiptOcr answeringWorld sampleSource
    (startOcrOptions
       (snd (AppStore.hydrate (sampleHost, AppStore.initialState))) LangIt)
    []
  = offlineResult answeringWorld sampleSource
      (startOcrOptions
         (snd (AppStore.hydrate (sampleHost, AppStore.initialState))) LangIt)
      []
  /\ snd (runReceiptOcr answeringWorld sampleSource
            (startOcrOptions
               (snd (AppStore.hydrate (sampleHost, AppStore.initialState)))
               LangIt) [])
     = [LocalPath].
Proof.
  apply (@fresh_store_local sampleHost AppStore.initialState LangIt
           answeringWorld sampleSource); reflexivity.
Defined.
